(** * rohde-search: the listing parser, the merger and the normalizers

    A shallow embedding of the text pipeline of [src/build]:
    - [parse_job_line]        (scraper.py and build_data.py),
    - [parse_edition_html]    (build_data.py),
    - [deduplicate_companies] (scraper.py and build_data.py),
    - [is_valid_company], [is_valid_industry], [is_valid_location],
      [normalize_industry], [normalize_location], [clean_companies_data]
      (clean_data.py),
    followed by the properties of these functions.  Fetching pages, the
    HTML parser of scraper.py, the description service and the files on
    disk are outside the embedding.

    Python strings are modelled as lists of 8-bit characters.  Only the
    ASCII characters are whitespace, letters or digits in the model; a
    character above 127 is an opaque symbol that [lower], [upper] and
    [strip] leave alone.  The embedding is exact on ASCII text.  On other
    text the source sees more: Python takes U+0085, U+00A0 and further
    Unicode spaces for whitespace, folds the case of letters beyond ASCII
    (and lowers U+0130 to two characters), and counts such letters and
    digits as word characters.  Python integers are [Z]. *)

From Stdlib Require Import String Ascii List ZArith Bool Arith Lia Permutation
  Sorted.
Import ListNotations.
Open Scope string_scope.
Open Scope list_scope.

(** String literals are read as character lists. *)
Definition lit (s : string) : list ascii := list_ascii_of_string s.
Coercion lit : string >-> list.
Abbreviation str := (list ascii).

(** ** Python string primitives *)
Module Py.

Definition code (c : ascii) : nat := nat_of_ascii c.

Definition between (lo hi n : nat) : bool :=
  ((lo <=? n)%nat && (n <=? hi)%nat)%bool.

(** [str.isspace] on one character, which is also the class [\s] of [re],
    within ASCII: TAB LF VT FF CR, FS GS RS US and the space. *)
Definition isspace (c : ascii) : bool :=
  between 9 13 (code c) || between 28 32 (code c).

Definition isupper (c : ascii) : bool := between 65 90 (code c).
Definition islower (c : ascii) : bool := between 97 122 (code c).
Definition isalpha (c : ascii) : bool := isupper c || islower c.
Definition isdigit (c : ascii) : bool := between 48 57 (code c).

(** The class [\w] of [re] within ASCII: letters, digits and the
    underscore. *)
Definition isword (c : ascii) : bool :=
  isalpha c || isdigit c || Ascii.eqb c "_".

Definition lower_char (c : ascii) : ascii :=
  if isupper c then ascii_of_nat (code c + 32) else c.
Definition upper_char (c : ascii) : ascii :=
  if islower c then ascii_of_nat (code c - 32) else c.

Definition lower (s : str) : str := map lower_char s.
Definition upper (s : str) : str := map upper_char s.

(** Truth value of a string: [if s] holds for a non-empty string. *)
Definition truthy (s : str) : bool :=
  match s with [] => false | _ :: _ => true end.

Fixpoint str_eqb (a b : str) : bool :=
  match a, b with
  | [], [] => true
  | x :: a', y :: b' => Ascii.eqb x y && str_eqb a' b'
  | _, _ => false
  end.

(** [x in l] for a list of strings [l]. *)
Definition in_list (x : str) (l : list str) : bool := existsb (str_eqb x) l.

(** Dropping the leading, respectively trailing, characters of a class. *)
Fixpoint drop_while (p : ascii -> bool) (s : str) : str :=
  match s with
  | [] => []
  | c :: s' => if p c then drop_while p s' else s
  end.

Definition drop_while_end (p : ascii -> bool) (s : str) : str :=
  rev (drop_while p (rev s)).

Definition lstrip (s : str) : str := drop_while isspace s.
Definition rstrip (s : str) : str := drop_while_end isspace s.
Definition strip (s : str) : str := rstrip (lstrip s).

Fixpoint startswith (p s : str) : bool :=
  match p, s with
  | [], _ => true
  | a :: p', b :: s' => Ascii.eqb a b && startswith p' s'
  | _ :: _, [] => false
  end.

(** [needle in hay] for strings: substring test. *)
Fixpoint str_in (needle hay : str) : bool :=
  startswith needle hay ||
  match hay with
  | [] => false
  | _ :: hay' => str_in needle hay'
  end.

(** [any(t in s for t in terms)]. *)
Definition any_in (terms : list str) (s : str) : bool :=
  existsb (fun t => str_in t s) terms.

(** [s.split(sep)] for a one-character separator; never the empty list. *)
Fixpoint split (sep : ascii) (s : str) : list str :=
  match s with
  | [] => [[]]
  | c :: s' =>
      if Ascii.eqb c sep then [] :: split sep s'
      else match split sep s' with
           | p :: ps => (c :: p) :: ps
           | [] => [[c]]
           end
  end.

(** [sep.join(parts)]. *)
Fixpoint join (sep : str) (parts : list str) : str :=
  match parts with
  | [] => []
  | p :: ps =>
      match ps with
      | [] => p
      | _ :: _ => p ++ sep ++ join sep ps
      end
  end.

(** The text before and after the first occurrence of [c]. *)
Fixpoint break_at (c : ascii) (s : str) : option (str * str) :=
  match s with
  | [] => None
  | x :: s' =>
      if Ascii.eqb x c then Some ([], s')
      else match break_at c s' with
           | Some (a, b) => Some (x :: a, b)
           | None => None
           end
  end.

End Py.

Import Py.

(** ** The line parser: [parse_job_line] (scraper.py, build_data.py) *)

(** [re.sub(r'\[([^\]]+)\]\([^)]+\)', r'\1', line)]: a markdown link
    [[text](url)] is replaced by its text.  [link_at s] recognises a link at
    the head of [s] and gives its text and its whole length. *)
Definition link_at (s : str) : option (str * nat) :=
  match s with
  | "["%char :: r =>
      match break_at "]" r with
      | Some (text, "("%char :: u) =>
          match break_at ")" u with
          | Some (url, _) =>
              if truthy text && truthy url
              then Some (text, length text + length url + 4)
              else None
          | None => None
          end
      | _ => None
      end
  | _ => None
  end.

(** The scan of [re.sub]: [skip] counts the characters of a link already
    replaced that are still to be passed over. *)
Fixpoint sub_links_from (skip : nat) (s : str) : str :=
  match s with
  | [] => []
  | c :: s' =>
      match skip with
      | S k => sub_links_from k s'
      | O =>
          match link_at s with
          | Some (text, n) => text ++ sub_links_from (n - 1) s'
          | None => c :: sub_links_from 0 s'
          end
      end
  end.

Definition sub_links (s : str) : str := sub_links_from 0 s.

Definition no_newline (s : str) : bool :=
  forallb (fun c => negb (Ascii.eqb c "010")) s.

(** [(.+?)$] at the head of [x]: the lazy group runs to the end of the
    string, or to the line feed that ends the string; it holds no line feed
    and at least one character. *)
Definition tail_at (x : str) : option str :=
  match rev x with
  | "010"%char :: y' =>
      let y := rev y' in
      if truthy y && no_newline y then Some y else None
  | _ => if truthy x && no_newline x then Some x else None
  end.

(** [\s*(.+?)$]: the greedy [\s*] gives characters back one at a time until
    the rest matches. *)
Fixpoint after_spaces (s : str) : option str :=
  match s with
  | [] => tail_at []
  | c :: s' =>
      if isspace c then
        match after_spaces s' with
        | Some g => Some g
        | None => tail_at s
        end
      else tail_at s
  end.

(** [,?\s*(.+?)$]: the comma is taken when there is one, and given back when
    the rest does not match without it. *)
Definition match_tail (e : str) : option str :=
  match e with
  | ","%char :: e1 =>
      match after_spaces e1 with
      | Some g => Some g
      | None => after_spaces e
      end
  | _ => after_spaces e
  end.

(** Group 2 of the pattern, [\s*([^(]+?)\s*] on the text [t] between the
    first comma and the first parenthesis: [t] without the whitespace around
    it, or the last character of [t] when [t] is whitespace only. *)
Definition company_group (t : str) : str :=
  match rstrip (lstrip t) with
  | [] => match rev t with c :: _ => [c] | [] => [] end
  | g => g
  end.

(** [re.match(r'^([^,]+),\s*([^(]+?)\s*\(([^)]+)\),?\s*(.+?)$', line)]: the
    four groups, or [None]. *)
Definition match_listing (line : str) : option (str * str * str * str) :=
  match break_at "," line with
  | Some (g1, r) =>
      match break_at "(" r with
      | Some (t, d) =>
          match break_at ")" d with
          | Some (g3, e) =>
              match match_tail e with
              | Some g4 =>
                  if truthy g1 && truthy t && truthy g3
                  then Some (g1, company_group t, g3, g4)
                  else None
              | None => None
              end
          | None => None
          end
      | None => None
      end
  | None => None
  end.

(** The funding and stage keywords of the classification loop. *)
Definition stage_keywords : list str :=
  map lit ["series"; "seed"; "public"; "early-stage"; "early stage";
           "late-stage"; "acquired"].

Definition has_stage_keyword (pl : str) : bool := any_in stage_keywords pl.
Definition has_backed (pl : str) : bool := str_in "backed" pl.

(** One turn of [for part in details_parts[1:]], on the pair
    [(stage, investors)]. *)
Definition classify_part (acc : str * str) (part : str) : str * str :=
  let pl := lower part in
  if has_stage_keyword pl then (strip part, snd acc)
  else if has_backed pl then (fst acc, strip part)
  else acc.

(** The parts of a details string: [[p.strip() for p in details.split(',')]]. *)
Definition details_parts (details : str) : list str :=
  map strip (split "," details).

(** From a details string to [(industry, stage, investors)], as the three
    are returned: the first part, and the result of the loop over the
    others, each stripped once more. *)
Definition parse_details (details : str) : str * str * str :=
  let parts := details_parts details in
  let industry := match parts with p :: _ => p | [] => [] end in
  let '(stage, investors) := fold_left classify_part (tl parts) ([], []) in
  (strip industry, strip stage, strip investors).

(** The record returned for a line.  [job_title] is [None] in scraper.py,
    whose dictionary has no such key. *)
Record parsed := {
  p_company : str;
  p_industry : str;
  p_stage : str;
  p_location : str;
  p_investors : str;
  p_job_title : option str
}.

(** What differs between the two copies of [parse_job_line]. *)
Record variant := {
  min_length : nat;
  skip_words : list str;
  strip_links : bool;
  keeps_title : bool
}.

Definition scraper : variant :=
  {| min_length := 15;
     skip_words := map lit ["subscribe"; "click here"; "fill out";
                            "form here"; "newsletter"];
     strip_links := true;
     keeps_title := false |}.

Definition build_data : variant :=
  {| min_length := 10;
     skip_words := map lit ["subscribe"; "click here"; "fill out"];
     strip_links := false;
     keeps_title := true |}.

Definition comma_or_space (c : ascii) : bool := Ascii.eqb c "," || isspace c.
Definition slash_or_space (c : ascii) : bool := Ascii.eqb c "/" || isspace c.

(** [re.sub(r'^[/\s]+|[/\s]+$', '', s)]. *)
Definition trim_slashes (s : str) : str :=
  drop_while_end slash_or_space (drop_while slash_or_space s).

Definition parse_job_line_in (v : variant) (line : str) : option parsed :=
  let line := strip line in
  if negb (truthy line) || (length line <? min_length v)%nat then None else
  let line := if strip_links v then sub_links line else line in
  match match_listing line with
  | None => None
  | Some (g1, g2, g3, g4) =>
      let job_title := strip g1 in
      let company_name := strip g2 in
      let details := strip g3 in
      let location := strip g4 in
      if (length company_name <? 2)%nat || (100 <? length company_name)%nat
      then None
      else if (100 <? length location)%nat then None
      else if existsb (fun s => str_in s (lower company_name)) (skip_words v)
      then None
      else
        let '(industry, stage, investors) := parse_details details in
        let company_name := drop_while_end comma_or_space company_name in
        let location := trim_slashes location in
        Some {| p_company := company_name;
                p_industry := industry;
                p_stage := stage;
                p_location := strip location;
                p_investors := investors;
                p_job_title :=
                  if keeps_title v then Some (strip job_title) else None |}
  end.

(** [parse_job_line] of scraper.py and of build_data.py. *)
Module Scraper.
Definition parse_job_line : str -> option parsed := parse_job_line_in scraper.
End Scraper.

Module BuildData.
Definition parse_job_line : str -> option parsed :=
  parse_job_line_in build_data.
End BuildData.

(** ** The merger: [deduplicate_companies] (scraper.py, build_data.py) *)

(** A raw listing as [parse_edition] hands it on: the parsed fields with the
    edition, the date and the current role category ([None] before any
    heading). *)
Record listing := {
  c_company : str;
  c_industry : str;
  c_stage : str;
  c_location : str;
  c_investors : str;
  c_edition : Z;
  c_date : str;
  c_role_category : option str
}.

(** A value of [company_map].  build_data.py has no [description] key; the
    two copies agree on everything else. *)
Record company := {
  company_name : str;
  industry : str;
  stage : str;
  location : str;
  investors : str;
  editions : list Z;
  latest_edition : Z;
  latest_date : str;
  role_categories : list str;
  description : str
}.

(** [company_map]: a dictionary in insertion order. *)
Definition company_map := list (str * company).

Fixpoint lookup (key : str) (m : company_map) : option company :=
  match m with
  | [] => None
  | (k, v) :: m' => if str_eqb key k then Some v else lookup key m'
  end.

(** Assignment to a key that is present: the entry keeps its place. *)
Fixpoint replace (key : str) (v : company) (m : company_map) : company_map :=
  match m with
  | [] => []
  | (k, w) :: m' =>
      if str_eqb key k then (k, v) :: m' else (k, w) :: replace key v m'
  end.

Definition in_editions (e : Z) (l : list Z) : bool := existsb (Z.eqb e) l.

(** [c.get('role_category')] as a condition: a non-empty string. *)
Definition category_of (c : listing) : option str :=
  match c_role_category c with
  | Some rc => if truthy rc then Some rc else None
  | None => None
  end.

Definition company_key (c : listing) : str := strip (lower (c_company c)).

(** The branch [key not in company_map]. *)
Definition first_sighting (c : listing) : company :=
  {| company_name := c_company c;
     industry := c_industry c;
     stage := c_stage c;
     location := c_location c;
     investors := c_investors c;
     editions := [c_edition c];
     latest_edition := c_edition c;
     latest_date := c_date c;
     role_categories :=
       match category_of c with Some rc => [rc] | None => [] end;
     description := [] |}.

(** [existing['editions'].append(...)] under its guard. *)
Definition add_edition (existing : company) (c : listing) : company :=
  if in_editions (c_edition c) (editions existing) then existing
  else
    {| company_name := company_name existing;
       industry := industry existing;
       stage := stage existing;
       location := location existing;
       investors := investors existing;
       editions := editions existing ++ [c_edition c];
       latest_edition := latest_edition existing;
       latest_date := latest_date existing;
       role_categories := role_categories existing;
       description := description existing |}.

(** [if not existing[f] and c[f]: existing[f] = c[f]]. *)
Definition backfill (old new : str) : str :=
  if negb (truthy old) && truthy new then new else old.

(** The block under [if c['edition'] > existing['latest_edition']]. *)
Definition promote (existing : company) (c : listing) : company :=
  if (c_edition c >? latest_edition existing)%Z then
    {| company_name := company_name existing;
       industry := backfill (industry existing) (c_industry c);
       stage := backfill (stage existing) (c_stage c);
       location := backfill (location existing) (c_location c);
       investors := investors existing;
       editions := editions existing;
       latest_edition := c_edition c;
       latest_date := c_date c;
       role_categories := role_categories existing;
       description := description existing |}
  else existing.

(** [existing['role_categories'].append(...)] under its guard. *)
Definition add_category (existing : company) (c : listing) : company :=
  match category_of c with
  | Some rc =>
      if in_list rc (role_categories existing) then existing
      else
        {| company_name := company_name existing;
           industry := industry existing;
           stage := stage existing;
           location := location existing;
           investors := investors existing;
           editions := editions existing;
           latest_edition := latest_edition existing;
           latest_date := latest_date existing;
           role_categories := role_categories existing ++ [rc];
           description := description existing |}
  | None => existing
  end.

(** The [else] branch: a later sighting of a stored company. *)
Definition merge (existing : company) (c : listing) : company :=
  add_category (promote (add_edition existing c) c) c.

(** The body of [for c in companies]. *)
Definition dedup_step (m : company_map) (c : listing) : company_map :=
  let key := company_key c in
  match lookup key m with
  | None => m ++ [(key, first_sighting c)]
  | Some existing => replace key (merge existing c) m
  end.

(** The identity map after the whole stream. *)
Definition build_map (companies : list listing) : company_map :=
  fold_left dedup_step companies [].

(** [result.sort(key=lambda x: x['latest_edition'], reverse=True)]: a stable
    sort, records of equal [latest_edition] keep their order. *)
Fixpoint insert_desc (x : company) (l : list company) : list company :=
  match l with
  | [] => [x]
  | y :: l' =>
      if (latest_edition y <=? latest_edition x)%Z then x :: l
      else y :: insert_desc x l'
  end.

Definition sort_desc (l : list company) : list company :=
  fold_right insert_desc [] l.

Definition deduplicate_companies (companies : list listing) : list company :=
  sort_desc (map snd (build_map companies)).

(** ** The location filter: [is_valid_location] (clean_data.py) *)

(** The reject patterns are literal texts with at most a character range,
    anchored or not. *)
Inductive atom :=
| Ch (c : ascii)
| Rng (lo hi : ascii).

Record pattern := {
  at_start : bool;
  body : list atom;
  at_end : bool
}.

Definition atom_matches (a : atom) (c : ascii) : bool :=
  match a with
  | Ch x => Ascii.eqb x c
  | Rng lo hi => between (code lo) (code hi) (code c)
  end.

(** The text left after [body] has matched at the head of [s]. *)
Fixpoint match_body (body : list atom) (s : str) : option str :=
  match body, s with
  | [], _ => Some s
  | a :: body', c :: s' =>
      if atom_matches a c then match_body body' s' else None
  | _ :: _, [] => None
  end.

(** [$] holds at the end of the string and before a line feed that ends it. *)
Definition at_dollar (rest : str) : bool :=
  match rest with
  | [] => true
  | "010"%char :: [] => true
  | _ => false
  end.

Definition match_here (p : pattern) (s : str) : bool :=
  match match_body (body p) s with
  | Some rest => if at_end p then at_dollar rest else true
  | None => false
  end.

Fixpoint match_anywhere (p : pattern) (s : str) : bool :=
  match_here p s ||
  match s with
  | [] => false
  | _ :: s' => match_anywhere p s'
  end.

(** [re.search(p, s)] as a condition. *)
Definition re_search (p : pattern) (s : str) : bool :=
  if at_start p then match_here p s else match_anywhere p s.

Definition text (s : string) : list atom := map Ch (lit s).

Definition anywhere (b : list atom) : pattern :=
  {| at_start := false; body := b; at_end := false |}.
Definition prefix (b : list atom) : pattern :=
  {| at_start := true; body := b; at_end := false |}.
Definition suffix (b : list atom) : pattern :=
  {| at_start := false; body := b; at_end := true |}.

(** [garbage_patterns] of [is_valid_location], in the order of the source. *)
Definition location_garbage_patterns : list pattern :=
  [ prefix (text ".");
    prefix (text "@");
    prefix (text "(");
    suffix (text "(");
    prefix (text "it was");
    prefix (text "she is");
    prefix (text "he is");
    anywhere (text "capital");
    anywhere (text "ventures");
    anywhere (text "partners");
    anywhere (text "collective");
    suffix (text "group");
    suffix (text "next");
    anywhere (text "fund");
    anywhere (text "respond to");
    anywhere (text "check out");
    prefix (text "and ");
    prefix (text "or ");
    anywhere (text "ceo ");
    anywhere (text "founder");
    anywhere (text "announcement");
    anywhere (text "how it works");
    anywhere (text "jobs!");
    anywhere (text "for grabs");
    anywhere (text "series " ++ [Rng "a" "f"]);
    suffix (text "stage");
    anywhere (text "seed");
    anywhere (text "acquired");
    anywhere (text "public)");
    anywhere (text "healthcare)");
    anywhere (text "fintech)");
    anywhere (text "saas)");
    anywhere (text "edtech)");
    anywhere (text "language learning");
    anywhere (text "contract)");
    anywhere (text "manager");
    anywhere (text "associate");
    anywhere (text "relations");
    anywhere (text "holdings");
    anywhere (text "institute");
    anywhere (text "company") ].

(** The loop over the reject patterns: [true] when none of them is found. *)
Definition passes_patterns (ps : list pattern) (s : str) : bool :=
  negb (existsb (fun p => re_search p s) ps).

Definition two_letter_allow_list : list str :=
  map lit ["SF"; "LA"; "NY"; "DC"; "UK"].

Definition is_valid_location (location : str) : bool :=
  if negb (truthy location) || (length location <? 2)%nat then false
  else
    let location_lower := lower location in
    if negb (passes_patterns location_garbage_patterns location_lower)
    then false
    else if (60 <? length location)%nat then false
    else if (length location =? 2)%nat
            && negb (in_list (upper location) two_letter_allow_list)
    then false
    else true.

(** ** The industry normalizer: [normalize_industry] (clean_data.py) *)

(** An occurrence of the word [w] between two word boundaries, [\bw\b];
    [prev_word] tells whether the character before the head of [s] is a word
    character.  [w] starts and ends with a word character. *)
Definition word_boundary_after (rest : str) : bool :=
  match rest with
  | [] => true
  | c :: _ => negb (isword c)
  end.

Fixpoint word_search_from (prev_word : bool) (w s : str) : bool :=
  (negb prev_word && startswith w s
   && word_boundary_after (skipn (length w) s))
  || match s with
     | [] => false
     | c :: s' => word_search_from (isword c) w s'
     end.

Definition word_search (w s : str) : bool := word_search_from false w s.

(** [re.search(r'\bai\b|artificial intelligence|machine learning|deep
    learning|llm|\bml\b|computer vision|nlp', s)]. *)
Definition ai_pattern (s : str) : bool :=
  word_search "ai" s
  || any_in (map lit ["artificial intelligence"; "machine learning";
                      "deep learning"; "llm"]) s
  || word_search "ml" s
  || any_in (map lit ["computer vision"; "nlp"]) s.

(** [startswith] without regard to case. *)
Fixpoint startswith_ci (p s : str) : bool :=
  match p, s with
  | [], _ => true
  | a :: p', b :: s' =>
      Ascii.eqb (lower_char a) (lower_char b) && startswith_ci p' s'
  | _ :: _, [] => false
  end.

(** [re.sub(r'\bw\b', w, s, flags=re.IGNORECASE)]: every occurrence of the
    word [w], in any case, is rewritten as [w]; [skip] counts the characters
    of an occurrence already rewritten. *)
Fixpoint sub_word_from (prev_word : bool) (skip : nat) (w s : str) : str :=
  match s with
  | [] => []
  | c :: s' =>
      match skip with
      | S k => sub_word_from (isword c) k w s'
      | O =>
          if negb prev_word && startswith_ci w s
             && word_boundary_after (skipn (length w) s)
          then w ++ sub_word_from (isword c) (length w - 1) w s'
          else c :: sub_word_from (isword c) 0 w s'
      end
  end.

Definition sub_word (w s : str) : str := sub_word_from false 0 w s.

(** The dictionary [mappings]; its keys are distinct. *)
Definition mappings : list (str * str) :=
  map (fun kv : string * string => (lit (fst kv), lit (snd kv)))
  [
    ("web3", "Web3");
    ("web 3", "Web3");
    ("blockchain", "Web3");
    ("blockchains", "Web3");
    ("crypto", "Web3");
    ("cryptocurrency", "Web3");
    ("nft", "Web3");
    ("dao", "Web3");
    ("saas", "SaaS");
    ("software", "SaaS");
    ("b2b saas", "SaaS");
    ("enterprise saas", "SaaS");
    ("enterprise software", "SaaS");
    ("software development", "Developer Tools");
    ("data", "Data");
    ("analytics", "Data");
    ("big data", "Data");
    ("data analytics", "Data");
    ("business intelligence", "Data");
    ("infrastructure", "Infrastructure");
    ("devtools", "Developer Tools");
    ("developer tools", "Developer Tools");
    ("dev tools", "Developer Tools");
    ("api", "Developer Tools");
    ("apis", "Developer Tools");
    ("robotics", "Robotics");
    ("hardware", "Hardware");
    ("iot", "Hardware");
    ("semiconductor", "Hardware");
    ("semiconductors", "Hardware");
    ("climate", "Climate");
    ("climate tech", "Climate");
    ("climatetech", "Climate");
    ("cleantech", "Climate");
    ("greentech", "Climate");
    ("sustainability", "Climate");
    ("energy", "Energy");
    ("marketplace", "E-commerce");
    ("marketplaces", "E-commerce");
    ("consumer", "Consumer");
    ("consumer goods", "Consumer");
    ("cpg", "Consumer");
    ("social", "Social Media");
    ("social media", "Social Media");
    ("social network", "Social Media");
    ("media", "Media");
    ("digital media", "Media");
    ("entertainment", "Media");
    ("gaming", "Gaming");
    ("games", "Gaming");
    ("esports", "Gaming");
    ("e-sports", "Gaming");
    ("sports", "Sports");
    ("food", "Food & Beverage");
    ("food tech", "Food & Beverage");
    ("foodtech", "Food & Beverage");
    ("agriculture", "Agriculture");
    ("agtech", "Agriculture");
    ("construction", "Manufacturing");
    ("manufacturing", "Manufacturing");
    ("automotive", "Automotive");
    ("electric vehicle", "Automotive");
    ("electric vehicles", "Automotive");
    ("ev", "Automotive");
    ("transportation", "Travel");
    ("mobility", "Travel");
    ("travel", "Travel");
    ("hospitality", "Travel");
    ("government", "Government");
    ("govtech", "Government");
    ("nonprofit", "Nonprofit");
    ("non-profit", "Nonprofit");
    ("venture capital", "VC");
    ("vc", "VC");
    ("venture fund", "VC");
    ("investing", "VC");
    ("investments", "VC");
    ("pet", "Consumer");
    ("pets", "Consumer");
    ("pet care", "Consumer");
    ("fashion", "Consumer");
    ("apparel", "Consumer");
    ("beauty", "Consumer");
    ("wellness", "Healthcare");
    ("fitness", "Healthcare");
    ("mental health", "Mental Health");
    ("dental", "Healthcare");
    ("veterinary", "Healthcare");
    ("legal", "Legal");
    ("legaltech", "Legal");
    ("sales", "SaaS");
    ("crm", "SaaS");
    ("database", "Data");
    ("databases", "Data");
    ("deeptech", "Hardware");
    ("deep tech", "Hardware");
    ("quantum computing", "Quantum Computing");
    ("quantum", "Quantum Computing");
    ("design", "Consumer");
    ("community", "Social Media");
    ("communities", "Social Media");
    ("messaging", "Social Media");
    ("dating", "Social Media");
    ("creator economy", "Media");
    ("enterprise", "SaaS");
    ("b2b", "SaaS");
    ("consulting", "Services");
    ("agency", "Services");
    ("services", "Services");
    ("operations", "SaaS");
    ("compliance", "SaaS");
    ("procurement", "SaaS");
    ("accounting", "SaaS");
    ("home services", "Services");
    ("home", "Consumer");
    ("internet", "SaaS");
    ("platform", "SaaS");
    ("tech", "SaaS");
    ("technology", "SaaS");
    ("information technology", "SaaS");
    ("it services", "SaaS");
    ("voice", "AI");
    ("speech", "AI");
    ("vr", "Hardware");
    ("ar", "Hardware");
    ("augmented reality", "Hardware");
    ("virtual reality", "Hardware");
    ("ar/vr", "Hardware");
    ("vr/xr", "Hardware");
    ("mobile", "SaaS");
    ("mobile apps", "SaaS");
    ("apps", "SaaS");
    ("website", "SaaS");
    ("websites", "SaaS");
    ("seed", "");
    ("pre-seed", "");
    ("pre seed", "");
    ("seed stage", "");
    ("seed-stage", "");
    ("series a", "");
    ("series b", "");
    ("series c", "");
    ("series d", "");
    ("series e", "");
    ("series f", "");
    ("series g", "");
    ("series h", "");
    ("early-stage", "");
    ("early stage", "");
    ("late-stage", "");
    ("late stage", "");
    ("later-stage", "");
    ("yc", "");
    ("y combinator", "");
    ("public", "");
    ("acquired", "");
    ("pe-backed", "");
    ("startup studio", "");
    ("accelerator", "");
    ("incubator", "");
    ("holding company", "");
    ("remote", "") ].

Fixpoint dict_get (key : str) (d : list (str * str)) : option str :=
  match d with
  | [] => None
  | (k, v) :: d' => if str_eqb key k then Some v else dict_get key d'
  end.

(** The result is [None] where the source returns [None]. *)
Definition normalize_industry (industry : str) : option str :=
  if negb (truthy industry) then Some industry else
  let industry := strip industry in
  let industry_lower := lower industry in
  let has (t : string) := str_in t industry_lower in
  let any (ts : list string) := any_in (map lit ts) industry_lower in
  if any ["health"; "medtech"; "medical"; "clinical"; "behavioral health";
          "wellness"; "fitness"; "hospital"; "pharma"; "therapeutic";
          "biopharma"; "drug development"] then
    if has "mental health" then Some (lit "Mental Health")
    else if has "dental" || has "dentis" then Some (lit "Healthcare")
    else if has "veterinary" || has "vet " then Some (lit "Healthcare")
    else Some (lit "Healthcare")
  else if ai_pattern industry_lower then
    if has "robot" then Some (lit "Robotics") else Some (lit "AI")
  else if any ["fintech"; "financial"; "banking"; "payment"; "wealth";
               "crypto"; "bitcoin"; "trading"; "investing"] then
    if has "crypto" || has "blockchain" || has "web3" || has "web 3"
    then Some (lit "Web3") else Some (lit "Fintech")
  else if any ["biotech"; "bio tech"; "life science"; "bioinformatics";
               "genetic"; "biopharm"] then Some (lit "Biotech")
  else if has "commerce" || has "retail" || has "marketplace"
  then Some (lit "E-commerce")
  else if has "edtech" || has "education" || has "e-learning"
          || has "learning"
  then Some (lit "Edtech")
  else if has "insur" then Some (lit "Insurtech")
  else if has "security" || has "cybersec" || str_eqb "cyber" industry_lower
  then Some (lit "Cybersecurity")
  else if has "marketing" || has "martech" || has "adtech"
          || has "advertising"
  then Some (lit "Marketing")
  else if any ["logistic"; "supply chain"; "shipping"; "delivery"; "fleet"]
  then Some (lit "Logistics")
  else if has "real estate" || has "proptech" || has "property"
  then Some (lit "Real Estate")
  else if any ["hrtech"; "hr tech"; "recruiting"; "recruitment"; "talent";
               "human resources"; "hiring"; "staffing"]
  then Some (lit "HRTech")
  else if has "legal" || has "legaltech" || has "law"
  then Some (lit "Legal")
  else if any ["climate"; "clean energy"; "cleantech"; "greentech";
               "renewable"; "solar"; "sustainable energy"]
  then Some (lit "Climate")
  else if has "energy" && negb (has "renewable") && negb (has "clean")
  then Some (lit "Energy")
  else if any ["food"; "restaurant"; "beverage"; "meal"; "catering";
               "grocery"]
  then Some (lit "Food & Beverage")
  else if any ["defense"; "aerospace"; "space"; "satellite"] then
    if has "space" || has "satellite" || has "aerospace"
    then Some (lit "Aerospace") else Some (lit "Defense")
  else if any ["travel"; "hospitality"; "hotel"; "ride"; "mobility";
               "transportation"]
  then Some (lit "Travel")
  else if any ["media"; "entertainment"; "video"; "streaming"; "content";
               "publishing"; "podcast"] then
    if has "gaming" || has "game" || has "esport" then Some (lit "Gaming")
    else if has "social" then Some (lit "Social Media")
    else Some (lit "Media")
  else if any ["developer"; "devtools"; "dev tools"; "devops"; "api"]
  then Some (lit "Developer Tools")
  else if any ["infrastructure"; "cloud"; "data center"; "datacenter";
               "edge computing"]
  then Some (lit "Infrastructure")
  else if any ["hardware"; "iot"; "semiconductor"; "electronics"; "sensor";
               "wearable"]
  then Some (lit "Hardware")
  else if has "automat" || has "robot" || has "autonomous" || has "drone"
  then Some (lit "Robotics")
  else if has "manufacturing" || has "construction" || has "industrial"
  then Some (lit "Manufacturing")
  else if has "government" || has "govtech" || has "civic"
          || str_eqb "public" industry_lower
  then Some (lit "Government")
  else if has "nonprofit" || has "non-profit" || has "philanthrop"
          || has "charity"
  then Some (lit "Nonprofit")
  else if has "agri" || has "agtech" || has "farm"
  then Some (lit "Agriculture")
  else if has "future of work" || has "collaboration" || has "productivity"
          || has "workflow"
  then Some (lit "Productivity")
  else if has "quantum" then Some (lit "Quantum Computing")
  else
    match dict_get industry_lower mappings with
    | Some normalized => if truthy normalized then Some normalized else None
    | None =>
        let industry := sub_word "AI" industry in
        let industry := sub_word "SaaS" industry in
        let industry := sub_word "Web3" industry in
        let industry := sub_word "B2B" industry in
        let industry := sub_word "B2C" industry in
        Some industry
    end.

(** ** The location normalizer: [normalize_location] (clean_data.py) *)

(** [re.sub(r'\s+', ' ', s)]; [in_run] tells whether the character before
    the head of [s] was whitespace. *)
Fixpoint collapse_from (in_run : bool) (s : str) : str :=
  match s with
  | [] => []
  | c :: s' =>
      if isspace c then
        if in_run then collapse_from true s'
        else " "%char :: collapse_from true s'
      else c :: collapse_from false s'
  end.

Definition collapse_spaces (s : str) : str := collapse_from false s.

(** [re.sub(r'\.$', '', s)]: the period that ends the string, or that stands
    before the line feed ending it. *)
Definition drop_final_period (s : str) : str :=
  match rev s with
  | "."%char :: r => rev r
  | "010"%char :: "."%char :: r => rev ("010"%char :: r)
  | _ => s
  end.

(** [re.sub(r'\s*,\s*$', '', s)]: the last comma, when only whitespace
    follows it, goes with the whitespace on both sides. *)
Definition drop_final_comma (s : str) : str :=
  match rev (rstrip s) with
  | ","%char :: r => rstrip (rev r)
  | _ => s
  end.

(** [re.sub(r'\(.*?\)', '', s)]: every parenthesis with the nearest closing
    one after it and what lies between, on one line. *)
Fixpoint remove_parens_from (skip : nat) (s : str) : str :=
  match s with
  | [] => []
  | c :: s' =>
      match skip with
      | S k => remove_parens_from k s'
      | O =>
          if Ascii.eqb c "(" then
            match break_at ")" s' with
            | Some (inner, _) =>
                if no_newline inner
                then remove_parens_from (length inner + 1) s'
                else c :: remove_parens_from 0 s'
            | None => c :: remove_parens_from 0 s'
            end
          else c :: remove_parens_from 0 s'
      end
  end.

Definition remove_parens (s : str) : str := remove_parens_from 0 s.

Definition sf_area : list str :=
  map lit
   ["sf"; "san francisco"; "sf bay area"; "bay area"; "palo alto";
    "menlo park"; "mountain view"; "san jose"; "san mateo"; "redwood city";
    "oakland"; "sunnyvale"; "santa clara"; "cupertino"; "fremont";
    "burlingame"; "san bruno"; "san carlos"; "foster city"; "daly city";
    "millbrae"; "berkeley"; "emeryville"; "alameda"; "hayward";
    "san leandro"; "milpitas"; "santa cruz"; "sausalito"; "scotts valley";
    "pleasanton"; "los altos"].

Definition nyc_area : list str :=
  map lit
   ["ny"; "nyc"; "new york"; "new york city"; "brooklyn"; "manhattan";
    "queens"; "jersey city"; "hoboken"; "williamsburg"; "secaucus"].

Definition la_area : list str :=
  map lit
   ["la"; "los angeles"; "santa monica"; "culver city"; "pasadena"; "venice";
    "playa vista"; "long beach"; "glendale"; "burbank"; "beverly hills";
    "west hollywood"; "el segundo"; "torrance"; "sherman oaks"; "costa mesa";
    "irvine"].

Definition boston_area : list str :=
  map lit
   ["boston"; "cambridge"; "somerville"; "waltham"; "needham"; "newton";
    "quincy"; "natick"; "woburn"].

Definition dc_area : list str :=
  map lit
   ["dc"; "washington"; "washington dc"; "mclean"; "bethesda"; "arlington";
    "alexandria"].

Definition denver_area : list str :=
  map lit
   ["denver"; "boulder"; "broomfield"; "arvada"; "englewood"].

Definition seattle_area : list str :=
  map lit
   ["seattle"; "bellevue"; "redmond"; "kirkland"; "everett"; "woodinville"].

Definition miami_area : list str :=
  map lit
   ["miami"; "fort lauderdale"; "boca raton"; "aventura"; "west palm beach";
    "plantation"].

Definition chicago_area : list str :=
  map lit
   ["chicago"; "evanston"; "oak park"].

(** The chain of [elif part_lower in ...] tests, in the order of the source:
    the aliases of a place and its tag. *)
Definition gazetteer : list (list str * str) :=
  [
    (sf_area, lit "SF");
    (nyc_area, lit "NYC");
    (la_area, lit "Los Angeles");
    (boston_area, lit "Boston");
    (dc_area, lit "DC");
    (denver_area, lit "Denver");
    (seattle_area, lit "Seattle");
    (miami_area, lit "Miami");
    (chicago_area, lit "Chicago");
    (map lit ["austin"], lit "Austin");
    (map lit ["atlanta"; "marietta"; "norcross"], lit "Atlanta");
    (map lit ["philadelphia"; "philly"], lit "Philadelphia");
    (map lit ["portland"], lit "Portland");
    (map lit ["phoenix"; "scottsdale"; "tempe"], lit "Phoenix");
    (map lit ["san diego"; "carlsbad"], lit "San Diego");
    (map lit ["dallas"; "plano"; "coppell"], lit "Dallas");
    (map lit ["houston"], lit "Houston");
    (map lit ["nashville"], lit "Nashville");
    (map lit ["salt lake city"; "lehi"; "provo"; "south jordan"; "lindon"],
     lit "Salt Lake City");
    (map lit ["raleigh"; "durham"; "morrisville"], lit "Raleigh");
    (map lit ["detroit"; "novi"; "troy"], lit "Detroit");
    (map lit ["minneapolis"], lit "Minneapolis");
    (map lit ["pittsburgh"], lit "Pittsburgh");
    (map lit ["columbus"], lit "Columbus");
    (map lit ["charlotte"], lit "Charlotte");
    (map lit ["baltimore"], lit "Baltimore");
    (map lit ["milwaukee"], lit "Milwaukee");
    (map lit ["st. louis"; "st louis"], lit "St. Louis");
    (map lit ["richmond"], lit "Richmond");
    (map lit ["omaha"], lit "Omaha");
    (map lit ["reno"; "sparks"], lit "Reno");
    (map lit ["toronto"], lit "Toronto");
    (map lit ["montreal"], lit "Montreal");
    (map lit ["vancouver"], lit "Vancouver");
    (map lit ["calgary"], lit "Calgary");
    (map lit ["ottawa"], lit "Ottawa");
    (map lit ["canada"; "canada)"], lit "Canada");
    (map lit ["london"], lit "London");
    (map lit ["paris"], lit "Paris");
    (map lit ["berlin"], lit "Berlin");
    (map lit ["singapore"], lit "Singapore");
    (map lit ["stockholm"], lit "Stockholm");
    (map lit ["dublin"; "ireland"], lit "Dublin");
    (map lit ["uk"; "united kingdom)"], lit "UK");
    (map lit ["australia"], lit "Australia") ].

Definition Remote : str := lit "Remote".

(** The first entry of the chain whose aliases hold [part_lower]. *)
Fixpoint gazetteer_find (table : list (list str * str)) (part_lower : str)
  : option str :=
  match table with
  | [] => None
  | (aliases, tag) :: table' =>
      if in_list part_lower aliases then Some tag
      else gazetteer_find table' part_lower
  end.

(** What one part appends to [normalized_parts]: a tag, or nothing. *)
Definition classify_location (part_lower : str) : option str :=
  let has (t : string) := str_in t part_lower in
  if has "remote" || has "anywhere" || has "global" || has "worldwide"
     || has "various"
  then Some Remote
  else if has "hybrid" then None
  else if has "us states" || has "multiple states"
          || str_eqb "united states" part_lower
  then Some Remote
  else if has "east coast" || has "west coast" then Some Remote
  else gazetteer_find gazetteer part_lower.

(** The clean-up of a part at the head of the loop body. *)
Definition clean_part (part : str) : str :=
  let part := strip (match split "," part with p :: _ => p | [] => [] end) in
  let part := strip (remove_parens part) in
  strip (collapse_spaces part).

(** The body of [for part in parts]. *)
Definition normalize_part (part : str) : option str :=
  let part := clean_part part in
  if negb (truthy part) || (30 <? length part)%nat then None
  else classify_location (lower part).

(** [normalized_parts] after the loop. *)
Fixpoint normalized_parts (parts : list str) : list str :=
  match parts with
  | [] => []
  | part :: parts' =>
      match normalize_part part with
      | Some tag => tag :: normalized_parts parts'
      | None => normalized_parts parts'
      end
  end.

(** The loop that removes duplicates and keeps the order; [seen] is the set
    of the source, [unique_parts] is returned. *)
Fixpoint unique_from (seen : list str) (parts : list str) : list str :=
  match parts with
  | [] => []
  | part :: parts' =>
      if truthy part && negb (in_list part seen)
      then part :: unique_from (part :: seen) parts'
      else unique_from seen parts'
  end.

Definition unique_parts (parts : list str) : list str := unique_from [] parts.

(** The clean-up of the whole string before it is split. *)
Definition clean_location (location : str) : str :=
  let location := strip location in
  let location := collapse_spaces location in
  let location := trim_slashes location in
  let location := drop_final_period location in
  drop_final_comma location.

Definition location_parts (location : str) : list str :=
  map strip (split "/" (clean_location location)).

Definition normalize_location (location : str) : str :=
  if negb (truthy location) then location else
  match unique_parts (normalized_parts (location_parts location)) with
  | [] => Remote
  | u => join " / " u
  end.

(** ** Vocabulary of the properties *)

(** The last element of [l] that satisfies [p]. *)
Fixpoint last_such (p : str -> bool) (l : list str) : option str :=
  match l with
  | [] => None
  | x :: l' =>
      match last_such p l' with
      | Some y => Some y
      | None => if p x then Some x else None
      end
  end.

(** A part the loop of [parse_job_line] takes for the stage, and one it
    takes for the investors. *)
Definition is_stage_part (part : str) : bool := has_stage_keyword (lower part).
Definition is_investors_part (part : str) : bool :=
  negb (has_stage_keyword (lower part)) && has_backed (lower part).

Definition or_empty (o : option str) : str :=
  match o with Some s => s | None => [] end.

(** Two listings of one company that carry one edition number. *)
Definition same_slot (a b : listing) : Prop :=
  company_key a = company_key b /\ c_edition a = c_edition b.

(** What two records share when they differ by the order of such listings. *)
Definition same_editions (r1 r2 : company) : Prop :=
  editions r1 = editions r2
  /\ latest_edition r1 = latest_edition r2
  /\ Permutation (role_categories r1) (role_categories r2).

Definition related (o1 o2 : option company) : Prop :=
  match o1, o2 with
  | Some r1, Some r2 => same_editions r1 r2
  | None, None => True
  | _, _ => False
  end.

(** [max(l)] of a list of integers, [None] on the empty list. *)
Definition max_edition (l : list Z) : option Z :=
  match l with
  | [] => None
  | e :: l' => Some (fold_left Z.max l' e)
  end.

(** The invariant of a stored record. *)
Definition latest_is_max (r : company) : Prop :=
  max_edition (editions r) = Some (latest_edition r).

(** The fields a sighting of an older edition leaves alone. *)
Definition same_identity (r1 r2 : company) : Prop :=
  company_name r1 = company_name r2
  /\ industry r1 = industry r2
  /\ stage r1 = stage r2
  /\ location r1 = location r2
  /\ investors r1 = investors r2
  /\ latest_edition r1 = latest_edition r2
  /\ latest_date r1 = latest_date r2
  /\ description r1 = description r2.

(** The record a key has after one turn of the loop. *)
Definition step_record (m : company_map) (c : listing) : company :=
  match lookup (company_key c) m with
  | None => first_sighting c
  | Some existing => merge existing c
  end.

(** Both options empty, or both records with the same editions. *)
Definition same_editions_opt (o1 o2 : option company) : Prop :=
  match o1, o2 with
  | Some r1, Some r2 =>
      editions r1 = editions r2 /\ latest_edition r1 = latest_edition r2
  | None, None => True
  | _, _ => False
  end.

(** Sample listings: one company seen in editions 5 and 12. *)
Definition sighting (name ind loc : string) (e : Z) (d : string)
           (rc : option string) : listing :=
  {| c_company := name;
     c_industry := ind;
     c_stage := "";
     c_location := loc;
     c_investors := "";
     c_edition := e;
     c_date := d;
     c_role_category := option_map lit rc |}.

Definition acme_5 : listing :=
  sighting "Acme Health" "Healthcare" "SF" 5 "Jan 8, 2024" (Some "BizOps").
Definition acme_5_again : listing :=
  sighting "Acme Health" "Healthcare" "NYC" 5 "Jan 8, 2024" (Some "VC").
Definition acme_12 : listing :=
  sighting "Acme Health" "Healthcare" "SF" 12 "Mar 4, 2024" None.
Definition blank_0 : listing :=
  sighting "  " "Healthcare" "SF" 0 "" None.

(** The 256 characters. *)
Definition all_ascii : list ascii := map ascii_of_nat (seq 0 256).

(** The tags the family rules of [normalize_industry] return, and with the
    non-empty values of [mappings] the canonical taxonomy. *)
Definition family_tags : list str :=
  map lit ["Mental Health"; "Healthcare"; "Robotics"; "AI"; "Web3";
           "Fintech"; "Biotech"; "E-commerce"; "Edtech"; "Insurtech";
           "Cybersecurity"; "Marketing"; "Logistics"; "Real Estate";
           "HRTech"; "Legal"; "Climate"; "Energy"; "Food & Beverage";
           "Aerospace"; "Defense"; "Travel"; "Gaming"; "Social Media";
           "Media"; "Developer Tools"; "Infrastructure"; "Hardware";
           "Manufacturing"; "Government"; "Nonprofit"; "Agriculture";
           "Productivity"; "Quantum Computing"].

Definition industry_tags : list str :=
  family_tags ++ filter truthy (map snd mappings).

(** The gazetteer output set, with ["Remote"]. *)
Definition location_tags : list str := Remote :: map snd gazetteer.

Definition no_slash (s : str) : bool :=
  forallb (fun c => negb (Ascii.eqb c "/")) s.

(** Whether the text [s], read after a character of status [b], ends on
    whitespace. *)
Definition ends_in_space (b : bool) (s : str) : bool :=
  fold_left (fun _ c => isspace c) s b.

Definition first_ok (s : str) : bool :=
  match s with
  | c :: _ => negb (slash_or_space c)
  | [] => false
  end.

Definition final_char_ok (c : ascii) : bool :=
  negb (isspace c) && negb (Ascii.eqb c "/") && negb (Ascii.eqb c ".")
  && negb (Ascii.eqb c ",").

Definition last_ok (s : str) : bool :=
  match rev s with
  | c :: _ => final_char_ok c
  | [] => false
  end.

(** What makes a tag come back unchanged from [normalize_location]. *)
Definition tag_ok (t : str) : bool :=
  first_ok t && last_ok t && no_slash t
  && negb (ends_in_space false t)
  && str_eqb (collapse_spaces t) t
  && str_eqb (strip t) t
  && str_eqb (strip (t ++ " ")) t
  && str_eqb (strip (" " ++ t)) t
  && str_eqb (strip (" " ++ t ++ " ")) t
  && match normalize_part t with
     | Some t' => str_eqb t' t
     | None => false
     end.

(** The pieces of [pre ++ join " / " ts] between its slashes. *)
Fixpoint pieces (pre : str) (ts : list str) : list str :=
  match ts with
  | [] => []
  | t :: ts' =>
      match ts' with
      | [] => [pre ++ t]
      | _ :: _ => (pre ++ t ++ " ") :: pieces " " ts'
      end
  end.

(** ** Vocabulary of the further properties *)

(** Descending order of [latest_edition]. *)
Definition newer_or_equal (a b : company) : Prop :=
  (latest_edition b <= latest_edition a)%Z.

Definition has_latest (e : Z) (r : company) : bool :=
  (latest_edition r =? e)%Z.

(** The distinct keys of a sequence, each at its first occurrence. *)
Definition distinct_first (keys : list str) : list str :=
  fold_left (fun acc k => if in_list k acc then acc else acc ++ [k]) keys [].

(** [l] with something appended. *)
Definition extends {A : Type} (l l' : list A) : Prop :=
  exists more, l' = l ++ more.

(** What every later state of a record keeps of an earlier one. *)
Definition grows (r r' : company) : Prop :=
  company_name r' = company_name r
  /\ investors r' = investors r
  /\ description r' = description r
  /\ extends (editions r) (editions r')
  /\ extends (role_categories r) (role_categories r')
  /\ (latest_edition r <= latest_edition r')%Z.

(** A field that holds a value keeps it. *)
Definition keeps_populated (r r' : company) : Prop :=
  (industry r <> [] -> industry r' = industry r)
  /\ (stage r <> [] -> stage r' = stage r)
  /\ (location r <> [] -> location r' = location r).

(** The first listing of a stream that satisfies [p]. *)
Definition first_listing (p : listing -> bool) (cs : list listing)
  : option listing := find p cs.

Definition has_key (k : str) (c : listing) : bool := str_eqb (company_key c) k.

Definition has_key_and_edition (k : str) (e : Z) (c : listing) : bool :=
  str_eqb (company_key c) k && (c_edition c =? e)%Z.


(** What holds of every stored record besides the maximum. *)
Definition well_formed (r : company) : Prop :=
  editions r <> []
  /\ NoDup (editions r)
  /\ NoDup (role_categories r)
  /\ Forall (fun rc => truthy rc = true) (role_categories r)
  /\ description r = [].


(** The aliases of the gazetteer, each with the tag of its entry. *)
Definition alias_pairs : list (str * str) :=
  flat_map (fun e => map (fun a => (a, snd e)) (fst e)) gazetteer.

(** What a value of [mappings] stands for: a tag, or a record to drop. *)
Definition mapped_result (v : str) : option str :=
  if truthy v then Some v else None.

Definition option_str_eqb (a b : option str) : bool :=
  match a, b with
  | Some x, Some y => str_eqb x y
  | None, None => true
  | _, _ => false
  end.

(** The keys of [mappings] that a family rule takes before the table is
    consulted, with what they become. *)
Definition shadowed_keys : list (str * str) :=
  map (fun kv : string * string => (lit (fst kv), lit (snd kv)))
      [("hospitality", "Healthcare");
       ("venture capital", "Developer Tools");
       ("investing", "Fintech");
       ("public", "Government")].

(** The last branch of [normalize_industry]. *)
Definition pass_through (industry : str) : str :=
  sub_word "B2C" (sub_word "B2B" (sub_word "Web3"
    (sub_word "SaaS" (sub_word "AI" industry)))).


Definition first_char (s : str) : option ascii := hd_error s.
Definition last_char (s : str) : option ascii := hd_error (rev s).

(** The character [c] does not occur in [s]. *)
Definition has_no (c : ascii) (s : str) : bool :=
  forallb (fun x => negb (Ascii.eqb x c)) s.

(** A listing line written out from its four parts. *)
Definition format_listing (title company details location : str) : str :=
  title ++ ", " ++ company ++ " (" ++ details ++ "), " ++ location.

(** The three fields read from the details. *)
Definition details_fields (p : parsed) : str * str * str :=
  (p_industry p, p_stage p, p_investors p).


(** ** The section tracker: [parse_edition_html] (build_data.py) *)

(** The heading tests of the scan, on the lower-cased line. *)
Definition heading_of (lower_line : str) : option str :=
  if str_in "chief of staff" lower_line && str_in "role" lower_line
  then Some (lit "Chief of Staff")
  else if str_in "bizops" lower_line && str_in "role" lower_line
  then Some (lit "BizOps")
  else if str_in "vc" lower_line && str_in "role" lower_line
  then Some (lit "VC")
  else None.

(** The parsed record with the three keys the scan adds.  The dictionary
    of the source keeps its [job_title] key, which nothing reads later. *)
Definition listing_of (p : parsed) (edition_num : Z) (date : str)
           (current_category : option str) : listing :=
  {| c_company := p_company p;
     c_industry := p_industry p;
     c_stage := p_stage p;
     c_location := p_location p;
     c_investors := p_investors p;
     c_edition := edition_num;
     c_date := date;
     c_role_category := current_category |}.

(** The loop [for line in lines], with [current_category] as its state. *)
Fixpoint scan_lines (edition_num : Z) (date : str)
         (current_category : option str) (lines : list str) : list listing :=
  match lines with
  | [] => []
  | line :: rest =>
      let line := strip line in
      if negb (truthy line)
      then scan_lines edition_num date current_category rest
      else
        match heading_of (lower line) with
        | Some category => scan_lines edition_num date (Some category) rest
        | None =>
            match BuildData.parse_job_line line with
            | Some p =>
                listing_of p edition_num date current_category
                :: scan_lines edition_num date current_category rest
            | None => scan_lines edition_num date current_category rest
            end
        end
  end.

Definition parse_edition_html (html : str) (edition_num : Z) (date : str)
  : list listing :=
  scan_lines edition_num date None (split "010" html).

(** [current_category] after the lines have been scanned. *)
Fixpoint category_after (current_category : option str) (lines : list str)
  : option str :=
  match lines with
  | [] => current_category
  | line :: rest =>
      let line := strip line in
      if negb (truthy line) then category_after current_category rest
      else
        match heading_of (lower line) with
        | Some category => category_after (Some category) rest
        | None => category_after current_category rest
        end
  end.

(** A line that the scan takes for a heading. *)
Definition is_heading (line : str) : bool :=
  truthy (strip line)
  && match heading_of (lower (strip line)) with
     | Some _ => true
     | None => false
     end.

Definition role_headings : list str :=
  map lit ["Chief of Staff"; "BizOps"; "VC"].

(** The raw edition files of [main]: number, text and date of each. *)
Definition all_listings (files : list (Z * str * str)) : list listing :=
  flat_map (fun f => parse_edition_html (snd (fst f)) (fst (fst f)) (snd f))
           files.

(** ** The other filters: [is_valid_industry], [is_valid_company]
    (clean_data.py) *)

(** Character classes and the regular expressions of the reject lists. *)
Inductive char_class :=
| Lit (c : ascii)
| Range (lo hi : ascii)
| Digit
| Space
| Dot.

Inductive regex :=
| Eps
| One (k : char_class)
| Cat (a b : regex)
| Alt (a b : regex)
| Opt (a : regex)
| Plus (k : char_class).

(** [ignore_case] is the flag [re.IGNORECASE]; the patterns tried under it
    hold no range. *)
Definition class_matches (ignore_case : bool) (k : char_class) (c : ascii)
  : bool :=
  match k with
  | Lit x =>
      if ignore_case then Ascii.eqb (lower_char x) (lower_char c)
      else Ascii.eqb x c
  | Range lo hi => between (code lo) (code hi) (code c)
  | Digit => isdigit c
  | Space => isspace c
  | Dot => negb (Ascii.eqb c "010")
  end.

(** The texts left after one or more characters of the class. *)
Fixpoint plus_rests (ignore_case : bool) (k : char_class) (s : str)
  : list str :=
  match s with
  | [] => []
  | c :: s' =>
      if class_matches ignore_case k c
      then s' :: plus_rests ignore_case k s'
      else []
  end.

(** Every text that can be left after the expression has matched at the
    head of [s]. *)
Fixpoint rests (ignore_case : bool) (r : regex) (s : str) : list str :=
  match r with
  | Eps => [s]
  | One k =>
      match s with
      | c :: s' => if class_matches ignore_case k c then [s'] else []
      | [] => []
      end
  | Cat a b => flat_map (rests ignore_case b) (rests ignore_case a s)
  | Alt a b => rests ignore_case a s ++ rests ignore_case b s
  | Opt a => rests ignore_case a s ++ [s]
  | Plus k => plus_rests ignore_case k s
  end.

Record anchored := {
  from_start : bool;
  expr : regex;
  to_end : bool
}.

Definition matches_here (ignore_case : bool) (p : anchored) (s : str) : bool :=
  existsb (fun rest => if to_end p then at_dollar rest else true)
          (rests ignore_case (expr p) s).

Fixpoint matches_anywhere (ignore_case : bool) (p : anchored) (s : str)
  : bool :=
  matches_here ignore_case p s ||
  match s with
  | [] => false
  | _ :: s' => matches_anywhere ignore_case p s'
  end.

(** [re.search(p, s)], or [re.search(p, s, re.IGNORECASE)], as a
    condition. *)
Definition search (ignore_case : bool) (p : anchored) (s : str) : bool :=
  if from_start p then matches_here ignore_case p s
  else matches_anywhere ignore_case p s.

Fixpoint word (s : str) : regex :=
  match s with
  | [] => Eps
  | c :: s' => Cat (One (Lit c)) (word s')
  end.

Definition found (r : regex) : anchored :=
  {| from_start := false; expr := r; to_end := false |}.
Definition starting (r : regex) : anchored :=
  {| from_start := true; expr := r; to_end := false |}.
Definition ending (r : regex) : anchored :=
  {| from_start := false; expr := r; to_end := true |}.
Definition whole (r : regex) : anchored :=
  {| from_start := true; expr := r; to_end := true |}.

Definition four_digits : regex :=
  Cat (One Digit) (Cat (One Digit) (Cat (One Digit) (One Digit))).

(** [garbage_patterns] of [is_valid_industry], in the order of the
    source. *)
Definition industry_garbage_patterns : list anchored :=
  [ whole four_digits;
    starting (word "@");
    starting (word "it was");
    starting (word "she is");
    starting (word "he is");
    starting (word "up to");
    starting (word "applications");
    starting (Cat (word "I ") (Alt (word "added") (word "invest")));
    starting (word "backed by");
    starting (word "(");
    whole (word ".");
    starting (word "h/t ");
    found (word "respond to");
    found (word "check out");
    found (Cat (word "acq") (Cat (Plus Space) (word "by")));
    found (word "acquired by");
    found (word "acq.");
    found (word "just raised");
    found (word "raised $");
    found (Cat (word "series ") (One (Range "a" "h")));
    found (Cat (word "seed") (Cat (Opt (One Dot)) (word "stage")));
    found (Cat (word "pre") (Cat (Opt (One Dot)) (word "seed")));
    found (word "yc/");
    found (word "hiring for");
    found (word "backgrounds welcome");
    found (word "always free");
    found (word "preferred");
    found (Cat (word "'s ") (Cat (Opt (word "new ")) (word "fund")));
    found (Cat (word "'s ")
               (Alt (word "chocolate")
                    (Alt (word "aerospace") (word "social impact"))));
    found (word "spin-off");
    found (word "division");
    found (word "unit within");
    found (word "arm of");
    found (word "incubation");
    found (word "new body");
    found (word "make binding");
    ending (word "venture fund");
    starting (word "holding company");
    starting (word "startup studio");
    whole (word "accelerator");
    whole (word "incubator");
    found (word "fka ");
    found (word "former ");
    found (word "fund led by");
    whole (word "era");
    whole (word "wil");
    whole (word "iqt");
    whole (word "czi");
    whole (word "scf");
    whole (word "usdr");
    found (word "nonprofit that provides");
    found (word "company covering the") ].

Definition is_valid_industry (industry : str) : bool :=
  if negb (truthy industry) || (length industry <? 2)%nat then false
  else
    let industry_lower := lower industry in
    if existsb (fun p => search false p industry_lower)
               industry_garbage_patterns
    then false
    else if (50 <? length industry)%nat then false
    else true.

(** [garbage_patterns] of [is_valid_company]. *)
Definition company_garbage_patterns : list anchored :=
  [ starting (word "@");
    whole four_digits;
    starting (word "it was");
    starting (word "she is");
    starting (word "he is");
    found (word "respond to this email");
    found (word "check out my friend");
    found (word "hosted earlier");
    found (word "which teaches") ].

Definition is_valid_company (company : str) : bool :=
  if negb (truthy company) || (length company <? 2)%nat then false
  else if existsb (fun p => search true p company) company_garbage_patterns
  then false
  else true.

(** ** The cleaning pass: [clean_companies_data] (clean_data.py) *)

(** The three filters and the two normalizers on one record: the record as
    it is kept, or [None] where [removed_invalid] is counted. *)
Definition clean_record (c : company) : option company :=
  if negb (is_valid_company (company_name c)) then None
  else if negb (is_valid_industry (industry c)) then None
  else if negb (is_valid_location (location c)) then None
  else
    match normalize_industry (industry c) with
    | Some normalized =>
        if truthy normalized then
          Some {| company_name := company_name c;
                  industry := normalized;
                  stage := stage c;
                  location := normalize_location (location c);
                  investors := investors c;
                  editions := editions c;
                  latest_edition := latest_edition c;
                  latest_date := latest_date c;
                  role_categories := role_categories c;
                  description := description c |}
        else None
    | None => None
    end.

(** The key of [seen_companies]. *)
Definition seen_key (c : company) : str * Z :=
  (lower (company_name c), latest_edition c).

Definition key_eqb (a b : str * Z) : bool :=
  str_eqb (fst a) (fst b) && (snd a =? snd b)%Z.

Record cleaning := {
  cleaned_companies : list company;
  removed_invalid : nat;
  removed_duplicates : nat
}.

(** The loop [for company in data['companies']]; [seen] holds the keys of
    [seen_companies]. *)
Fixpoint clean_loop (seen : list (str * Z)) (companies : list company)
  : cleaning :=
  match companies with
  | [] => {| cleaned_companies := []; removed_invalid := 0;
             removed_duplicates := 0 |}
  | company :: rest =>
      match clean_record company with
      | None =>
          let r := clean_loop seen rest in
          {| cleaned_companies := cleaned_companies r;
             removed_invalid := S (removed_invalid r);
             removed_duplicates := removed_duplicates r |}
      | Some cleaned =>
          if existsb (key_eqb (seen_key cleaned)) seen then
            let r := clean_loop seen rest in
            {| cleaned_companies := cleaned_companies r;
               removed_invalid := removed_invalid r;
               removed_duplicates := S (removed_duplicates r) |}
          else
            let r := clean_loop (seen_key cleaned :: seen) rest in
            {| cleaned_companies := cleaned :: cleaned_companies r;
               removed_invalid := removed_invalid r;
               removed_duplicates := removed_duplicates r |}
      end
  end.

Definition clean_companies_data (companies : list company) : cleaning :=
  clean_loop [] companies.


(** A sample edition of two lines, a heading and a listing. *)
Definition sample_html : str :=
  lit "BizOps roles" ++ ["010"%char]
      ++ lit "Senior PM, Acme Health (Healthcare, Series B), SF".

Definition sample_files : list (Z * str * str) :=
  [(12%Z, sample_html, lit "Mar 4, 2024")].


(** The reject pattern [^I (added|invest)] of [is_valid_industry]. *)
Definition first_person_pattern : anchored :=
  starting (Cat (word "I ") (Alt (word "added") (word "invest"))).

(** A raw record as the cleaning pass may read it. *)
Definition raw_acme : company :=
  {| company_name := "Acme Health"; industry := "Digital Health";
     stage := "Series B"; location := "Palo Alto, CA / Remote";
     investors := ""; editions := [5%Z; 12%Z]; latest_edition := 12%Z;
     latest_date := "Mar 4, 2024"; role_categories := map lit ["BizOps"];
     description := "" |}.

(** A text of ASCII characters only.  On such a text the primitives of
    [Py] are those of the source character for character. *)
Definition ascii_only (s : str) : bool :=
  forallb (fun c => (code c <? 128)%nat) s.

(** * Properties *)

(** ** Strings *)

Lemma str_eqb_refl (a : str) : str_eqb a a = true.
Proof.
  induction a as [|x a IH]; simpl; [reflexivity|].
  now rewrite Ascii.eqb_refl, IH.
Qed.

Lemma str_eqb_eq (a b : str) : str_eqb a b = true <-> a = b.
Proof.
  split.
  - revert b; induction a as [|x a IH]; intros [|y b] H; simpl in H;
      try discriminate; [reflexivity|].
    apply andb_prop in H as [Hx Hab].
    apply Ascii.eqb_eq in Hx. apply IH in Hab. now subst.
  - intros ->. apply str_eqb_refl.
Qed.

Lemma str_eqb_neq (a b : str) : str_eqb a b = false <-> a <> b.
Proof.
  split.
  - intros H E. apply str_eqb_eq in E. congruence.
  - intros H. destruct (str_eqb a b) eqn:E; [|reflexivity].
    apply str_eqb_eq in E. contradiction.
Qed.

Lemma str_eqb_sym (a b : str) : str_eqb a b = str_eqb b a.
Proof.
  destruct (str_eqb a b) eqn:E.
  - apply str_eqb_eq in E. subst. symmetry. apply str_eqb_refl.
  - symmetry. apply str_eqb_neq. apply str_eqb_neq in E. congruence.
Qed.

Lemma in_list_In (x : str) (l : list str) : in_list x l = true <-> In x l.
Proof.
  unfold in_list. rewrite existsb_exists. split.
  - intros [y [Hy E]]. apply str_eqb_eq in E. now subst.
  - intros H. exists x. split; [assumption|apply str_eqb_refl].
Qed.

Lemma in_list_not_In (x : str) (l : list str) :
  in_list x l = false <-> ~ In x l.
Proof.
  rewrite <- in_list_In. destruct (in_list x l); split; intros; congruence.
Qed.

Lemma drop_while_idem (p : ascii -> bool) (s : str) :
  drop_while p (drop_while p s) = drop_while p s.
Proof.
  induction s as [|c s IH]; simpl; [reflexivity|].
  destruct (p c) eqn:E; [assumption|]. simpl. now rewrite E.
Qed.

Lemma drop_while_snoc (p : ascii -> bool) (s : str) (c : ascii) :
  p c = false -> drop_while p (s ++ [c]) = drop_while p s ++ [c].
Proof.
  intros Hc. induction s as [|x s IH]; simpl.
  - now rewrite Hc.
  - destruct (p x); [assumption|reflexivity].
Qed.

(** [drop_while_end] leaves a text alone that starts with a character
    outside the class, up to that character. *)
Lemma drop_while_end_cons (p : ascii -> bool) (c : ascii) (s : str) :
  p c = false -> drop_while_end p (c :: s) = c :: drop_while_end p s.
Proof.
  intros Hc. unfold drop_while_end. simpl.
  rewrite drop_while_snoc by assumption.
  now rewrite rev_app_distr.
Qed.

Lemma drop_while_end_idem (p : ascii -> bool) (s : str) :
  drop_while_end p (drop_while_end p s) = drop_while_end p s.
Proof.
  unfold drop_while_end. now rewrite rev_involutive, drop_while_idem.
Qed.

Lemma drop_while_end_last (p : ascii -> bool) (s r : str) (c : ascii) :
  rev s = c :: r -> p c = false -> drop_while_end p s = s.
Proof.
  intros Hr Hc. unfold drop_while_end. rewrite Hr. simpl. rewrite Hc.
  rewrite <- Hr. apply rev_involutive.
Qed.

Lemma drop_while_head (p : ascii -> bool) (s : str) :
  match drop_while p s with
  | [] => True
  | c :: _ => p c = false
  end.
Proof.
  induction s as [|c s IH]; simpl; [exact I|].
  destruct (p c) eqn:E; [assumption|exact E].
Qed.

Lemma lstrip_rstrip_lstrip (s : str) :
  lstrip (rstrip (lstrip s)) = rstrip (lstrip s).
Proof.
  unfold lstrip, rstrip.
  pose proof (drop_while_head isspace s) as H.
  destruct (drop_while isspace s) as [|c t]; [reflexivity|].
  rewrite drop_while_end_cons by assumption.
  simpl. now rewrite H.
Qed.

Lemma strip_idem (s : str) : strip (strip s) = strip s.
Proof.
  unfold strip. rewrite lstrip_rstrip_lstrip.
  unfold rstrip. apply drop_while_end_idem.
Qed.

Lemma strip_nil : strip [] = [].
Proof. reflexivity. Qed.

(** ** The line parser *)

Lemma details_parts_stripped (details part : str) :
  In part (details_parts details) -> strip part = part.
Proof.
  unfold details_parts. rewrite in_map_iff.
  intros [x [<- _]]. apply strip_idem.
Qed.

(** The loop keeps, for each field, the last part that qualifies. *)
Lemma classify_loop_last (parts : list str) (acc : str * str) :
  fold_left classify_part parts acc =
  (match last_such is_stage_part parts with
   | Some p => strip p
   | None => fst acc
   end,
   match last_such is_investors_part parts with
   | Some p => strip p
   | None => snd acc
   end).
Proof.
  revert acc. induction parts as [|x parts IH]; intros [st inv]; simpl.
  - reflexivity.
  - rewrite IH. unfold classify_part, is_stage_part, is_investors_part.
    destruct (last_such _ parts), (last_such _ parts);
      destruct (has_stage_keyword (lower x)), (has_backed (lower x));
      reflexivity.
Qed.

Lemma last_such_In (p : str -> bool) (l : list str) (x : str) :
  last_such p l = Some x -> In x l /\ p x = true.
Proof.
  induction l as [|y l IH]; simpl; [discriminate|].
  destruct (last_such p l) as [z|].
  - intros E. injection E as ->. destruct IH as [H1 H2]; auto.
  - destruct (p y) eqn:Hy; [|discriminate].
    intros E. injection E as ->. auto.
Qed.

(** C1, as amended.  For every details string, the industry is the first
    part; the stage is the LAST part after the first that holds a funding or
    stage keyword, and the investors field is the LAST part after the first
    that holds "backed" and no such keyword; earlier parts that qualify are
    overwritten, and a field with no part is empty. *)
Theorem C1_last_match_wins (details : str) :
  parse_details details =
    (hd [] (details_parts details),
     or_empty (last_such is_stage_part (tl (details_parts details))),
     or_empty (last_such is_investors_part (tl (details_parts details)))).
Proof.
  unfold parse_details.
  pose proof (details_parts_stripped details) as Hs.
  destruct (details_parts details) as [|p parts]; [reflexivity|].
  cbn [tl hd]. rewrite classify_loop_last. cbn [fst snd].
  assert (Hp : strip p = p) by (apply Hs; now left).
  assert (Ht : forall q (x : str),
             last_such q parts = Some x -> strip (strip x) = x).
  { intros q x Hx. apply last_such_In in Hx as [Hin _].
    rewrite strip_idem. apply Hs. now right. }
  rewrite Hp.
  destruct (last_such is_stage_part parts) as [x|] eqn:Ex;
    destruct (last_such is_investors_part parts) as [y|] eqn:Ey;
    cbn [or_empty]; rewrite ?strip_nil;
    try rewrite (Ht _ _ Ex); try rewrite (Ht _ _ Ey); reflexivity.
Qed.

(** C1, as stated, fails: with two parts that hold a stage keyword the stage
    is the second, not the first, in both copies of [parse_job_line]; and
    with two parts that hold "backed" the investors are the second. *)
Lemma C1_counterexample :
  tl (details_parts "Healthcare, Series B, Seed") = map lit ["Series B"; "Seed"]
  /\ is_stage_part "Series B" = true
  /\ is_stage_part "Seed" = true
  /\ option_map p_stage
       (Scraper.parse_job_line
          "Senior PM, Acme Health (Healthcare, Series B, Seed), SF")
     = Some (lit "Seed")
  /\ option_map p_stage
       (BuildData.parse_job_line
          "Senior PM, Acme Health (Healthcare, Series B, Seed), SF")
     = Some (lit "Seed")
  /\ option_map p_investors
       (Scraper.parse_job_line
          "Senior PM, Acme Health (Healthcare, YC backed, a16z backed), SF")
     = Some (lit "a16z backed")
  /\ option_map p_investors
       (BuildData.parse_job_line
          "Senior PM, Acme Health (Healthcare, YC backed, a16z backed), SF")
     = Some (lit "a16z backed").
Proof. vm_compute. repeat split; reflexivity. Qed.

(** A turn of the loop on a part that holds a funding or stage keyword sets
    the stage to the part and leaves the investors as they were, whether
    the part holds "backed" or not. *)
Lemma classify_part_stage_first (acc : str * str) (part : str) :
  has_stage_keyword (lower part) = true ->
  classify_part acc part = (strip part, snd acc).
Proof.
  intros Hs. unfold classify_part. now rewrite Hs.
Qed.

(** With such a part and no other that holds "backed", a whole line leaves
    the investors empty. *)
Example stage_and_backed_line :
  option_map (fun p => (p_stage p, p_investors p))
    (Scraper.parse_job_line
       "Senior PM, Acme Health (Healthcare, YC-backed Seed), SF")
  = Some (lit "YC-backed Seed", lit "").
Proof. vm_compute. reflexivity. Qed.

(** ** The merger *)

Lemma lookup_app (k key : str) (v : company) (m : company_map) :
  lookup k (m ++ [(key, v)]) =
  match lookup k m with
  | Some r => Some r
  | None => if str_eqb k key then Some v else None
  end.
Proof.
  induction m as [|[k' w] m IH]; simpl; [reflexivity|].
  destruct (str_eqb k k'); [reflexivity|assumption].
Qed.

Lemma lookup_replace (k key : str) (v : company) (m : company_map) :
  lookup k (replace key v m) =
  if str_eqb k key
  then match lookup key m with Some _ => Some v | None => None end
  else lookup k m.
Proof.
  induction m as [|[k' w] m IH]; simpl.
  - now destruct (str_eqb k key).
  - destruct (str_eqb key k') eqn:E1; simpl.
    + apply str_eqb_eq in E1. subst k'.
      destruct (str_eqb k key); reflexivity.
    + destruct (str_eqb k k') eqn:E2.
      * apply str_eqb_eq in E2. subst k'.
        now rewrite (str_eqb_sym k key), E1.
      * assumption.
Qed.

(** After a turn of the loop the key of the listing has its record, and
    every other key has the record it had. *)
Lemma lookup_dedup_step (m : company_map) (c : listing) (k : str) :
  lookup k (dedup_step m c) =
  if str_eqb k (company_key c) then Some (step_record m c) else lookup k m.
Proof.
  unfold dedup_step, step_record.
  destruct (lookup (company_key c) m) as [existing|] eqn:E.
  - rewrite lookup_replace, E. reflexivity.
  - rewrite lookup_app.
    destruct (str_eqb k (company_key c)) eqn:Ek.
    + apply str_eqb_eq in Ek. subst k. now rewrite E.
    + now destruct (lookup k m).
Qed.

Lemma build_map_snoc (cs : list listing) (c : listing) :
  build_map (cs ++ [c]) = dedup_step (build_map cs) c.
Proof. unfold build_map. now rewrite fold_left_app. Qed.

Lemma lookup_In (k : str) (m : company_map) (r : company) :
  lookup k m = Some r -> In (k, r) m.
Proof.
  induction m as [|[k' w] m IH]; simpl; [discriminate|].
  destruct (str_eqb k k') eqn:E.
  - apply str_eqb_eq in E. intros H. injection H as ->. subst. now left.
  - intros H. right. now apply IH.
Qed.

Lemma fold_max_le_init (l : list Z) (a : Z) : (a <= fold_left Z.max l a)%Z.
Proof.
  revert a. induction l as [|y l IH]; intros a; simpl; [lia|].
  specialize (IH (Z.max a y)). lia.
Qed.

Lemma fold_max_ge (l : list Z) (a x : Z) :
  In x l -> (x <= fold_left Z.max l a)%Z.
Proof.
  revert a. induction l as [|y l IH]; intros a; simpl; [contradiction|].
  intros [->|H].
  - pose proof (fold_max_le_init l (Z.max a x)). lia.
  - now apply IH.
Qed.

Lemma max_edition_ge (l : list Z) (m e : Z) :
  max_edition l = Some m -> In e l -> (e <= m)%Z.
Proof.
  destruct l as [|a l]; simpl; [discriminate|].
  intros H. injection H as <-. intros [->|H].
  - apply fold_max_le_init.
  - now apply fold_max_ge.
Qed.

Lemma max_edition_snoc (l : list Z) (m e : Z) :
  max_edition l = Some m -> max_edition (l ++ [e]) = Some (Z.max m e).
Proof.
  destruct l as [|a l]; simpl; [discriminate|].
  intros H. injection H as <-. now rewrite fold_left_app.
Qed.

Lemma in_editions_In (e : Z) (l : list Z) : in_editions e l = true <-> In e l.
Proof.
  unfold in_editions. rewrite existsb_exists. split.
  - intros [y [Hy E]]. apply Z.eqb_eq in E. now subst.
  - intros H. exists e. split; [assumption|apply Z.eqb_refl].
Qed.

Lemma add_category_editions (r : company) (c : listing) :
  editions (add_category r c) = editions r
  /\ latest_edition (add_category r c) = latest_edition r.
Proof.
  unfold add_category. destruct (category_of c) as [rc|]; [|now split].
  destruct (in_list rc (role_categories r)); now split.
Qed.

Lemma first_sighting_latest_is_max (c : listing) :
  latest_is_max (first_sighting c).
Proof. reflexivity. Qed.

Lemma merge_latest_is_max (existing : company) (c : listing) :
  latest_is_max existing -> latest_is_max (merge existing c).
Proof.
  unfold latest_is_max, merge. intros H.
  destruct (add_category_editions (promote (add_edition existing c) c) c)
    as [-> ->].
  unfold promote, add_edition.
  destruct (in_editions (c_edition c) (editions existing)) eqn:Ein.
  - apply in_editions_In in Ein.
    pose proof (max_edition_ge _ _ _ H Ein) as Hle.
    destruct (c_edition c >? latest_edition existing)%Z eqn:Egt;
      [lia|assumption].
  - cbn [latest_edition editions].
    destruct (c_edition c >? latest_edition existing)%Z eqn:Egt;
      cbn [latest_edition editions];
      rewrite (max_edition_snoc _ _ _ H); f_equal; lia.
Qed.

Lemma Forall_replace (P : str * company -> Prop) (key : str) (v : company)
      (m : company_map) :
  Forall P m -> (forall k, P (k, v)) -> Forall P (replace key v m).
Proof.
  intros Hm Hv. induction Hm as [|[k w] m Hk Hm IH]; simpl; [constructor|].
  destruct (str_eqb key k); constructor; auto.
Qed.

Lemma dedup_step_latest_is_max (m : company_map) (c : listing) :
  Forall (fun kv => latest_is_max (snd kv)) m ->
  Forall (fun kv => latest_is_max (snd kv)) (dedup_step m c).
Proof.
  intros Hm. unfold dedup_step.
  destruct (lookup (company_key c) m) as [existing|] eqn:E.
  - apply Forall_replace; [assumption|]. intros k. cbn [snd].
    apply merge_latest_is_max.
    apply lookup_In in E. rewrite Forall_forall in Hm.
    exact (Hm _ E).
  - apply Forall_app. split; [assumption|].
    constructor; [apply first_sighting_latest_is_max|constructor].
Qed.

Lemma build_map_latest_is_max (cs : list listing) :
  Forall (fun kv => latest_is_max (snd kv)) (build_map cs).
Proof.
  induction cs as [|c cs IH] using rev_ind.
  - constructor.
  - rewrite build_map_snoc. now apply dedup_step_latest_is_max.
Qed.

(** C4.  After every turn of the loop, that is for the map of every prefix
    of the stream, [latest_edition] is the maximum of [editions] in every
    record of the map. *)
Theorem C4_latest_is_max (cs : list listing) (n : nat) :
  Forall (fun kv => max_edition (editions (snd kv))
                    = Some (latest_edition (snd kv)))
         (build_map (firstn n cs)).
Proof. apply build_map_latest_is_max. Qed.

Lemma merge_older_same_identity (existing : company) (c : listing) :
  (c_edition c <= latest_edition existing)%Z ->
  same_identity (merge existing c) existing.
Proof.
  intros Hle. unfold merge, add_category, promote, add_edition.
  destruct (in_editions (c_edition c) (editions existing));
    cbn [latest_edition];
    (destruct (c_edition c >? latest_edition existing)%Z eqn:Egt; [lia|]);
    destruct (category_of c) as [rc|];
    cbn [role_categories];
    try destruct (in_list rc (role_categories existing));
    repeat split.
Qed.

(** C6.  A sighting of a stored company whose edition is not greater than
    the stored [latest_edition] leaves [company], [industry], [stage],
    [location], [investors], [latest_edition] and [latest_date] (and
    [description]) of the record as they were, and every other record of the
    map untouched: only [editions] and [role_categories] may change. *)
Theorem C6_older_sighting_frame
        (m : company_map) (c : listing) (existing : company) :
  lookup (company_key c) m = Some existing ->
  (c_edition c <= latest_edition existing)%Z ->
  (exists r, lookup (company_key c) (dedup_step m c) = Some r
             /\ same_identity r existing)
  /\ (forall k, k <> company_key c ->
                lookup k (dedup_step m c) = lookup k m).
Proof.
  intros Hl Hle. split.
  - exists (merge existing c). split.
    + rewrite lookup_dedup_step, str_eqb_refl.
      unfold step_record. now rewrite Hl.
    + now apply merge_older_same_identity.
  - intros k Hk. rewrite lookup_dedup_step.
    apply str_eqb_neq in Hk. now rewrite Hk.
Qed.

Lemma C6_witness :
  (exists r, lookup (company_key acme_5) (dedup_step (build_map [acme_12]) acme_5)
             = Some r
             /\ same_identity r (first_sighting acme_12))
  /\ (forall k, k <> company_key acme_5 ->
                lookup k (dedup_step (build_map [acme_12]) acme_5)
                = lookup k (build_map [acme_12])).
Proof.
  apply (C6_older_sighting_frame (build_map [acme_12]) acme_5
           (first_sighting acme_12)).
  - reflexivity.
  - vm_compute. discriminate.
Defined.

(** The editions of a record after a turn of the loop. *)
Lemma merge_editions_In (existing : company) (c : listing) (e : Z) :
  In e (editions (merge existing c))
  <-> In e (editions existing) \/ e = c_edition c.
Proof.
  unfold merge.
  destruct (add_category_editions (promote (add_edition existing c) c) c)
    as [-> _].
  assert (E : editions (promote (add_edition existing c) c)
              = editions (add_edition existing c)).
  { unfold promote. now destruct (_ >? _)%Z. }
  rewrite E. unfold add_edition.
  destruct (in_editions (c_edition c) (editions existing)) eqn:Ein.
  - apply in_editions_In in Ein. split; [auto|].
    intros [H| ->]; assumption.
  - cbn [editions]. rewrite in_app_iff. simpl. intuition.
Qed.

(** The map holds edition [e] under [key] exactly when a listing of the
    stream has this key and this edition. *)
Lemma build_map_editions (cs : list listing) (key : str) (e : Z) :
  (exists r, lookup key (build_map cs) = Some r /\ In e (editions r))
  <-> (exists c, In c cs /\ company_key c = key /\ c_edition c = e).
Proof.
  induction cs as [|c cs IH] using rev_ind.
  - split; [intros [r [H _]]; discriminate|intros [c [[] _]]].
  - rewrite build_map_snoc. split.
    + intros [r [Hl He]]. rewrite lookup_dedup_step in Hl.
      destruct (str_eqb key (company_key c)) eqn:Ek.
      * apply str_eqb_eq in Ek. injection Hl as <-.
        unfold step_record in He. rewrite <- Ek in He.
        destruct (lookup key (build_map cs)) as [existing|] eqn:El.
        -- apply merge_editions_In in He as [He| ->].
           ++ destruct IH as [IH _].
              destruct IH as [c' [Hin [Hk Hed]]]; [now exists existing|].
              exists c'. rewrite in_app_iff. auto.
           ++ exists c. rewrite in_app_iff. simpl. auto.
        -- simpl in He. destruct He as [<-|[]].
           exists c. rewrite in_app_iff. simpl. auto.
      * destruct IH as [IH _].
        destruct IH as [c' [Hin [Hk Hed]]]; [now exists r|].
        exists c'. rewrite in_app_iff. auto.
    + intros [c' [Hin [Hk He]]]. rewrite lookup_dedup_step.
      apply in_app_iff in Hin.
      destruct (str_eqb key (company_key c)) eqn:Ek.
      * apply str_eqb_eq in Ek. eexists. split; [reflexivity|].
        unfold step_record. rewrite <- Ek.
        destruct (lookup key (build_map cs)) as [existing|] eqn:El.
        -- apply merge_editions_In.
           destruct Hin as [Hin|[<-|[]]]; [|now right].
           destruct IH as [_ IH].
           destruct IH as [r [Hr Her]]; [now exists c'|].
           left. congruence.
        -- destruct Hin as [Hin|[<-|[]]]; [|simpl; auto].
           destruct IH as [_ IH].
           destruct IH as [r [Hr Her]]; [now exists c'|discriminate].
      * destruct Hin as [Hin|[<-|[]]].
        -- apply IH. now exists c'.
        -- apply str_eqb_neq in Ek. congruence.
Qed.

(** C3, as amended.  [deduplicate_companies] validates nothing: the map
    holds an entry for a key with an edition exactly when a listing of the
    stream has this key and this edition, whatever they are.  An empty key
    or a non-positive edition is in the map when, and only when, a listing
    carries it. *)
Theorem C3_nothing_rejected (cs : list listing) (key : str) (e : Z) :
  (exists r, lookup key (build_map cs) = Some r /\ In e (editions r))
  <-> (exists c, In c cs /\ company_key c = key /\ c_edition c = e).
Proof. apply build_map_editions. Qed.

(** C3, as stated, fails: a listing whose company is blank and whose
    edition is 0 is stored under the empty key with the edition 0. *)
Lemma C3_counterexample :
  company_key blank_0 = lit ""
  /\ c_edition blank_0 = 0%Z
  /\ build_map [blank_0] = [(lit "", first_sighting blank_0)]
  /\ map editions (deduplicate_companies [blank_0]) = [[0%Z]].
Proof. vm_compute. repeat split; reflexivity. Qed.

(** [editions] and [latest_edition] after a merge depend on the listing
    through its edition only. *)
Lemma merge_same_editions (r1 r2 : company) (a b : listing) :
  editions r1 = editions r2 ->
  latest_edition r1 = latest_edition r2 ->
  c_edition a = c_edition b ->
  editions (merge r1 a) = editions (merge r2 b)
  /\ latest_edition (merge r1 a) = latest_edition (merge r2 b).
Proof.
  intros He Hl Hc. unfold merge.
  destruct (add_category_editions (promote (add_edition r1 a) a) a)
    as [-> ->].
  destruct (add_category_editions (promote (add_edition r2 b) b) b)
    as [-> ->].
  unfold promote, add_edition. rewrite He, Hc.
  destruct (in_editions (c_edition b) (editions r2));
    cbn [latest_edition editions]; rewrite Hl;
    destruct (c_edition b >? latest_edition r2)%Z; now split.
Qed.

Lemma step_same_editions (m1 m2 : company_map) (a b : listing) :
  same_slot a b ->
  (forall k, same_editions_opt (lookup k m1) (lookup k m2)) ->
  forall k, same_editions_opt (lookup k (dedup_step m1 a))
                              (lookup k (dedup_step m2 b)).
Proof.
  intros [Hk He] Hm k. rewrite !lookup_dedup_step, <- Hk.
  destruct (str_eqb k (company_key a)); [|apply Hm].
  unfold step_record. rewrite <- Hk.
  specialize (Hm (company_key a)).
  destruct (lookup (company_key a) m1) as [r1|],
           (lookup (company_key a) m2) as [r2|];
    try contradiction; simpl.
  - destruct Hm as [H1 H2]. now apply merge_same_editions.
  - now rewrite He.
Qed.

Lemma fold_same_editions (l1 l2 : list listing) :
  Forall2 same_slot l1 l2 ->
  forall m1 m2,
    (forall k, same_editions_opt (lookup k m1) (lookup k m2)) ->
    forall k, same_editions_opt (lookup k (fold_left dedup_step l1 m1))
                                (lookup k (fold_left dedup_step l2 m2)).
Proof.
  induction 1 as [|a b l1 l2 Hab _ IH]; intros m1 m2 Hm; simpl.
  - assumption.
  - apply IH. now apply step_same_editions.
Qed.

(** The categories of a record after a merge. *)
Lemma merge_categories (existing : company) (c : listing) :
  role_categories (merge existing c) =
  match category_of c with
  | Some rc =>
      if in_list rc (role_categories existing)
      then role_categories existing
      else role_categories existing ++ [rc]
  | None => role_categories existing
  end.
Proof.
  unfold merge, add_category.
  assert (E : role_categories (promote (add_edition existing c) c)
              = role_categories existing).
  { unfold promote, add_edition.
    destruct (in_editions _ _); cbn [latest_edition];
      destruct (_ >? _)%Z; reflexivity. }
  destruct (category_of c) as [rc|]; [|assumption].
  rewrite E. destruct (in_list rc (role_categories existing)); [assumption|].
  reflexivity.
Qed.

Lemma lookup_none_no_listing (cs : list listing) (c : listing) :
  lookup (company_key c) (build_map cs) = None -> ~ In c cs.
Proof.
  intros Hn Hin.
  destruct (proj2 (build_map_editions cs (company_key c) (c_edition c)))
    as [r [Hr _]]; [now exists c|congruence].
Qed.

(** The categories of a record are those of the listings of its key, each
    once. *)
Lemma build_map_categories (cs : list listing) (key : str) (r : company) :
  lookup key (build_map cs) = Some r ->
  NoDup (role_categories r)
  /\ (forall x, In x (role_categories r)
                <-> exists c, In c cs /\ company_key c = key
                              /\ category_of c = Some x).
Proof.
  revert r. induction cs as [|c cs IH] using rev_ind; intros r.
  - discriminate.
  - rewrite build_map_snoc, lookup_dedup_step.
    destruct (str_eqb key (company_key c)) eqn:Ek.
    + apply str_eqb_eq in Ek. intros Hr. injection Hr as <-.
      unfold step_record. rewrite <- Ek.
      destruct (lookup key (build_map cs)) as [existing|] eqn:El.
      * destruct (IH existing eq_refl) as [Hnd Hin].
        rewrite merge_categories.
        destruct (category_of c) as [rc|] eqn:Ec.
        -- destruct (in_list rc (role_categories existing)) eqn:Erc.
           ++ split; [assumption|]. intros x. rewrite Hin. split.
              ** intros [c' [H1 H2]]. exists c'. rewrite in_app_iff. auto.
              ** intros [c' [H1 [H2 H3]]]. apply in_app_iff in H1.
                 destruct H1 as [H1|[<-|[]]]; [now exists c'|].
                 apply in_list_In in Erc. apply Hin in Erc.
                 rewrite Ec in H3. injection H3 as <-. exact Erc.
           ++ apply in_list_not_In in Erc. split.
              ** apply NoDup_app. repeat split; try assumption.
                 --- constructor; [intros []|constructor].
                 --- intros x Hx [<-|[]]. contradiction.
              ** intros x. rewrite in_app_iff, Hin. simpl. split.
                 --- intros [[c' [H1 H2]]|[<-|[]]].
                     +++ exists c'. rewrite in_app_iff. auto.
                     +++ exists c. rewrite in_app_iff. simpl. auto.
                 --- intros [c' [H1 [H2 H3]]]. apply in_app_iff in H1.
                     destruct H1 as [H1|[<-|[]]]; [left; now exists c'|].
                     right. left. congruence.
        -- split; [assumption|]. intros x. rewrite Hin. split.
           ++ intros [c' [H1 H2]]. exists c'. rewrite in_app_iff. auto.
           ++ intros [c' [H1 [H2 H3]]]. apply in_app_iff in H1.
              destruct H1 as [H1|[<-|[]]]; [now exists c'|congruence].
      * assert (Hno : forall c', In c' cs -> company_key c' <> key).
        { intros c' Hc' Hk.
          apply (lookup_none_no_listing cs c'); [|exact Hc'].
          rewrite Hk. exact El. }
        cbn [first_sighting role_categories].
        destruct (category_of c) as [rc|] eqn:Ec.
        -- split; [constructor; [intros []|constructor]|].
           intros x. simpl. split.
           ++ intros [<-|[]]. exists c. rewrite in_app_iff. simpl. auto.
           ++ intros [c' [H1 [H2 H3]]]. apply in_app_iff in H1.
              destruct H1 as [H1|[<-|[]]]; [now apply Hno in H1|].
              left. congruence.
        -- split; [constructor|]. intros x. simpl. split; [intros []|].
           intros [c' [H1 [H2 H3]]]. apply in_app_iff in H1.
           destruct H1 as [H1|[<-|[]]]; [now apply Hno in H1|congruence].
    + intros Hr. destruct (IH r Hr) as [Hnd Hin].
      split; [assumption|]. intros x. rewrite Hin. split.
      * intros [c' [H1 H2]]. exists c'. rewrite in_app_iff. auto.
      * intros [c' [H1 [H2 H3]]]. apply in_app_iff in H1.
        destruct H1 as [H1|[<-|[]]]; [now exists c'|].
        apply str_eqb_neq in Ek. congruence.
Qed.

(** The sort only reorders the records of the map. *)
Lemma insert_desc_perm (x : company) (l : list company) :
  Permutation (insert_desc x l) (x :: l).
Proof.
  induction l as [|y l IH]; simpl; [reflexivity|].
  destruct (latest_edition y <=? latest_edition x)%Z; [reflexivity|].
  rewrite IH. apply perm_swap.
Qed.

Lemma sort_desc_perm (l : list company) : Permutation (sort_desc l) l.
Proof.
  induction l as [|x l IH]; simpl; [reflexivity|].
  rewrite insert_desc_perm. now constructor.
Qed.

Lemma deduplicate_companies_perm (cs : list listing) :
  Permutation (deduplicate_companies cs) (map snd (build_map cs)).
Proof. apply sort_desc_perm. Qed.

Lemma lookup_none_keys (k : str) (m : company_map) :
  lookup k m = None -> ~ In k (map fst m).
Proof.
  induction m as [|[k' w] m IH]; simpl; [tauto|].
  destruct (str_eqb k k') eqn:E; [discriminate|].
  apply str_eqb_neq in E. intros H [H1|H1]; [congruence|now apply IH].
Qed.

Lemma replace_keys (key : str) (v : company) (m : company_map) :
  map fst (replace key v m) = map fst m.
Proof.
  induction m as [|[k' w] m IH]; simpl; [reflexivity|].
  destruct (str_eqb key k'); simpl; [reflexivity|now rewrite IH].
Qed.

(** One entry per key. *)
Lemma build_map_keys_nodup (cs : list listing) :
  NoDup (map fst (build_map cs)).
Proof.
  induction cs as [|c cs IH] using rev_ind; [constructor|].
  rewrite build_map_snoc. unfold dedup_step.
  destruct (lookup (company_key c) (build_map cs)) eqn:E.
  - now rewrite replace_keys.
  - rewrite map_app. simpl. apply NoDup_app. repeat split.
    + assumption.
    + constructor; [intros []|constructor].
    + intros x Hx [<-|[]]. now apply lookup_none_keys in E.
Qed.

Lemma In_lookup (k : str) (r : company) (m : company_map) :
  NoDup (map fst m) -> In (k, r) m -> lookup k m = Some r.
Proof.
  induction m as [|[k' w] m IH]; simpl; [contradiction|].
  intros Hnd [H|H].
  - injection H as -> ->. now rewrite str_eqb_refl.
  - inversion Hnd as [|? ? Hk Hm]; subst.
    destruct (str_eqb k k') eqn:E.
    + apply str_eqb_eq in E. subst k'. exfalso. apply Hk.
      change k with (fst (k, r)). now apply in_map.
    + now apply IH.
Qed.

Lemma in_deduplicate_companies (cs : list listing) (r : company) :
  In r (deduplicate_companies cs)
  <-> exists key, lookup key (build_map cs) = Some r.
Proof.
  split.
  - intros H.
    apply (Permutation_in _ (deduplicate_companies_perm cs)) in H.
    apply in_map_iff in H as [[k r'] [E Hin]]. simpl in E. subst r'.
    exists k. apply In_lookup; [apply build_map_keys_nodup|assumption].
  - intros [k Hk]. apply lookup_In in Hk.
    apply (Permutation_in _ (Permutation_sym (deduplicate_companies_perm cs))).
    change r with (snd (k, r)). now apply in_map.
Qed.

(** C2, as amended.  When the listings of a stream are permuted among those
    that carry one edition for one company, the record of every company
    keeps its [editions] list and its [latest_edition], and its
    [role_categories] hold the same categories, in an order that may change.
    The other fields come from the first sighting or from the first
    sighting that raises [latest_edition], and are not promised. *)
Theorem C2_same_edition_order (l1 l2 : list listing) :
  Forall2 same_slot l1 l2 ->
  Permutation l1 l2 ->
  (forall key, related (lookup key (build_map l1)) (lookup key (build_map l2)))
  /\ (forall r1, In r1 (deduplicate_companies l1) ->
                 exists r2, In r2 (deduplicate_companies l2)
                            /\ same_editions r1 r2).
Proof.
  intros Hs Hp.
  assert (Hrel : forall key,
             related (lookup key (build_map l1)) (lookup key (build_map l2))).
  { intros key.
    pose proof (fold_same_editions l1 l2 Hs [] [] (fun _ => I) key) as He.
    fold (build_map l1) in He. fold (build_map l2) in He.
    pose proof (build_map_categories l1 key) as H1.
    pose proof (build_map_categories l2 key) as H2.
    destruct (lookup key (build_map l1)) as [r1|],
             (lookup key (build_map l2)) as [r2|]; try exact He.
    destruct He as [He Hl].
    destruct (H1 r1 eq_refl) as [Hn1 Hi1].
    destruct (H2 r2 eq_refl) as [Hn2 Hi2].
    repeat split; try assumption.
    apply NoDup_Permutation; try assumption.
    intros x. rewrite Hi1, Hi2. split; intros [c [Hin Hc]]; exists c;
      (split; [|assumption]).
    - now apply (Permutation_in _ Hp).
    - now apply (Permutation_in _ (Permutation_sym Hp)). }
  split; [assumption|].
  intros r1 Hr1. apply in_deduplicate_companies in Hr1 as [key Hk].
  specialize (Hrel key). rewrite Hk in Hrel.
  destruct (lookup key (build_map l2)) as [r2|] eqn:E2; [|contradiction].
  exists r2. split; [|assumption].
  apply in_deduplicate_companies. now exists key.
Qed.

Lemma C2_witness :
  (forall key, related (lookup key (build_map [acme_5; acme_5_again]))
                       (lookup key (build_map [acme_5_again; acme_5])))
  /\ (forall r1, In r1 (deduplicate_companies [acme_5; acme_5_again]) ->
                 exists r2, In r2 (deduplicate_companies [acme_5_again; acme_5])
                            /\ same_editions r1 r2).
Proof.
  apply (C2_same_edition_order [acme_5; acme_5_again] [acme_5_again; acme_5]).
  - repeat constructor.
  - apply perm_swap.
Defined.

(** C2, as stated, fails: two listings of one company in one edition, for
    two roles in two places, give in the two orders records that differ in
    the location and in the order of the categories. *)
Lemma C2_counterexample :
  same_slot acme_5 acme_5_again
  /\ deduplicate_companies [acme_5; acme_5_again]
     = [ {| company_name := "Acme Health"; industry := "Healthcare";
            stage := ""; location := "SF"; investors := "";
            editions := [5%Z]; latest_edition := 5%Z;
            latest_date := "Jan 8, 2024";
            role_categories := map lit ["BizOps"; "VC"];
            description := "" |} ]
  /\ deduplicate_companies [acme_5_again; acme_5]
     = [ {| company_name := "Acme Health"; industry := "Healthcare";
            stage := ""; location := "NYC"; investors := "";
            editions := [5%Z]; latest_edition := 5%Z;
            latest_date := "Jan 8, 2024";
            role_categories := map lit ["VC"; "BizOps"];
            description := "" |} ]
  /\ deduplicate_companies [acme_5; acme_5_again]
     <> deduplicate_companies [acme_5_again; acme_5].
Proof.
  split; [split; reflexivity|].
  split; [reflexivity|]. split; [reflexivity|].
  vm_compute. discriminate.
Qed.

(** ** The location filter *)

Lemma in_all_ascii (c : ascii) : In c all_ascii.
Proof.
  unfold all_ascii. rewrite <- (ascii_nat_embedding c).
  apply in_map, in_seq. pose proof (nat_ascii_bounded c). lia.
Qed.

Lemma two_characters_checked :
  forallb (fun a =>
    forallb (fun b =>
      Bool.eqb (is_valid_location [a; b])
               (in_list (upper [a; b]) two_letter_allow_list))
      all_ascii)
    all_ascii = true.
Proof. vm_compute. reflexivity. Qed.

(** C7.  A location of two characters, letters or not, is valid exactly
    when its upper case is one of SF, LA, NY, DC, UK; and each of these five
    passes every reject pattern. *)
Theorem C7_two_letter_locations :
  (forall a b : ascii,
      is_valid_location [a; b] = in_list (upper [a; b]) two_letter_allow_list)
  /\ Forall (fun s => passes_patterns location_garbage_patterns (lower s) = true
                      /\ is_valid_location s = true)
            two_letter_allow_list.
Proof.
  split.
  - intros a b. pose proof two_characters_checked as H.
    rewrite forallb_forall in H. specialize (H a (in_all_ascii a)).
    rewrite forallb_forall in H. specialize (H b (in_all_ascii b)).
    now apply Bool.eqb_prop in H.
  - repeat constructor.
Qed.

(** ** The normalizers *)

Lemma industry_tags_checked :
  forallb (fun v => match normalize_industry v with
                    | Some v' => str_eqb v' v
                    | None => false
                    end) industry_tags = true.
Proof. vm_compute. reflexivity. Qed.

Lemma normalize_industry_tag (v : str) :
  In v industry_tags -> normalize_industry v = Some v.
Proof.
  intros H. pose proof industry_tags_checked as Hc.
  rewrite forallb_forall in Hc. specialize (Hc v H).
  destruct (normalize_industry v) as [v'|]; [|discriminate].
  apply str_eqb_eq in Hc. now subst.
Qed.

(** X30.  Every result of [normalize_industry] is one of the canonical
    tags, unless the input is empty or falls through to the last branch,
    which hands the trimmed input back with its acronyms recapitalized. *)
Lemma normalize_industry_range (s v : str) :
  normalize_industry s = Some v ->
  In v industry_tags
  \/ s = []
  \/ v = sub_word "B2C" (sub_word "B2B" (sub_word "Web3"
           (sub_word "SaaS" (sub_word "AI" (strip s))))).
Proof.
  unfold normalize_industry.
  destruct (truthy s) eqn:Es; cbn [negb].
  2:{ destruct s; [|discriminate]. intros _. right. now left. }
  cbv zeta.
  repeat match goal with
         | |- (if ?b then _ else _) = _ -> _ =>
             destruct b;
             [ try (intros H; injection H as <-; left;
                    apply in_list_In; reflexivity) | ]
         end.
  all: try (intros H; injection H as <-; left; apply in_list_In; reflexivity).
  destruct (dict_get (lower (strip s)) mappings) as [n|] eqn:Ed.
  - destruct (truthy n) eqn:En; [|discriminate].
    intros H. injection H as <-. left. unfold industry_tags.
    apply in_or_app. right. apply filter_In. split; [|assumption].
    clear -Ed. induction mappings as [|[k w] d IH]; simpl in *; [discriminate|].
    destruct (str_eqb (lower (strip s)) k).
    + injection Ed as ->. now left.
    + right. now apply IH.
  - intros H. injection H as <-. right. now right.
Qed.

Lemma location_tags_checked : forallb tag_ok location_tags = true.
Proof. vm_compute. reflexivity. Qed.

Lemma location_tag_ok (t : str) : In t location_tags -> tag_ok t = true.
Proof.
  intros H. pose proof location_tags_checked as Hc.
  rewrite forallb_forall in Hc. now apply Hc.
Qed.

Lemma tag_ok_facts (t : str) :
  tag_ok t = true ->
  first_ok t = true /\ last_ok t = true /\ no_slash t = true
  /\ ends_in_space false t = false
  /\ collapse_spaces t = t
  /\ strip t = t /\ strip (t ++ " ") = t
  /\ strip (" " ++ t) = t /\ strip (" " ++ t ++ " ") = t
  /\ normalize_part t = Some t.
Proof.
  unfold tag_ok. intros H.
  repeat (apply andb_prop in H as [H ?]).
  repeat match goal with
         | E : str_eqb _ _ = true |- _ => apply str_eqb_eq in E
         end.
  destruct (normalize_part t) as [t'|]; [|discriminate].
  match goal with E : str_eqb t' t = true |- _ => apply str_eqb_eq in E end.
  subst t'.
  match goal with E : negb _ = true |- _ => apply negb_true_iff in E end.
  repeat split; assumption.
Qed.

Lemma first_ok_cons (s : str) :
  first_ok s = true -> exists c r, s = c :: r /\ slash_or_space c = false.
Proof.
  destruct s as [|c r]; simpl; [discriminate|].
  intros H. apply negb_true_iff in H. now exists c, r.
Qed.

Lemma last_ok_rev (s : str) :
  last_ok s = true -> exists c r, rev s = c :: r /\ final_char_ok c = true.
Proof.
  unfold last_ok. destruct (rev s) as [|c r]; [discriminate|].
  intros H. now exists c, r.
Qed.

Lemma slash_or_space_isspace (c : ascii) :
  slash_or_space c = false -> isspace c = false.
Proof.
  unfold slash_or_space. intros H. now apply orb_false_iff in H.
Qed.

Lemma final_char_ok_facts (c : ascii) :
  final_char_ok c = true ->
  isspace c = false /\ slash_or_space c = false.
Proof.
  unfold final_char_ok, slash_or_space. intros H.
  repeat (apply andb_prop in H as [H ?]).
  repeat match goal with
         | E : negb _ = true |- _ => apply negb_true_iff in E
         end.
  split; [assumption|]. apply orb_false_iff. now split.
Qed.

Lemma drop_final_period_fixed (s r : str) (c : ascii) :
  rev s = c :: r -> final_char_ok c = true -> drop_final_period s = s.
Proof.
  intros Hr Hc. unfold drop_final_period. rewrite Hr.
  destruct c as [[] [] [] [] [] [] [] []];
    try reflexivity; discriminate.
Qed.

Lemma drop_final_comma_fixed (s r : str) (c : ascii) :
  rev s = c :: r -> final_char_ok c = true -> drop_final_comma s = s.
Proof.
  intros Hr Hc. unfold drop_final_comma, rstrip.
  destruct (final_char_ok_facts c Hc) as [Hs _].
  rewrite (drop_while_end_last isspace s r c Hr Hs), Hr.
  destruct c as [[] [] [] [] [] [] [] []];
    try reflexivity; discriminate.
Qed.

(** The clean-up leaves alone a text that starts and ends well and has no
    run of whitespace. *)
Lemma clean_location_fixed (s : str) :
  first_ok s = true -> last_ok s = true -> collapse_spaces s = s ->
  clean_location s = s.
Proof.
  intros Hf Hl Hc.
  destruct (first_ok_cons s Hf) as [c0 [r0 [Es Hc0]]].
  destruct (last_ok_rev s Hl) as [c [r [Er Hfc]]].
  destruct (final_char_ok_facts c Hfc) as [Hsp Hss].
  assert (Hstrip : strip s = s).
  { unfold strip, lstrip, rstrip.
    assert (E : drop_while isspace s = s).
    { rewrite Es. simpl. now rewrite (slash_or_space_isspace c0 Hc0). }
    rewrite E. now apply (drop_while_end_last isspace s r c). }
  assert (Htrim : trim_slashes s = s).
  { unfold trim_slashes.
    assert (E : drop_while slash_or_space s = s).
    { rewrite Es. simpl. now rewrite Hc0. }
    rewrite E. now apply (drop_while_end_last slash_or_space s r c). }
  unfold clean_location. rewrite Hstrip, Hc, Htrim.
  rewrite (drop_final_period_fixed s r c Er Hfc).
  apply (drop_final_comma_fixed s r c Er Hfc).
Qed.

Lemma join_two (sep t t' : str) (ts : list str) :
  join sep (t :: t' :: ts) = t ++ sep ++ join sep (t' :: ts).
Proof. reflexivity. Qed.

Lemma first_ok_app (x y : str) : first_ok x = true -> first_ok (x ++ y) = true.
Proof. destruct x; simpl; [discriminate|auto]. Qed.

Lemma last_ok_app (x y : str) : last_ok y = true -> last_ok (x ++ y) = true.
Proof.
  unfold last_ok. rewrite rev_app_distr.
  destruct (rev y); simpl; [discriminate|auto].
Qed.

Lemma first_ok_join (sep : str) (ts : list str) :
  ts <> [] -> Forall (fun t => first_ok t = true) ts ->
  first_ok (join sep ts) = true.
Proof.
  destruct ts as [|t ts]; [congruence|]. intros _ H.
  inversion H as [|? ? Ht _]; subst.
  destruct ts; [assumption|]. rewrite join_two. now apply first_ok_app.
Qed.

Lemma last_ok_join (sep : str) (ts : list str) :
  ts <> [] -> Forall (fun t => last_ok t = true) ts ->
  last_ok (join sep ts) = true.
Proof.
  induction ts as [|t ts IH]; [congruence|]. intros _ H.
  inversion H as [|? ? Ht Hts]; subst.
  destruct ts as [|t' ts]; [assumption|]. rewrite join_two.
  rewrite app_assoc. apply last_ok_app. apply IH; [discriminate|assumption].
Qed.

Lemma collapse_from_app (b : bool) (x y : str) :
  collapse_from b (x ++ y)
  = collapse_from b x ++ collapse_from (ends_in_space b x) y.
Proof.
  revert b. induction x as [|c x IH]; intros b; simpl; [reflexivity|].
  unfold ends_in_space in *. simpl.
  destruct (isspace c); [destruct b|]; simpl; now rewrite IH.
Qed.

Lemma collapse_from_first_ok (s : str) :
  first_ok s = true -> collapse_from true s = collapse_from false s.
Proof.
  intros H. destruct (first_ok_cons s H) as [c [r [-> Hc]]]. simpl.
  now rewrite (slash_or_space_isspace c Hc).
Qed.

Lemma collapse_spaces_join (ts : list str) :
  ts <> [] -> Forall (fun t => tag_ok t = true) ts ->
  collapse_spaces (join " / " ts) = join " / " ts.
Proof.
  unfold collapse_spaces.
  induction ts as [|t ts IH]; [congruence|]. intros _ H.
  inversion H as [|? ? Ht Hts]; subst.
  destruct (tag_ok_facts t Ht) as (_ & _ & _ & He & Hc & _).
  destruct ts as [|t' ts]; [exact Hc|]. rewrite join_two.
  rewrite collapse_from_app, He. unfold collapse_spaces in Hc. rewrite Hc.
  f_equal. change (lit " / " ++ join " / " (t' :: ts))
    with (" "%char :: "/"%char :: " "%char :: join " / " (t' :: ts)).
  cbn [collapse_from]. change (isspace " ") with true.
  change (isspace "/") with false. cbv iota.
  rewrite collapse_from_first_ok.
  - rewrite IH; [reflexivity|discriminate|assumption].
  - apply first_ok_join; [discriminate|].
    eapply Forall_impl; [|exact Hts]. intros a Ha.
    now destruct (tag_ok_facts a Ha).
Qed.

Lemma split_no_sep (sep : ascii) (a : str) :
  forallb (fun c => negb (Ascii.eqb c sep)) a = true -> split sep a = [a].
Proof.
  induction a as [|c a IH]; simpl; [reflexivity|].
  intros H. apply andb_prop in H as [Hc Ha].
  apply negb_true_iff in Hc. rewrite Hc, (IH Ha). reflexivity.
Qed.

Lemma split_app_sep (sep : ascii) (a b : str) :
  forallb (fun c => negb (Ascii.eqb c sep)) a = true ->
  split sep (a ++ sep :: b) = a :: split sep b.
Proof.
  induction a as [|c a IH]; simpl.
  - intros _. now rewrite Ascii.eqb_refl.
  - intros H. apply andb_prop in H as [Hc Ha].
    apply negb_true_iff in Hc. rewrite Hc, (IH Ha). reflexivity.
Qed.

Lemma split_join (ts : list str) (pre : str) :
  ts <> [] -> Forall (fun t => no_slash t = true) ts ->
  no_slash pre = true ->
  split "/" (pre ++ join " / " ts) = pieces pre ts.
Proof.
  revert pre. induction ts as [|t ts IH]; [congruence|].
  intros pre _ H Hpre. inversion H as [|? ? Ht Hts]; subst.
  destruct ts as [|t' ts].
  - simpl. apply split_no_sep. fold (no_slash (pre ++ t)).
    unfold no_slash in *. rewrite forallb_app. now rewrite Hpre, Ht.
  - rewrite join_two. cbn [pieces].
    change (pre ++ t ++ lit " / " ++ join " / " (t' :: ts))
      with (pre ++ t ++ [" "%char]
                ++ "/"%char :: (lit " " ++ join " / " (t' :: ts))).
    rewrite !app_assoc. rewrite split_app_sep.
    + rewrite <- !app_assoc. f_equal.
      apply IH; [discriminate|assumption|reflexivity].
    + unfold no_slash in *. rewrite !forallb_app. now rewrite Hpre, Ht.
Qed.

Lemma strip_pieces (ts : list str) (pre : str) :
  pre = [] \/ pre = lit " " ->
  Forall (fun t => tag_ok t = true) ts ->
  map strip (pieces pre ts) = ts.
Proof.
  revert pre. induction ts as [|t ts IH]; [reflexivity|].
  intros pre Hpre H. inversion H as [|? ? Ht Hts]; subst.
  destruct (tag_ok_facts t Ht) as (_ & _ & _ & _ & _ & H1 & H2 & H3 & H4 & _).
  destruct ts as [|t' ts].
  - simpl. destruct Hpre as [-> | ->]; simpl app; [now rewrite H1|].
    change (" "%char :: t) with (lit " " ++ t). now rewrite H3.
  - change (pieces pre (t :: t' :: ts))
      with ((pre ++ t ++ lit " ") :: pieces (lit " ") (t' :: ts)).
    rewrite map_cons, (IH (lit " ")); [|now right|assumption].
    f_equal. destruct Hpre as [-> | ->]; [exact H2|exact H4].
Qed.

Lemma normalized_parts_tags (ts : list str) :
  Forall (fun t => tag_ok t = true) ts -> normalized_parts ts = ts.
Proof.
  induction 1 as [|t ts Ht _ IH]; simpl; [reflexivity|].
  destruct (tag_ok_facts t Ht) as (_ & _ & _ & _ & _ & _ & _ & _ & _ & E).
  now rewrite E, IH.
Qed.

Lemma unique_from_nodup (seen ts : list str) :
  NoDup ts -> Forall (fun t => truthy t = true) ts ->
  (forall t, In t ts -> ~ In t seen) ->
  unique_from seen ts = ts.
Proof.
  intros Hnd. revert seen. induction Hnd as [|t ts Ht Hnd IH];
    intros seen Htr Hs; simpl; [reflexivity|].
  inversion Htr as [|? ? H1 H2]; subst. rewrite H1.
  assert (E : in_list t seen = false).
  { apply in_list_not_In. apply Hs. now left. }
  rewrite E. simpl. f_equal. apply IH; [assumption|].
  intros x Hx [<-|H]; [contradiction|]. apply (Hs x); [now right|assumption].
Qed.

Lemma first_ok_truthy (s : str) : first_ok s = true -> truthy s = true.
Proof. destruct s; simpl; [discriminate|reflexivity]. Qed.

(** A join of distinct tags comes back unchanged. *)
Lemma normalize_location_join (ts : list str) :
  ts <> [] -> NoDup ts -> Forall (fun t => tag_ok t = true) ts ->
  normalize_location (join " / " ts) = join " / " ts.
Proof.
  intros Hne Hnd Hok.
  assert (Hf : Forall (fun t => first_ok t = true) ts).
  { eapply Forall_impl; [|exact Hok]. intros a Ha.
    now destruct (tag_ok_facts a Ha). }
  assert (Hl : Forall (fun t => last_ok t = true) ts).
  { eapply Forall_impl; [|exact Hok]. intros a Ha.
    now destruct (tag_ok_facts a Ha) as (_ & ? & _). }
  assert (Hs : Forall (fun t => no_slash t = true) ts).
  { eapply Forall_impl; [|exact Hok]. intros a Ha.
    now destruct (tag_ok_facts a Ha) as (_ & _ & ? & _). }
  assert (Ht : Forall (fun t => truthy t = true) ts).
  { eapply Forall_impl; [|exact Hf]. intros a. apply first_ok_truthy. }
  pose proof (first_ok_join " / " ts Hne Hf) as Hfj.
  unfold normalize_location.
  rewrite (first_ok_truthy _ Hfj). cbn [negb].
  unfold location_parts.
  rewrite clean_location_fixed;
    [|assumption|now apply last_ok_join|now apply collapse_spaces_join].
  rewrite <- (app_nil_l (join " / " ts)) at 1.
  rewrite split_join by (assumption || reflexivity).
  rewrite strip_pieces by (auto).
  rewrite normalized_parts_tags by assumption.
  unfold unique_parts. rewrite unique_from_nodup by (auto).
  destruct ts; [congruence|reflexivity].
Qed.

(** C8.  The normalizers return their canonical values unchanged: every
    canonical industry tag, and every " / "-join of distinct location tags,
    "Remote" among them. *)
Theorem C8_normalizers_idempotent :
  (forall v, In v industry_tags -> normalize_industry v = Some v)
  /\ (forall ts, ts <> [] -> NoDup ts ->
                 (forall t, In t ts -> In t location_tags) ->
                 normalize_location (join " / " ts) = join " / " ts).
Proof.
  split.
  - apply normalize_industry_tag.
  - intros ts Hne Hnd Hin. apply normalize_location_join; try assumption.
    apply Forall_forall. intros t Ht. apply location_tag_ok. now apply Hin.
Qed.

Lemma C8_witness :
  In (lit "Healthcare") industry_tags
  /\ normalize_industry "Healthcare" = Some (lit "Healthcare")
  /\ NoDup (map lit ["SF"; "Remote"; "St. Louis"])
  /\ normalize_location "SF / Remote / St. Louis" = "SF / Remote / St. Louis".
Proof.
  destruct C8_normalizers_idempotent as [H1 H2].
  assert (Hin : In (lit "Healthcare") industry_tags)
    by (apply in_list_In; reflexivity).
  assert (Hnd : NoDup (map lit ["SF"; "Remote"; "St. Louis"])).
  { repeat constructor; simpl; intuition discriminate. }
  split; [exact Hin|]. split; [exact (H1 _ Hin)|]. split; [exact Hnd|].
  apply (H2 (map lit ["SF"; "Remote"; "St. Louis"])).
  - discriminate.
  - exact Hnd.
  - intros t Ht. apply in_list_In.
    destruct Ht as [<-|[<-|[<-|[]]]]; reflexivity.
Defined.

Lemma gazetteer_find_In (table : list (list str * str)) (p t : str) :
  gazetteer_find table p = Some t -> In t (map snd table).
Proof.
  induction table as [|[aliases tag] table IH]; simpl; [discriminate|].
  destruct (in_list p aliases).
  - intros H. injection H as ->. now left.
  - intros H. right. now apply IH.
Qed.

Lemma classify_location_tag (p t : str) :
  classify_location p = Some t -> In t location_tags.
Proof.
  unfold classify_location, location_tags.
  repeat match goal with
         | |- context [if ?b then _ else _] => destruct b
         end;
    try discriminate;
    try (intros H; injection H as <-; now left).
  intros H. right. now apply gazetteer_find_In in H.
Qed.

Lemma normalized_parts_In (parts : list str) (t : str) :
  In t (normalized_parts parts) -> In t location_tags.
Proof.
  induction parts as [|p parts IH]; simpl; [contradiction|].
  destruct (normalize_part p) as [tag|] eqn:E; [|assumption].
  intros [<-|H]; [|now apply IH].
  unfold normalize_part in E.
  destruct (_ || _); [discriminate|]. now apply classify_location_tag in E.
Qed.

Lemma unique_from_In (seen l : list str) (x : str) :
  In x (unique_from seen l) -> In x l /\ ~ In x seen.
Proof.
  revert seen. induction l as [|y l IH]; intros seen; simpl; [contradiction|].
  destruct (truthy y && negb (in_list y seen)) eqn:E.
  - apply andb_prop in E as [_ E]. apply negb_true_iff in E.
    apply in_list_not_In in E.
    intros [<-|H]; [auto|].
    apply IH in H as [H1 H2]. split; [auto|].
    intros H3. apply H2. now right.
  - intros H. apply IH in H as [H1 H2]. auto.
Qed.

Lemma unique_from_NoDup (seen l : list str) : NoDup (unique_from seen l).
Proof.
  revert seen. induction l as [|y l IH]; intros seen; simpl; [constructor|].
  destruct (truthy y && negb (in_list y seen)); [|apply IH].
  constructor; [|apply IH].
  intros H. apply unique_from_In in H as [_ H]. apply H. now left.
Qed.

Lemma join_truthy (sep : str) (ts : list str) :
  ts <> [] -> Forall (fun t => truthy t = true) ts ->
  truthy (join sep ts) = true.
Proof.
  destruct ts as [|t ts]; [congruence|]. intros _ H.
  inversion H as [|? ? Ht _]; subst.
  destruct ts; [assumption|]. rewrite join_two.
  destruct t; [discriminate|reflexivity].
Qed.

(** The shape of every result on a non-empty input. *)
Lemma normalize_location_shape (location : str) :
  location <> [] ->
  exists ts, ts <> [] /\ NoDup ts
             /\ (forall t, In t ts -> In t location_tags)
             /\ normalize_location location = join " / " ts.
Proof.
  intros Hne. unfold normalize_location.
  destruct location as [|c location]; [congruence|]. cbn [truthy negb].
  set (parts := location_parts (c :: location)).
  destruct (unique_parts (normalized_parts parts)) as [|u us] eqn:E.
  - exists [Remote]. split; [discriminate|]. split; [|split].
    + constructor; [intros []|constructor].
    + intros t [<-|[]]. now left.
    + reflexivity.
  - exists (u :: us). split; [discriminate|]. rewrite <- E.
    split; [|split].
    + apply unique_from_NoDup.
    + intros t Ht. apply unique_from_In in Ht as [Ht _].
      now apply normalized_parts_In in Ht.
    + rewrite E. reflexivity.
Qed.

Lemma normalize_location_truthy (location : str) :
  location <> [] -> normalize_location location <> [].
Proof.
  intros Hne. destruct (normalize_location_shape location Hne)
    as (ts & H1 & _ & H3 & ->).
  assert (Ht : truthy (join " / " ts) = true).
  { apply join_truthy; [assumption|]. apply Forall_forall.
    intros t Ht. apply first_ok_truthy.
    now destruct (tag_ok_facts t (location_tag_ok t (H3 t Ht))). }
  intros E. rewrite E in Ht. discriminate.
Qed.

(** C5.  On a non-empty location the result is a " / "-join of one or more
    distinct tags of the gazetteer output set and "Remote"; a part that
    [normalize_part] maps to nothing adds nothing to it; with no part left
    the result is "Remote"; and the result is never empty. *)
Theorem C5_closed_vocabulary (location : str) :
  location <> [] ->
  (exists ts, ts <> [] /\ NoDup ts
              /\ (forall t, In t ts -> In t location_tags)
              /\ normalize_location location = join " / " ts)
  /\ (forall part parts,
         classify_location (lower (clean_part part)) = None ->
         normalized_parts (part :: parts) = normalized_parts parts)
  /\ (normalized_parts (location_parts location) = [] ->
      normalize_location location = Remote)
  /\ normalize_location location <> [].
Proof.
  intros Hne. split; [now apply normalize_location_shape|].
  split; [|split].
  - intros part parts H. cbn [normalized_parts]. unfold normalize_part.
    rewrite H. now destruct (_ || _).
  - intros H. unfold normalize_location. rewrite H.
    destruct location; [congruence|reflexivity].
  - now apply normalize_location_truthy.
Qed.

Lemma C5_witness :
  lit "Tulsa / Palo Alto, CA (HQ) / SF" <> []
  /\ normalize_location "Tulsa / Palo Alto, CA (HQ) / SF" = lit "SF"
  /\ normalize_location "Tulsa" = Remote
  /\ (exists ts, ts <> [] /\ NoDup ts
                 /\ (forall t, In t ts -> In t location_tags)
                 /\ normalize_location "Tulsa / Palo Alto, CA (HQ) / SF"
                    = join " / " ts).
Proof.
  split; [discriminate|]. split; [reflexivity|]. split; [reflexivity|].
  apply (C5_closed_vocabulary "Tulsa / Palo Alto, CA (HQ) / SF").
  discriminate.
Defined.

(** C10.  The empty string comes back empty, past the "Remote" fallback;
    it is the only input with an empty result, and [is_valid_location]
    rejects it. *)
Theorem C10_empty_location :
  normalize_location "" = lit ""
  /\ is_valid_location "" = false
  /\ (forall location, normalize_location location = [] <-> location = []).
Proof.
  split; [reflexivity|]. split; [reflexivity|].
  intros location. split.
  - intros H. destruct location as [|c l]; [reflexivity|].
    exfalso. apply (normalize_location_truthy (c :: l)); [discriminate|].
    exact H.
  - intros ->. reflexivity.
Qed.

(** * Further properties *)

(** ** The merger: order of the result *)

Lemma insert_desc_sorted (x : company) (l : list company) :
  StronglySorted newer_or_equal l ->
  StronglySorted newer_or_equal (insert_desc x l).
Proof.
  induction 1 as [|y l Hl IH Hy]; simpl.
  - constructor; constructor.
  - destruct (latest_edition y <=? latest_edition x)%Z eqn:E.
    + apply Z.leb_le in E. constructor.
      * now constructor.
      * constructor; [exact E|].
        eapply Forall_impl; [|exact Hy]. unfold newer_or_equal.
        intros z Hz. lia.
    + apply Z.leb_gt in E. constructor; [assumption|].
      apply (Permutation_Forall (Permutation_sym (insert_desc_perm x l))).
      constructor; [unfold newer_or_equal; lia|assumption].
Qed.

Lemma sort_desc_sorted (l : list company) :
  StronglySorted newer_or_equal (sort_desc l).
Proof.
  induction l as [|x l IH]; simpl; [constructor|].
  now apply insert_desc_sorted.
Qed.

(** X1.  The result of [deduplicate_companies] is in descending order of
    [latest_edition]: every record is at least as recent as every record
    after it. *)
Theorem deduplicate_companies_sorted (cs : list listing) :
  StronglySorted newer_or_equal (deduplicate_companies cs).
Proof. apply sort_desc_sorted. Qed.

Lemma insert_desc_filter (e : Z) (x : company) (l : list company) :
  filter (has_latest e) (insert_desc x l) = filter (has_latest e) (x :: l).
Proof.
  induction l as [|y l IH]; [reflexivity|].
  cbn [insert_desc].
  destruct (latest_edition y <=? latest_edition x)%Z eqn:E; [reflexivity|].
  apply Z.leb_gt in E.
  cbn [filter] in *. rewrite IH.
  unfold has_latest.
  destruct (latest_edition x =? e)%Z eqn:Ex; [|reflexivity].
  destruct (latest_edition y =? e)%Z eqn:Ey; [|reflexivity].
  apply Z.eqb_eq in Ex, Ey. lia.
Qed.

Lemma sort_desc_filter (e : Z) (l : list company) :
  filter (has_latest e) (sort_desc l) = filter (has_latest e) l.
Proof.
  induction l as [|x l IH]; [reflexivity|].
  cbn [sort_desc fold_right]. fold (sort_desc l).
  rewrite insert_desc_filter. cbn [filter]. now rewrite IH.
Qed.

(** X2.  The sort is stable: the records that share one [latest_edition]
    stand in the result in the order in which their keys entered the map. *)
Theorem deduplicate_companies_stable (cs : list listing) (e : Z) :
  filter (has_latest e) (deduplicate_companies cs)
  = filter (has_latest e) (map snd (build_map cs)).
Proof. apply sort_desc_filter. Qed.

(** ** The merger: keys *)

Lemma lookup_in_keys (k : str) (m : company_map) :
  in_list k (map fst m) = match lookup k m with Some _ => true | None => false end.
Proof.
  induction m as [|[k' w] m IH]; [reflexivity|].
  simpl. destruct (str_eqb k k'); [reflexivity|exact IH].
Qed.

Lemma dedup_step_keys (m : company_map) (c : listing) :
  map fst (dedup_step m c)
  = if in_list (company_key c) (map fst m) then map fst m
    else map fst m ++ [company_key c].
Proof.
  unfold dedup_step. rewrite lookup_in_keys.
  destruct (lookup (company_key c) m).
  - apply replace_keys.
  - now rewrite map_app.
Qed.

Lemma build_map_keys (cs : list listing) :
  map fst (build_map cs) = distinct_first (map company_key cs).
Proof.
  induction cs as [|c cs IH] using rev_ind; [reflexivity|].
  rewrite build_map_snoc, dedup_step_keys, IH.
  unfold distinct_first. rewrite map_app, fold_left_app. reflexivity.
Qed.

(** X3.  The map has one entry per distinct key of the stream, in the order
    in which the keys first appear; the result has as many records. *)
Theorem deduplicate_companies_keys (cs : list listing) :
  map fst (build_map cs) = distinct_first (map company_key cs)
  /\ NoDup (map fst (build_map cs))
  /\ length (deduplicate_companies cs)
     = length (distinct_first (map company_key cs)).
Proof.
  split; [apply build_map_keys|]. split; [apply build_map_keys_nodup|].
  rewrite (Permutation_length (deduplicate_companies_perm cs)).
  rewrite length_map, <- build_map_keys. now rewrite length_map.
Qed.

(** ** The merger: what a record keeps *)

Lemma extends_refl {A : Type} (l : list A) : extends l l.
Proof. exists []. now rewrite app_nil_r. Qed.

Lemma extends_trans {A : Type} (l1 l2 l3 : list A) :
  extends l1 l2 -> extends l2 l3 -> extends l1 l3.
Proof.
  intros [m1 ->] [m2 ->]. exists (m1 ++ m2). now rewrite app_assoc.
Qed.

Lemma grows_refl (r : company) : grows r r.
Proof.
  unfold grows. repeat split; try apply extends_refl. lia.
Qed.

Lemma grows_trans (r1 r2 r3 : company) :
  grows r1 r2 -> grows r2 r3 -> grows r1 r3.
Proof.
  unfold grows. intros (A1 & A2 & A3 & A4 & A5 & A6) (B1 & B2 & B3 & B4 & B5 & B6).
  repeat split; try congruence; try lia.
  - now apply (extends_trans _ _ _ A4).
  - now apply (extends_trans _ _ _ A5).
Qed.

Lemma merge_grows (existing : company) (c : listing) :
  grows existing (merge existing c).
Proof.
  unfold grows, merge, add_category, promote, add_edition.
  destruct (in_editions (c_edition c) (editions existing));
    cbn [latest_edition];
    destruct (c_edition c >? latest_edition existing)%Z eqn:Egt;
    destruct (category_of c) as [rc|];
    cbn [role_categories];
    try destruct (in_list rc (role_categories existing));
    cbn [company_name investors description editions role_categories
         latest_edition];
    repeat split;
    solve [ apply extends_refl | now eexists | lia ].
Qed.

Lemma merge_keeps_populated (existing : company) (c : listing) :
  keeps_populated existing (merge existing c).
Proof.
  assert (B : forall old new : str, old <> [] -> backfill old new = old).
  { intros old new H. unfold backfill. destruct old; [congruence|reflexivity]. }
  unfold keeps_populated, merge, add_category, promote, add_edition.
  destruct (in_editions (c_edition c) (editions existing));
    cbn [latest_edition];
    destruct (c_edition c >? latest_edition existing)%Z;
    destruct (category_of c) as [rc|];
    cbn [role_categories];
    try destruct (in_list rc (role_categories existing));
    cbn [industry stage location];
    repeat split; intros H; try reflexivity; now apply B.
Qed.

Lemma keeps_populated_refl (r : company) : keeps_populated r r.
Proof. unfold keeps_populated. repeat split. Qed.

Lemma keeps_populated_trans (r1 r2 r3 : company) :
  keeps_populated r1 r2 -> keeps_populated r2 r3 -> keeps_populated r1 r3.
Proof.
  unfold keeps_populated. intros (A1 & A2 & A3) (B1 & B2 & B3).
  repeat split; intros H.
  - rewrite <- (A1 H). apply B1. now rewrite (A1 H).
  - rewrite <- (A2 H). apply B2. now rewrite (A2 H).
  - rewrite <- (A3 H). apply B3. now rewrite (A3 H).
Qed.

(** A relation that [merge] respects holds between a record and its state
    after any further listings. *)
Lemma fold_preserved (R : company -> company -> Prop) :
  (forall r, R r r) ->
  (forall r1 r2 r3, R r1 r2 -> R r2 r3 -> R r1 r3) ->
  (forall r c, R r (merge r c)) ->
  forall (more : list listing) (m : company_map) (k : str) (r : company),
    lookup k m = Some r ->
    exists r', lookup k (fold_left dedup_step more m) = Some r' /\ R r r'.
Proof.
  intros Hrefl Htrans Hmerge.
  induction more as [|c more IH]; intros m k r Hl; simpl.
  - now exists r.
  - assert (Hs : exists r1, lookup k (dedup_step m c) = Some r1 /\ R r r1).
    { rewrite lookup_dedup_step.
      destruct (str_eqb k (company_key c)) eqn:Ek.
      - apply str_eqb_eq in Ek. unfold step_record. rewrite <- Ek, Hl.
        eexists. split; [reflexivity|apply Hmerge].
      - exists r. split; [assumption|apply Hrefl]. }
    destruct Hs as [r1 [H1 HR1]].
    destruct (IH _ _ _ H1) as [r' [H' HR']].
    exists r'. split; [assumption|]. now apply (Htrans _ r1).
Qed.

Lemma build_map_app (cs more : list listing) :
  build_map (cs ++ more) = fold_left dedup_step more (build_map cs).
Proof. unfold build_map. now rewrite fold_left_app. Qed.

(** X4.  Folding more listings in never loses anything of a stored record:
    the company name, the investors and the description stay as they are,
    [editions] and [role_categories] are only appended to, and
    [latest_edition] does not decrease. *)
Theorem record_only_grows (cs more : list listing) (k : str) (r : company) :
  lookup k (build_map cs) = Some r ->
  exists r', lookup k (build_map (cs ++ more)) = Some r' /\ grows r r'.
Proof.
  intros H. rewrite build_map_app.
  apply (fold_preserved grows grows_refl grows_trans merge_grows); assumption.
Qed.

Lemma record_only_grows_witness :
  lookup (company_key acme_5) (build_map [acme_5]) = Some (first_sighting acme_5)
  /\ exists r', lookup (company_key acme_5) (build_map ([acme_5] ++ [acme_12]))
                = Some r'
                /\ grows (first_sighting acme_5) r'.
Proof.
  split; [reflexivity|].
  apply (record_only_grows [acme_5] [acme_12] (company_key acme_5)
           (first_sighting acme_5)).
  reflexivity.
Defined.

(** X5.  Backfill only: once the industry, the stage or the location of a
    stored record holds a value, no later listing changes it, whatever its
    edition. *)
Theorem populated_fields_are_kept
        (cs more : list listing) (k : str) (r : company) :
  lookup k (build_map cs) = Some r ->
  exists r', lookup k (build_map (cs ++ more)) = Some r'
             /\ keeps_populated r r'.
Proof.
  intros H. rewrite build_map_app.
  apply (fold_preserved keeps_populated keeps_populated_refl
           keeps_populated_trans merge_keeps_populated); assumption.
Qed.

Lemma populated_fields_are_kept_witness :
  lookup (company_key acme_5) (build_map [acme_5]) = Some (first_sighting acme_5)
  /\ exists r', lookup (company_key acme_5)
                       (build_map ([acme_5] ++ [acme_5_again; acme_12]))
                = Some r'
                /\ keeps_populated (first_sighting acme_5) r'.
Proof.
  split; [reflexivity|].
  apply (populated_fields_are_kept [acme_5] [acme_5_again; acme_12]
           (company_key acme_5) (first_sighting acme_5)).
  reflexivity.
Defined.

Lemma first_sighting_origin_from
      (cs : list listing) (m : company_map) (k : str) (c0 : listing) :
  lookup k m = None ->
  first_listing (has_key k) cs = Some c0 ->
  exists r, lookup k (fold_left dedup_step cs m) = Some r
            /\ company_name r = c_company c0
            /\ investors r = c_investors c0.
Proof.
  unfold first_listing.
  revert m. induction cs as [|c cs IH]; intros m Hm; simpl; [discriminate|].
  unfold has_key at 1. rewrite str_eqb_sym.
  destruct (str_eqb k (company_key c)) eqn:Ek.
  - intros E. injection E as <-.
    apply str_eqb_eq in Ek.
    assert (Hl : lookup k (dedup_step m c) = Some (first_sighting c)).
    { rewrite lookup_dedup_step, Ek, str_eqb_refl.
      unfold step_record. now rewrite <- Ek, Hm. }
    destruct (fold_preserved grows grows_refl grows_trans merge_grows
                cs _ _ _ Hl) as [r [Hr (G1 & G2 & _)]].
    exists r. repeat split; assumption.
  - intros E. apply IH; [|assumption].
    now rewrite lookup_dedup_step, Ek.
Qed.

(** X6.  The company name and the investors of a record are those of the
    first listing of its key in the stream; no later listing, of whatever
    edition, changes them. *)
Theorem name_and_investors_from_first_sighting
        (cs : list listing) (k : str) (c0 : listing) :
  first_listing (has_key k) cs = Some c0 ->
  exists r, lookup k (build_map cs) = Some r
            /\ company_name r = c_company c0
            /\ investors r = c_investors c0.
Proof. now apply first_sighting_origin_from. Qed.

Lemma name_and_investors_from_first_sighting_witness :
  first_listing (has_key "acme health") [acme_5; acme_12] = Some acme_5
  /\ exists r, lookup "acme health" (build_map [acme_5; acme_12]) = Some r
               /\ company_name r = c_company acme_5
               /\ investors r = c_investors acme_5.
Proof.
  split; [reflexivity|].
  apply (name_and_investors_from_first_sighting [acme_5; acme_12]
           "acme health" acme_5).
  reflexivity.
Defined.

Lemma find_app_some {A : Type} (p : A -> bool) (l l' : list A) (x : A) :
  find p l = Some x -> find p (l ++ l') = Some x.
Proof.
  induction l as [|y l IH]; simpl; [discriminate|].
  destruct (p y); [auto|exact IH].
Qed.

Lemma find_app_none {A : Type} (p : A -> bool) (l l' : list A) :
  (forall x, In x l -> p x = false) -> find p (l ++ l') = find p l'.
Proof.
  induction l as [|y l IH]; simpl; [reflexivity|].
  intros H. rewrite (H y) by now left. apply IH. intros x Hx. apply H.
  now right.
Qed.

Lemma edition_le_latest (cs : list listing) (k : str) (r : company)
      (x : listing) :
  lookup k (build_map cs) = Some r ->
  In x cs -> company_key x = k -> (c_edition x <= latest_edition r)%Z.
Proof.
  intros Hl Hx Hk.
  destruct (proj2 (build_map_editions cs k (c_edition x))) as [r' [Hr' He]];
    [now exists x|].
  assert (r' = r) by congruence. subst r'.
  pose proof (build_map_latest_is_max cs) as Hmax.
  rewrite Forall_forall in Hmax.
  specialize (Hmax _ (lookup_In _ _ _ Hl)). cbn [snd] in Hmax.
  now apply (max_edition_ge _ _ _ Hmax).
Qed.

Lemma merge_latest (existing : company) (c : listing) :
  latest_edition (merge existing c)
  = (if (c_edition c >? latest_edition existing)%Z
     then c_edition c else latest_edition existing)
  /\ latest_date (merge existing c)
     = (if (c_edition c >? latest_edition existing)%Z
        then c_date c else latest_date existing).
Proof.
  unfold merge, add_category, promote, add_edition.
  destruct (in_editions (c_edition c) (editions existing));
    cbn [latest_edition];
    destruct (c_edition c >? latest_edition existing)%Z;
    destruct (category_of c) as [rc|];
    cbn [role_categories];
    try destruct (in_list rc (role_categories existing));
    split; reflexivity.
Qed.

Lemma build_map_latest_date (cs : list listing) (k : str) (r : company) :
  lookup k (build_map cs) = Some r ->
  exists c0,
    first_listing (has_key_and_edition k (latest_edition r)) cs = Some c0
    /\ latest_date r = c_date c0.
Proof.
  unfold first_listing.
  revert r. induction cs as [|c cs IH] using rev_ind; intros r.
  - discriminate.
  - rewrite build_map_snoc, lookup_dedup_step.
    destruct (str_eqb k (company_key c)) eqn:Ek.
    + apply str_eqb_eq in Ek. intros Hr. injection Hr as <-.
      unfold step_record. rewrite <- Ek.
      destruct (lookup k (build_map cs)) as [existing|] eqn:El.
      * destruct (IH existing eq_refl) as [c0 [Hf Hd]].
        destruct (merge_latest existing c) as [-> ->].
        destruct (c_edition c >? latest_edition existing)%Z eqn:Egt.
        -- exists c. split; [|reflexivity].
           rewrite find_app_none.
           ++ simpl. unfold has_key_and_edition.
              now rewrite <- Ek, str_eqb_refl, Z.eqb_refl.
           ++ intros x Hx. unfold has_key_and_edition.
              destruct (str_eqb (company_key x) k) eqn:Ex; [|reflexivity].
              apply str_eqb_eq in Ex.
              pose proof (edition_le_latest cs k existing x El Hx Ex).
              simpl. apply Z.eqb_neq. lia.
        -- exists c0. split; [|assumption]. now apply find_app_some.
      * exists c. split; [|reflexivity].
        cbn [first_sighting latest_edition].
        rewrite find_app_none.
        -- simpl. unfold has_key_and_edition.
           now rewrite <- Ek, str_eqb_refl, Z.eqb_refl.
        -- intros x Hx. unfold has_key_and_edition.
           destruct (str_eqb (company_key x) k) eqn:Ex; [|reflexivity].
           apply str_eqb_eq in Ex. exfalso.
           apply (lookup_none_no_listing cs x); [|assumption].
           now rewrite Ex.
    + intros Hr. destruct (IH r Hr) as [c0 [Hf Hd]].
      exists c0. split; [|assumption]. now apply find_app_some.
Qed.

(** X7.  [latest_date] is the date of the first listing of the stream that
    carries the key and the [latest_edition] of the record: among listings
    of one edition the one supplied first gives the date. *)
Theorem latest_date_from_first_of_latest_edition
        (cs : list listing) (k : str) (r : company) :
  lookup k (build_map cs) = Some r ->
  exists c0,
    first_listing (has_key_and_edition k (latest_edition r)) cs = Some c0
    /\ latest_date r = c_date c0.
Proof. apply build_map_latest_date. Qed.

Lemma latest_date_from_first_of_latest_edition_witness :
  exists r,
    lookup "acme health" (build_map [acme_5; acme_12; acme_5_again]) = Some r
    /\ exists c0,
         first_listing (has_key_and_edition "acme health" (latest_edition r))
                       [acme_5; acme_12; acme_5_again] = Some c0
         /\ latest_date r = c_date c0.
Proof.
  eexists. split; [reflexivity|].
  apply (latest_date_from_first_of_latest_edition
           [acme_5; acme_12; acme_5_again] "acme health").
  reflexivity.
Defined.

Lemma category_of_truthy (c : listing) (rc : str) :
  category_of c = Some rc -> truthy rc = true.
Proof.
  unfold category_of. destruct (c_role_category c) as [x|]; [|discriminate].
  destruct (truthy x) eqn:E; [|discriminate]. intros H. now injection H as <-.
Qed.

Lemma first_sighting_well_formed (c : listing) : well_formed (first_sighting c).
Proof.
  unfold well_formed. cbn [first_sighting editions role_categories description].
  split; [discriminate|]. split; [constructor; [intros []|constructor]|].
  destruct (category_of c) as [rc|] eqn:E.
  - split; [constructor; [intros []|constructor]|].
    split; [|reflexivity]. constructor; [|constructor].
    now apply (category_of_truthy c).
  - split; [constructor|]. split; [constructor|reflexivity].
Qed.

Lemma merge_editions (existing : company) (c : listing) :
  editions (merge existing c)
  = if in_editions (c_edition c) (editions existing) then editions existing
    else editions existing ++ [c_edition c].
Proof.
  unfold merge.
  destruct (add_category_editions (promote (add_edition existing c) c) c)
    as [-> _].
  unfold promote, add_edition.
  destruct (in_editions (c_edition c) (editions existing));
    cbn [latest_edition]; destruct (_ >? _)%Z; reflexivity.
Qed.

Lemma merge_description (existing : company) (c : listing) :
  description (merge existing c) = description existing.
Proof. now destruct (merge_grows existing c) as (_ & _ & ? & _). Qed.

Lemma merge_well_formed (existing : company) (c : listing) :
  well_formed existing -> well_formed (merge existing c).
Proof.
  unfold well_formed. intros (H1 & H2 & H3 & H4 & H5).
  rewrite merge_editions, merge_categories, merge_description.
  split; [|split; [|split; [|split]]].
  - destruct (in_editions _ _); [assumption|].
    destruct (editions existing); discriminate.
  - destruct (in_editions _ _) eqn:E; [assumption|].
    apply NoDup_app. repeat split; try assumption.
    + constructor; [intros []|constructor].
    + intros x Hx [<-|[]].
      apply in_editions_In in Hx. congruence.
  - destruct (category_of c) as [rc|]; [|assumption].
    destruct (in_list rc (role_categories existing)) eqn:E; [assumption|].
    apply NoDup_app. repeat split; try assumption.
    + constructor; [intros []|constructor].
    + intros x Hx [<-|[]]. apply in_list_In in Hx. congruence.
  - destruct (category_of c) as [rc|] eqn:Ec; [|assumption].
    destruct (in_list rc (role_categories existing)); [assumption|].
    apply Forall_app. split; [assumption|].
    constructor; [|constructor]. now apply (category_of_truthy c).
  - assumption.
Qed.

Lemma dedup_step_well_formed (m : company_map) (c : listing) :
  Forall (fun kv => well_formed (snd kv)) m ->
  Forall (fun kv => well_formed (snd kv)) (dedup_step m c).
Proof.
  intros Hm. unfold dedup_step.
  destruct (lookup (company_key c) m) as [existing|] eqn:E.
  - apply Forall_replace; [assumption|]. intros k. cbn [snd].
    apply merge_well_formed.
    apply lookup_In in E. rewrite Forall_forall in Hm.
    exact (Hm _ E).
  - apply Forall_app. split; [assumption|].
    constructor; [apply first_sighting_well_formed|constructor].
Qed.

(** X8.  Every record of the result has at least one edition, no edition
    and no role category twice, no empty role category, and an empty
    description. *)
Theorem deduplicate_companies_well_formed (cs : list listing) :
  Forall well_formed (deduplicate_companies cs).
Proof.
  apply (Permutation_Forall (Permutation_sym (deduplicate_companies_perm cs))).
  apply Forall_map.
  induction cs as [|c cs IH] using rev_ind; [constructor|].
  rewrite build_map_snoc. now apply dedup_step_well_formed.
Qed.

(** ** The location normalizer: idempotence and case *)

(** X9.  [normalize_location] is idempotent on every input: normalizing a
    result gives the result back. *)
Theorem normalize_location_idempotent (location : str) :
  normalize_location (normalize_location location)
  = normalize_location location.
Proof.
  destruct location as [|c l]; [reflexivity|].
  destruct (normalize_location_shape (c :: l)) as (ts & H1 & H2 & H3 & ->);
    [discriminate|].
  apply normalize_location_join; try assumption.
  apply Forall_forall. intros t Ht. apply location_tag_ok. now apply H3.
Qed.

(** Lowering a character changes neither its class nor any of the
    punctuation the clean-up looks for. *)
Lemma lower_char_facts (c : ascii) :
  isspace (lower_char c) = isspace c
  /\ lower_char (lower_char c) = lower_char c
  /\ lower_char (upper_char c) = lower_char c
  /\ Ascii.eqb (lower_char c) "/" = Ascii.eqb c "/"
  /\ Ascii.eqb (lower_char c) "." = Ascii.eqb c "."
  /\ Ascii.eqb (lower_char c) "," = Ascii.eqb c ","
  /\ Ascii.eqb (lower_char c) "(" = Ascii.eqb c "("
  /\ Ascii.eqb (lower_char c) ")" = Ascii.eqb c ")"
  /\ Ascii.eqb (lower_char c) "010" = Ascii.eqb c "010".
Proof.
  destruct c as [[] [] [] [] [] [] [] []]; vm_compute; repeat split.
Qed.

Lemma lower_lower (s : str) : lower (lower s) = lower s.
Proof.
  unfold lower. rewrite map_map. apply map_ext. intros c.
  now destruct (lower_char_facts c) as (_ & ? & _).
Qed.

Lemma lower_upper (s : str) : lower (upper s) = lower s.
Proof.
  unfold lower, upper. rewrite map_map. apply map_ext. intros c.
  now destruct (lower_char_facts c) as (_ & _ & ? & _).
Qed.

Lemma drop_while_lower (p : ascii -> bool) (s : str) :
  (forall c, p (lower_char c) = p c) ->
  drop_while p (lower s) = lower (drop_while p s).
Proof.
  intros Hp. induction s as [|c s IH]; [reflexivity|].
  simpl. rewrite Hp. destruct (p c); [exact IH|reflexivity].
Qed.

Lemma drop_while_end_lower (p : ascii -> bool) (s : str) :
  (forall c, p (lower_char c) = p c) ->
  drop_while_end p (lower s) = lower (drop_while_end p s).
Proof.
  intros Hp. unfold drop_while_end, lower.
  rewrite <- map_rev. fold (lower (rev s)).
  rewrite drop_while_lower by assumption. unfold lower. now rewrite map_rev.
Qed.

Lemma isspace_lower (c : ascii) : isspace (lower_char c) = isspace c.
Proof. now destruct (lower_char_facts c). Qed.

Lemma slash_or_space_lower (c : ascii) :
  slash_or_space (lower_char c) = slash_or_space c.
Proof.
  unfold slash_or_space.
  destruct (lower_char_facts c) as (-> & _ & _ & -> & _). reflexivity.
Qed.

Lemma strip_lower (s : str) : strip (lower s) = lower (strip s).
Proof.
  unfold strip, lstrip, rstrip.
  rewrite drop_while_lower by apply isspace_lower.
  apply drop_while_end_lower, isspace_lower.
Qed.

Lemma trim_slashes_lower (s : str) :
  trim_slashes (lower s) = lower (trim_slashes s).
Proof.
  unfold trim_slashes.
  rewrite drop_while_lower by apply slash_or_space_lower.
  apply drop_while_end_lower, slash_or_space_lower.
Qed.

Lemma collapse_from_lower (b : bool) (s : str) :
  collapse_from b (lower s) = lower (collapse_from b s).
Proof.
  revert b. induction s as [|c s IH]; intros b; [reflexivity|].
  simpl. rewrite isspace_lower.
  destruct (isspace c); [destruct b|]; simpl; now rewrite IH.
Qed.

Lemma rev_lower (s : str) : rev (lower s) = lower (rev s).
Proof. unfold lower. now rewrite map_rev. Qed.

Lemma drop_final_period_lower (s : str) :
  drop_final_period (lower s) = lower (drop_final_period s).
Proof.
  unfold drop_final_period. rewrite rev_lower.
  destruct (rev s) as [|c r] eqn:E; [reflexivity|].
  assert (Hr : lower (rev r) = rev (lower r)) by (symmetry; apply rev_lower).
  destruct c as [[] [] [] [] [] [] [] []];
    try reflexivity; cbn [lower map lower_char];
    try (exact (eq_sym Hr)).
  change (lower_char "010") with "010"%char. cbv iota.
  destruct r as [|c2 r2]; [reflexivity|].
  destruct c2 as [[] [] [] [] [] [] [] []]; try reflexivity.
  change (map lower_char ("."%char :: r2)) with ("."%char :: lower r2).
  cbv iota. unfold lower. simpl. rewrite map_app, map_rev. reflexivity.
Qed.

Lemma drop_final_comma_lower (s : str) :
  drop_final_comma (lower s) = lower (drop_final_comma s).
Proof.
  unfold drop_final_comma, rstrip.
  rewrite drop_while_end_lower by apply isspace_lower.
  rewrite rev_lower.
  destruct (rev (drop_while_end isspace s)) as [|c r]; [reflexivity|].
  destruct c as [[] [] [] [] [] [] [] []]; try reflexivity.
  change (lower (","%char :: r)) with (","%char :: lower r). cbv iota.
  rewrite rev_lower. apply drop_while_end_lower, isspace_lower.
Qed.

Lemma split_lower (sep : ascii) (s : str) :
  (forall c, Ascii.eqb (lower_char c) sep = Ascii.eqb c sep) ->
  split sep (lower s) = map lower (split sep s).
Proof.
  intros Hs. induction s as [|c s IH]; [reflexivity|].
  simpl. rewrite Hs. fold (lower s). rewrite IH.
  destruct (Ascii.eqb c sep); [reflexivity|].
  destruct (split sep s); reflexivity.
Qed.

Lemma clean_location_lower (s : str) :
  clean_location (lower s) = lower (clean_location s).
Proof.
  unfold clean_location, collapse_spaces.
  now rewrite strip_lower, collapse_from_lower, trim_slashes_lower,
    drop_final_period_lower, drop_final_comma_lower.
Qed.

Lemma break_at_lower (sep : ascii) (s : str) :
  (forall c, Ascii.eqb (lower_char c) sep = Ascii.eqb c sep) ->
  break_at sep (lower s)
  = option_map (fun ab => (lower (fst ab), lower (snd ab))) (break_at sep s).
Proof.
  intros Hs. induction s as [|c s IH]; [reflexivity|].
  simpl. rewrite Hs. fold (lower s). rewrite IH.
  destruct (Ascii.eqb c sep); [reflexivity|].
  destruct (break_at sep s) as [[a b]|]; reflexivity.
Qed.

Lemma no_newline_lower (s : str) : no_newline (lower s) = no_newline s.
Proof.
  unfold no_newline. induction s as [|c s IH]; [reflexivity|].
  cbn [lower map forallb]. fold (lower s). rewrite IH.
  now destruct (lower_char_facts c) as (_ & _ & _ & _ & _ & _ & _ & _ & ->).
Qed.

Lemma length_lower (s : str) : length (lower s) = length s.
Proof. apply length_map. Qed.

Lemma remove_parens_from_lower (skip : nat) (s : str) :
  remove_parens_from skip (lower s) = lower (remove_parens_from skip s).
Proof.
  revert skip. induction s as [|c s IH]; intros skip; [reflexivity|].
  cbn [lower map remove_parens_from]. fold (lower s).
  destruct skip as [|k]; [|apply IH].
  assert (Hc : Ascii.eqb (lower_char c) "(" = Ascii.eqb c "(")
    by now destruct (lower_char_facts c) as (_ & _ & _ & _ & _ & _ & ? & _).
  rewrite Hc. destruct (Ascii.eqb c "(").
  - rewrite break_at_lower
      by (intros x; now destruct (lower_char_facts x)
                      as (_ & _ & _ & _ & _ & _ & _ & ? & _)).
    destruct (break_at ")" s) as [[inner rest]|]; cbn [option_map fst snd].
    + rewrite no_newline_lower, length_lower.
      destruct (no_newline inner); rewrite IH; reflexivity.
    + now rewrite IH.
  - now rewrite IH.
Qed.

Lemma clean_part_lower (part : str) :
  clean_part (lower part) = lower (clean_part part).
Proof.
  unfold clean_part, collapse_spaces, remove_parens.
  rewrite split_lower
    by (intros x; now destruct (lower_char_facts x) as (_ & _ & _ & _ & _ & ? & _)).
  destruct (split "," part) as [|p ps]; cbn [map].
  - reflexivity.
  - now rewrite !strip_lower, remove_parens_from_lower, strip_lower,
      collapse_from_lower, strip_lower.
Qed.

Lemma normalize_part_lower (part : str) :
  normalize_part (lower part) = normalize_part part.
Proof.
  unfold normalize_part. rewrite clean_part_lower, lower_lower, length_lower.
  now destruct (clean_part part).
Qed.

Lemma normalized_parts_lower (parts : list str) :
  normalized_parts (map lower parts) = normalized_parts parts.
Proof.
  induction parts as [|p parts IH]; [reflexivity|].
  cbn [map normalized_parts]. now rewrite normalize_part_lower, IH.
Qed.

Lemma normalize_location_lower (location : str) :
  normalize_location (lower location) = normalize_location location.
Proof.
  destruct location as [|c l]; [reflexivity|].
  unfold normalize_location. cbn [lower map truthy negb].
  change (lower_char c :: map lower_char l) with (lower (c :: l)).
  unfold location_parts.
  rewrite clean_location_lower.
  rewrite split_lower
    by (intros x; now destruct (lower_char_facts x) as (_ & _ & _ & ? & _)).
  rewrite map_map.
  rewrite (map_ext _ (fun p => lower (strip p)))
    by (intros p; apply strip_lower).
  rewrite <- (map_map strip lower), normalized_parts_lower. reflexivity.
Qed.

(** X10.  On ASCII text, where lowering a text keeps its length as it does
    in the source, [normalize_location] does not look at the case of
    letters: two ASCII locations that differ in case only have the same
    result. *)
Theorem normalize_location_ignores_case (s s' : str) :
  ascii_only s = true -> ascii_only s' = true ->
  lower s = lower s' -> normalize_location s = normalize_location s'.
Proof.
  intros _ _ H.
  now rewrite <- (normalize_location_lower s), H, normalize_location_lower.
Qed.

Lemma normalize_location_ignores_case_witness :
  ascii_only "PALO alto / remote" = true
  /\ ascii_only "Palo Alto / Remote" = true
  /\ lower "PALO alto / remote" = lower "Palo Alto / Remote"
  /\ normalize_location "PALO alto / remote"
     = normalize_location "Palo Alto / Remote".
Proof.
  split; [reflexivity|]. split; [reflexivity|]. split; [reflexivity|].
  apply (normalize_location_ignores_case "PALO alto / remote"
           "Palo Alto / Remote"); reflexivity.
Defined.

Lemma in_pairs (a b : str) (l : list (str * str)) :
  existsb (fun kv => str_eqb (fst kv) a && str_eqb (snd kv) b) l = true ->
  In (a, b) l.
Proof.
  rewrite existsb_exists. intros [[x y] [Hin H]].
  apply andb_prop in H as [H1 H2]. apply str_eqb_eq in H1, H2.
  simpl in H1, H2. now subst.
Qed.

Lemma alias_pairs_checked :
  forallb (fun kv => str_eqb (normalize_location (fst kv)) (snd kv))
          alias_pairs = true.
Proof. vm_compute. reflexivity. Qed.

(** X11.  No alias of the gazetteer is shadowed: a location that is, in any
    case of letters, one of the aliases has the tag of that alias as its
    result. *)
Theorem gazetteer_alias_gives_tag (s alias tag : str) :
  In (alias, tag) alias_pairs -> lower s = alias ->
  normalize_location s = tag.
Proof.
  intros Hin Hs. rewrite <- normalize_location_lower, Hs.
  pose proof alias_pairs_checked as H. rewrite forallb_forall in H.
  specialize (H _ Hin). now apply str_eqb_eq in H.
Qed.

Lemma gazetteer_alias_gives_tag_witness :
  In (lit "menlo park", lit "SF") alias_pairs
  /\ lower "Menlo Park" = lit "menlo park"
  /\ normalize_location "Menlo Park" = lit "SF".
Proof.
  assert (H : In (lit "menlo park", lit "SF") alias_pairs).
  { apply in_pairs. reflexivity. }
  split; [exact H|]. split; [reflexivity|].
  exact (gazetteer_alias_gives_tag "Menlo Park" "menlo park" "SF" H eq_refl).
Defined.

(** ** The industry normalizer *)

Lemma startswith_app (p s : str) :
  startswith p s = true <-> exists post, s = p ++ post.
Proof.
  revert s. induction p as [|a p IH]; intros s; simpl.
  - split; [intros _; now exists s|reflexivity].
  - destruct s as [|b s].
    + split; [discriminate|intros [post H]; discriminate].
    + rewrite andb_true_iff, Ascii.eqb_eq, IH. split.
      * intros [-> [post ->]]. now exists post.
      * intros [post H]. injection H as -> ->. split; [reflexivity|].
        now exists post.
Qed.

Lemma str_in_app (p s : str) :
  str_in p s = true <-> exists pre post, s = pre ++ p ++ post.
Proof.
  split.
  - induction s as [|c s IH]; simpl.
    + rewrite orb_false_r. intros H. apply startswith_app in H as [post H].
      now exists [], post.
    + intros H. apply orb_true_iff in H as [H|H].
      * apply startswith_app in H as [post H]. now exists [], post.
      * destruct (IH H) as (pre & post & ->). now exists (c :: pre), post.
  - intros (pre & post & ->). induction pre as [|c pre IH]; simpl.
    + assert (H : startswith p (p ++ post) = true)
        by (apply startswith_app; now exists post).
      destruct (p ++ post); simpl; rewrite H; reflexivity.
    + rewrite IH. apply orb_true_r.
Qed.

(** A text that holds [a ++ b] holds [b]. *)
Lemma str_in_suffix (a b s : str) :
  str_in (a ++ b) s = true -> str_in b s = true.
Proof.
  intros H. apply str_in_app in H as (pre & post & ->).
  apply str_in_app. exists (pre ++ a), post. now rewrite <- !app_assoc.
Qed.

(** X12.  Family precedence: an industry that holds "mental health", in any
    case, is "Mental Health", whatever else it holds. *)
Theorem mental_health_first (industry : str) :
  str_in "mental health" (lower (strip industry)) = true ->
  normalize_industry industry = Some (lit "Mental Health").
Proof.
  intros H.
  assert (Hh : str_in "health" (lower (strip industry)) = true)
    by exact (str_in_suffix "mental " "health" _ H).
  unfold normalize_industry.
  destruct industry as [|c l]; [discriminate|].
  cbn [truthy negb]. cbv zeta.
  unfold any_in. cbn [map existsb].
  change (lit "health") with (lit "health") in Hh.
  rewrite Hh. cbn [orb]. now rewrite H.
Qed.

Lemma mental_health_first_witness :
  str_in "mental health"
         (lower (strip "AI fintech, Mental Health support")) = true
  /\ normalize_industry "AI fintech, Mental Health support"
     = Some (lit "Mental Health").
Proof.
  split; [reflexivity|].
  apply (mental_health_first "AI fintech, Mental Health support").
  reflexivity.
Defined.

Lemma mappings_checked :
  forallb (fun kv =>
             option_str_eqb (normalize_industry (fst kv))
               (match dict_get (fst kv) shadowed_keys with
                | Some tag => Some tag
                | None => mapped_result (snd kv)
                end))
          mappings = true.
Proof. vm_compute. reflexivity. Qed.

Lemma option_str_eqb_eq (a b : option str) :
  option_str_eqb a b = true -> a = b.
Proof.
  destruct a, b; simpl; try discriminate; [|reflexivity].
  intros H. apply str_eqb_eq in H. now subst.
Qed.

(** X13.  A key of [mappings] gets the value the table gives it, or [None]
    when that value is empty, but for four keys that a family rule takes
    first: "hospitality" is "Healthcare" (it holds "hospital"), "venture
    capital" is "Developer Tools" (it holds "api"), "investing" is
    "Fintech" and "public" is "Government". *)
Theorem mappings_and_families (key value : str) :
  In (key, value) mappings ->
  normalize_industry key
  = match dict_get key shadowed_keys with
    | Some tag => Some tag
    | None => mapped_result value
    end.
Proof.
  intros Hin. pose proof mappings_checked as H.
  rewrite forallb_forall in H. specialize (H _ Hin).
  now apply option_str_eqb_eq in H.
Qed.

Lemma mappings_and_families_witness :
  In (lit "hospitality", lit "Travel") mappings
  /\ normalize_industry "hospitality" = Some (lit "Healthcare").
Proof.
  assert (H : In (lit "hospitality", lit "Travel") mappings).
  { apply in_pairs. reflexivity. }
  split; [exact H|].
  exact (mappings_and_families "hospitality" "Travel" H).
Defined.

(** X14.  [normalize_industry] does not look at the whitespace around its
    input. *)
Theorem normalize_industry_ignores_margins (industry : str) :
  normalize_industry (strip industry) = normalize_industry industry.
Proof.
  destruct industry as [|c l]; [reflexivity|].
  destruct (strip (c :: l)) as [|c' l'] eqn:E.
  - unfold normalize_industry. cbn [truthy negb]. rewrite E. reflexivity.
  - unfold normalize_industry. cbn [truthy negb].
    rewrite <- E, strip_idem. reflexivity.
Qed.

(** X15.  The classification does not look at the case of letters: an
    industry and its lower case are dropped together, and otherwise have
    the same result unless both fall through to the last branch, which
    gives each its own spelling back. *)
Theorem normalize_industry_ignores_case (industry : str) :
  match normalize_industry industry, normalize_industry (lower industry) with
  | None, None => True
  | Some v, Some v' =>
      v = v'
      \/ (v = pass_through (strip industry)
          /\ v' = pass_through (strip (lower industry)))
  | _, _ => False
  end.
Proof.
  destruct industry as [|c l]; [now left|].
  unfold normalize_industry.
  change (truthy (lower (c :: l))) with true.
  cbn [truthy negb]. cbv zeta.
  rewrite strip_lower, lower_lower.
  set (x := lower (strip (c :: l))).
  repeat match goal with
         | |- context [if ?b then _ else _] =>
             match type of b with
             | bool => destruct b; try (left; reflexivity)
             end
         end.
  destruct (dict_get x mappings) as [n|].
  - destruct (truthy n); [now left|exact I].
  - right. split; reflexivity.
Qed.

(** ** The line parser: what a parsed record is made of *)

Lemma break_at_spec (c : ascii) (s a b : str) :
  break_at c s = Some (a, b) -> s = a ++ c :: b /\ has_no c a = true.
Proof.
  revert a. induction s as [|x s IH]; intros a; simpl; [discriminate|].
  destruct (Ascii.eqb x c) eqn:E.
  - apply Ascii.eqb_eq in E. intros H. injection H as <- <-. now subst.
  - destruct (break_at c s) as [[a' b']|]; [|discriminate].
    intros H. injection H as <- <-. destruct (IH a' eq_refl) as [-> Ha].
    split; [reflexivity|]. simpl. now rewrite E, Ha.
Qed.

Lemma break_at_app (c : ascii) (a b : str) :
  has_no c a = true -> break_at c (a ++ c :: b) = Some (a, b).
Proof.
  induction a as [|x a IH]; simpl.
  - intros _. now rewrite Ascii.eqb_refl.
  - intros H. apply andb_prop in H as [Hx Ha].
    apply negb_true_iff in Hx. now rewrite Hx, (IH Ha).
Qed.

Lemma has_no_app (c : ascii) (a b : str) :
  has_no c (a ++ b) = has_no c a && has_no c b.
Proof. apply forallb_app. Qed.

(** A trimmed, non-empty text starts and ends with a character that is not
    whitespace. *)
Lemma stripped_ends (s : str) :
  strip s = s -> s <> [] ->
  (exists c r, s = c :: r /\ isspace c = false)
  /\ (exists c r, rev s = c :: r /\ isspace c = false).
Proof.
  intros Hs Hne. unfold strip, lstrip, rstrip in Hs.
  pose proof (drop_while_head isspace s) as Hh.
  destruct (drop_while isspace s) as [|c t] eqn:Et.
  - unfold drop_while_end in Hs. simpl in Hs. congruence.
  - split.
    + rewrite drop_while_end_cons in Hs by assumption.
      exists c, (drop_while_end isspace t). auto.
    + pose proof (drop_while_head isspace (rev (c :: t))) as Hl.
      assert (Hr : rev s = drop_while isspace (rev (c :: t))).
      { rewrite <- Hs at 1. unfold drop_while_end. apply rev_involutive. }
      rewrite <- Hr in Hl.
      destruct (rev s) as [|c' r'] eqn:Er.
      * apply (f_equal (@rev ascii)) in Er. rewrite rev_involutive in Er.
        simpl in Er. congruence.
      * now exists c', r'.
Qed.

Lemma strip_between (s r r' : str) (c c' : ascii) :
  s = c :: r -> isspace c = false ->
  rev s = c' :: r' -> isspace c' = false ->
  strip s = s.
Proof.
  intros Hs Hc Hr Hc'. unfold strip, lstrip, rstrip.
  assert (E : drop_while isspace s = s) by (rewrite Hs; simpl; now rewrite Hc).
  rewrite E. now apply (drop_while_end_last isspace s r' c').
Qed.

Lemma strip_padded (s : str) :
  strip s = s -> strip (" "%char :: s ++ [" "%char]) = s.
Proof.
  intros Hs. destruct s as [|c r]; [reflexivity|].
  destruct (stripped_ends (c :: r) Hs) as [(c0 & r0 & E0 & H0) (c1 & r1 & E1 & H1)];
    [discriminate|].
  injection E0 as <- <-.
  unfold strip, lstrip, rstrip. cbn [drop_while app].
  change (isspace " ") with true. cbv iota. cbn [drop_while].
  rewrite H0. unfold drop_while_end.
  change (c :: r ++ [" "%char]) with ((c :: r) ++ [" "%char]).
  rewrite rev_app_distr. cbn [rev app drop_while].
  change (isspace " ") with true. cbv iota.
  change (rev r ++ [c]) with (rev (c :: r)). rewrite E1.
  cbn [drop_while]. rewrite H1. rewrite <- E1. apply rev_involutive.
Qed.

Lemma sub_links_no_bracket (s : str) :
  has_no "[" s = true -> sub_links s = s.
Proof.
  unfold sub_links. induction s as [|c s IH]; [reflexivity|].
  intros H. cbn [has_no forallb] in H. apply andb_prop in H as [Hc Hs].
  apply negb_true_iff in Hc. cbn [sub_links_from].
  assert (E : link_at (c :: s) = None).
  { unfold link_at. destruct c as [[] [] [] [] [] [] [] []];
      try reflexivity; discriminate. }
  rewrite E. f_equal. now apply IH.
Qed.

Lemma tail_at_stripped (x : str) :
  strip x = x -> x <> [] -> no_newline x = true -> tail_at x = Some x.
Proof.
  intros Hs Hne Hn.
  destruct (stripped_ends x Hs Hne) as [_ (c & r & Er & Hc)].
  unfold tail_at. rewrite Er.
  assert (Ht : truthy x = true) by (destruct x; [congruence|reflexivity]).
  destruct c as [[] [] [] [] [] [] [] []];
    try discriminate; now rewrite Ht, Hn.
Qed.

Lemma after_spaces_stripped (x : str) :
  strip x = x -> x <> [] -> no_newline x = true -> after_spaces x = Some x.
Proof.
  intros Hs Hne Hn.
  destruct (stripped_ends x Hs Hne) as [(c & r & E & Hc) _].
  rewrite E. cbn [after_spaces]. rewrite Hc. rewrite <- E.
  now apply tail_at_stripped.
Qed.

Lemma last_char_app (a b : str) :
  b <> [] -> last_char (a ++ b) = last_char b.
Proof.
  unfold last_char. rewrite rev_app_distr. intros H.
  destruct (rev b) eqn:E; [|reflexivity].
  apply (f_equal (@rev ascii)) in E. rewrite rev_involutive in E.
  simpl in E. congruence.
Qed.

Lemma drop_while_end_fixed (p : ascii -> bool) (s : str) :
  (forall c, last_char s = Some c -> p c = false) ->
  drop_while_end p s = s.
Proof.
  unfold last_char. intros H. destruct (rev s) as [|c r] eqn:E.
  - apply (f_equal (@rev ascii)) in E. rewrite rev_involutive in E.
    now subst.
  - apply (drop_while_end_last p s r c E). now apply H.
Qed.

Lemma drop_while_fixed (p : ascii -> bool) (s : str) :
  (forall c, first_char s = Some c -> p c = false) ->
  drop_while p s = s.
Proof.
  destruct s as [|c r]; [reflexivity|]. intros H. simpl.
  now rewrite (H c eq_refl).
Qed.

(** X16.  Round trip: a line written as [title, company (details),
    location] from well-formed parts is parsed back into these parts, with
    the fields of the details as [parse_details] reads them. *)
Theorem parse_formatted_listing
        (v : variant) (title company details location : str) :
  strip title = title -> title <> [] -> has_no "," title = true ->
  strip company = company -> has_no "(" company = true ->
  2 <= length company <= 100 ->
  last_char company <> Some ","%char ->
  existsb (fun w => str_in w (lower company)) (skip_words v) = false ->
  strip details = details -> details <> [] -> has_no ")" details = true ->
  strip location = location -> location <> [] ->
  length location <= 100 -> no_newline location = true ->
  first_char location <> Some "/"%char ->
  last_char location <> Some "/"%char ->
  min_length v <= length (format_listing title company details location) ->
  (strip_links v = true ->
   has_no "[" (format_listing title company details location) = true) ->
  exists p,
    parse_job_line_in v (format_listing title company details location)
    = Some p
    /\ p_company p = company
    /\ p_location p = location
    /\ details_fields p = parse_details details
    /\ p_job_title p = (if keeps_title v then Some title else None).
Proof.
  intros Ht Htne Htc Hc Hcp Hcl Hcc Hskip Hd Hdne Hdp Hl Hlne Hll Hln
         Hlf Hll' Hmin Hlinks.
  set (line := format_listing title company details location) in *.
  destruct (stripped_ends title Ht Htne) as [(t0 & tr & Et & Ht0) _].
  destruct (stripped_ends location Hl Hlne)
    as [(l0 & lr & El & Hl0) (l1 & lr' & El' & Hl1)].
  assert (Hcne : company <> []) by (destruct company; simpl in Hcl; [lia|discriminate]).
  destruct (stripped_ends company Hc Hcne)
    as [(c0 & cr & Ec & Hc0) (c1 & cr' & Ec' & Hc1)].
  (* the line is trimmed *)
  assert (Hline : strip line = line).
  { assert (E1 : exists r, line = t0 :: r).
    { unfold line, format_listing. rewrite Et. simpl. eauto. }
    destruct E1 as [r E1].
    assert (E2 : rev line = l1 :: (lr' ++ rev (title ++ ", " ++ company
                                                   ++ " (" ++ details ++ "), "))).
    { unfold line, format_listing.
      rewrite !app_assoc. rewrite rev_app_distr, El'. simpl.
      now rewrite <- !app_assoc. }
    exact (strip_between line _ _ _ _ E1 Ht0 E2 Hl1). }
  unfold parse_job_line_in. rewrite Hline.
  assert (Htr : truthy line = true).
  { unfold line, format_listing. rewrite Et. reflexivity. }
  rewrite Htr. cbn [negb orb].
  assert (Hlt : (length line <? min_length v)%nat = false)
    by (apply Nat.ltb_ge; exact Hmin).
  rewrite Hlt.
  assert (Hsub : (if strip_links v then sub_links line else line) = line).
  { destruct (strip_links v); [|reflexivity].
    now apply sub_links_no_bracket, Hlinks. }
  rewrite Hsub.
  (* the match *)
  assert (Hm : match_listing line
               = Some (title, company, details, location)).
  { unfold match_listing, line, format_listing.
    change (title ++ lit ", " ++ company ++ lit " (" ++ details
                  ++ lit "), " ++ location)
      with (title ++ ","%char ::
              (" "%char :: company ++ " "%char :: "("%char ::
                 details ++ ")"%char :: ","%char :: " "%char :: location)).
    rewrite (break_at_app "," title _ Htc).
    change (" "%char :: company ++ " "%char :: "("%char ::
              details ++ ")"%char :: ","%char :: " "%char :: location)
      with ((" "%char :: company) ++ " "%char :: "("%char ::
              (details ++ ")"%char :: ","%char :: " "%char :: location)).
    replace ((" "%char :: company) ++ " "%char :: "("%char ::
              (details ++ ")"%char :: ","%char :: " "%char :: location))
      with ((" "%char :: company ++ [" "%char]) ++ "("%char ::
              (details ++ ")"%char :: ","%char :: " "%char :: location))
      by (simpl; now rewrite <- app_assoc).
    rewrite break_at_app.
    2:{ change (" "%char :: company ++ [" "%char])
          with ([" "%char] ++ company ++ [" "%char]).
        rewrite !has_no_app, Hcp. reflexivity. }
    rewrite (break_at_app ")" details _ Hdp).
    cbn [match_tail after_spaces]. change (isspace " ") with true. cbv iota.
    rewrite (after_spaces_stripped location Hl Hlne Hln).
    assert (Ht1 : truthy title = true) by (rewrite Et; reflexivity).
    assert (Ht3 : truthy details = true)
      by (destruct details; [congruence|reflexivity]).
    rewrite Ht1, Ht3. cbn [truthy andb].
    unfold company_group.
    change (rstrip (lstrip (" "%char :: company ++ [" "%char])))
      with (strip (" "%char :: company ++ [" "%char])).
    rewrite (strip_padded company Hc).
    destruct company; [congruence|reflexivity]. }
  rewrite Hm, Ht, Hc, Hd, Hl.
  assert (Hlen1 : (length company <? 2)%nat = false) by (apply Nat.ltb_ge; lia).
  assert (Hlen2 : (100 <? length company)%nat = false) by (apply Nat.ltb_ge; lia).
  assert (Hlen3 : (100 <? length location)%nat = false) by (apply Nat.ltb_ge; lia).
  rewrite Hlen1, Hlen2, Hlen3, Hskip. cbn [orb].
  destruct (parse_details details) as [[ind stg] inv] eqn:Epd.
  assert (Hco : drop_while_end comma_or_space company = company).
  { apply drop_while_end_fixed. intros c Hlast. unfold comma_or_space.
    unfold last_char in *. rewrite Ec' in *. injection Hlast as <-.
    rewrite Hc1, orb_false_r. apply Ascii.eqb_neq. intros ->. now apply Hcc. }
  assert (Htl : trim_slashes location = location).
  { unfold trim_slashes.
    rewrite drop_while_fixed.
    - apply drop_while_end_fixed. intros c Hlast. unfold slash_or_space.
      unfold last_char in *. rewrite El' in *. injection Hlast as <-.
      rewrite Hl1, orb_false_r. apply Ascii.eqb_neq. intros ->. now apply Hll'.
    - intros c Hfirst. unfold slash_or_space.
      unfold first_char in *. rewrite El in *. injection Hfirst as <-.
      rewrite Hl0, orb_false_r. apply Ascii.eqb_neq. intros ->. now apply Hlf. }
  rewrite Hco, Htl, Hl, Ht.
  eexists. split; [reflexivity|]. cbn. repeat split.
Qed.

Lemma parse_formatted_listing_witness :
  format_listing "Senior PM" "Acme Health" "Healthcare, Series B" "SF"
  = lit "Senior PM, Acme Health (Healthcare, Series B), SF"
  /\ exists p,
       parse_job_line_in scraper
         (format_listing "Senior PM" "Acme Health" "Healthcare, Series B" "SF")
       = Some p
       /\ p_company p = lit "Acme Health"
       /\ p_location p = lit "SF"
       /\ details_fields p = parse_details "Healthcare, Series B"
       /\ p_job_title p = (if keeps_title scraper then Some (lit "Senior PM")
                           else None).
Proof.
  split; [reflexivity|].
  apply (parse_formatted_listing scraper "Senior PM" "Acme Health"
           "Healthcare, Series B" "SF");
    try reflexivity; try discriminate; try (vm_compute; lia).
Defined.

Lemma tail_at_sound (x g : str) :
  tail_at x = Some g ->
  g <> [] /\ no_newline g = true /\ (x = g \/ x = g ++ ["010"%char]).
Proof.
  unfold tail_at.
  assert (G : forall y : str,
             (if truthy y && no_newline y then Some y else None) = Some g ->
             g <> [] /\ no_newline g = true /\ y = g).
  { intros y H. destruct (truthy y) eqn:E1; [|discriminate].
    destruct (no_newline y) eqn:E2; [|discriminate].
    injection H as <-. repeat split; try assumption.
    destruct y; [discriminate|discriminate]. }
  destruct (rev x) as [|c y'] eqn:E.
  - intros H. destruct (G x H) as (H1 & H2 & H3). auto.
  - assert (Ex : x = rev y' ++ [c]).
    { rewrite <- (rev_involutive x), E. reflexivity. }
    destruct (Ascii.eqb c "010") eqn:Ec.
    + apply Ascii.eqb_eq in Ec. subst c. intros H.
      destruct (G (rev y') H) as (H1 & H2 & H3).
      repeat split; try assumption. right. now rewrite Ex, H3.
    + assert (Hn : (if truthy x && no_newline x then Some x else None) = Some g ->
                   g <> [] /\ no_newline g = true /\ (x = g \/ x = g ++ ["010"%char])).
      { intros H. destruct (G x H) as (H1 & H2 & H3). auto. }
      destruct c as [[] [] [] [] [] [] [] []]; try exact Hn; discriminate.
Qed.

Lemma after_spaces_sound (s g : str) :
  after_spaces s = Some g ->
  exists ws rest, s = ws ++ rest /\ forallb isspace ws = true
                  /\ tail_at rest = Some g.
Proof.
  induction s as [|c s IH]; simpl.
  - intros H. now exists [], [].
  - destruct (isspace c) eqn:Ec.
    + destruct (after_spaces s) as [g'|].
      * intros H. injection H as ->.
        destruct (IH eq_refl) as (ws & rest & -> & Hws & Ht).
        exists (c :: ws), rest. simpl. now rewrite Ec, Hws.
      * intros H. now exists [], (c :: s).
    + intros H. now exists [], (c :: s).
Qed.

(** The groups are pieces of the line. *)
Lemma match_listing_groups (line g1 g2 g3 g4 : str) :
  match_listing line = Some (g1, g2, g3, g4) ->
  exists t e pre,
    line = g1 ++ ","%char :: t ++ "("%char :: g3 ++ ")"%char :: e
    /\ g1 <> [] /\ has_no "," g1 = true
    /\ t <> [] /\ has_no "(" t = true /\ strip g2 = strip t
    /\ g3 <> [] /\ has_no ")" g3 = true
    /\ g4 <> [] /\ no_newline g4 = true
    /\ (e = pre ++ g4 \/ e = pre ++ g4 ++ ["010"%char])
    /\ (forallb isspace pre = true
        \/ exists ws, pre = ","%char :: ws /\ forallb isspace ws = true).
Proof.
  unfold match_listing.
  destruct (break_at "," line) as [[a r]|] eqn:E1; [|discriminate].
  destruct (break_at "(" r) as [[t d]|] eqn:E2; [|discriminate].
  destruct (break_at ")" d) as [[b e]|] eqn:E3; [|discriminate].
  destruct (match_tail e) as [g|] eqn:E4; [|discriminate].
  destruct (truthy a) eqn:Ta; [|discriminate].
  destruct (truthy t) eqn:Tt; [|discriminate].
  destruct (truthy b) eqn:Tb; [|discriminate].
  cbn [andb]. intros H. injection H as <- <- <- <-.
  apply break_at_spec in E1 as [-> H1].
  apply break_at_spec in E2 as [-> H2].
  apply break_at_spec in E3 as [-> H3].
  assert (Ht : exists pre,
             (e = pre ++ g \/ e = pre ++ g ++ ["010"%char])
             /\ g <> [] /\ no_newline g = true
             /\ (forallb isspace pre = true
                 \/ exists ws, pre = ","%char :: ws
                               /\ forallb isspace ws = true)).
  { assert (A : forall s, after_spaces s = Some g ->
                  exists ws, (s = ws ++ g \/ s = ws ++ g ++ ["010"%char])
                             /\ g <> [] /\ no_newline g = true
                             /\ forallb isspace ws = true).
    { intros s Hs. apply after_spaces_sound in Hs as (ws & rest & -> & Hws & Hr).
      apply tail_at_sound in Hr as (G1 & G2 & [-> | ->]);
        exists ws; auto. }
    unfold match_tail in E4.
    destruct e as [|c e1]; [apply A in E4 as (ws & H); exists ws; tauto|].
    destruct (Ascii.eqb c ",") eqn:Ec.
    - apply Ascii.eqb_eq in Ec. subst c.
      destruct (after_spaces e1) as [g'|] eqn:E5.
      + injection E4 as ->. apply A in E5 as (ws & [-> | ->] & G1 & G2 & G3).
        * exists (","%char :: ws). repeat split; auto.
          right. now exists ws.
        * exists (","%char :: ws). repeat split; auto.
          right. now exists ws.
      + apply A in E4 as (ws & H). exists ws. tauto.
    - assert (E4' : after_spaces (c :: e1) = Some g).
      { destruct c as [[] [] [] [] [] [] [] []]; try exact E4; discriminate. }
      apply A in E4' as (ws & H). exists ws. tauto. }
  destruct Ht as (pre & He & G1 & G2 & Hpre).
  exists t, e, pre.
  assert (N : forall s : str, truthy s = true -> s <> [])
    by (intros [|? ?]; [discriminate|discriminate]).
  repeat split; auto.
  unfold company_group.
  change (rstrip (lstrip t)) with (strip t).
  destruct (strip t) as [|c s] eqn:Es.
  - (* [t] is whitespace only *)
    assert (Hall : forallb isspace t = true).
    { unfold strip, lstrip, rstrip in Es.
      pose proof (drop_while_head isspace t) as Hh.
      destruct (drop_while isspace t) as [|c0 t0] eqn:Ed.
      - clear -Ed. induction t as [|x t IH]; [reflexivity|].
        simpl in *. destruct (isspace x); [now apply IH|discriminate].
      - rewrite drop_while_end_cons in Es by assumption. discriminate. }
    destruct (rev t) as [|c r] eqn:Er; [reflexivity|].
    assert (Hc : isspace c = true).
    { rewrite forallb_forall in Hall. apply Hall.
      apply in_rev. rewrite Er. now left. }
    unfold strip, lstrip, rstrip, drop_while_end. simpl. now rewrite Hc.
  - rewrite <- Es. apply strip_idem.
Qed.

(** X17.  The groups that [match_listing] returns are the pieces of the
    line that the pattern names: the text before the first comma; the text
    up to the first parenthesis after it, whitespace apart; the text up to
    the first closing parenthesis after that; and the rest of the line
    after an optional comma and whitespace, up to a final line feed. *)
Theorem match_listing_sound (line g1 g2 g3 g4 : str) :
  match_listing line = Some (g1, g2, g3, g4) ->
  exists t e pre,
    line = g1 ++ ","%char :: t ++ "("%char :: g3 ++ ")"%char :: e
    /\ g1 <> [] /\ has_no "," g1 = true
    /\ t <> [] /\ has_no "(" t = true /\ strip g2 = strip t
    /\ g3 <> [] /\ has_no ")" g3 = true
    /\ g4 <> [] /\ no_newline g4 = true
    /\ (e = pre ++ g4 \/ e = pre ++ g4 ++ ["010"%char])
    /\ (forallb isspace pre = true
        \/ exists ws, pre = ","%char :: ws /\ forallb isspace ws = true).
Proof. apply match_listing_groups. Qed.

Lemma match_listing_sound_witness :
  match_listing "PM, Acme (Health, Seed), SF"
  = Some (lit "PM", lit "Acme", lit "Health, Seed", lit "SF")
  /\ exists t e pre,
       lit "PM, Acme (Health, Seed), SF"
       = lit "PM" ++ ","%char :: t ++ "("%char :: lit "Health, Seed"
             ++ ")"%char :: e
       /\ lit "PM" <> [] /\ has_no "," "PM" = true
       /\ t <> [] /\ has_no "(" t = true /\ strip "Acme" = strip t
       /\ lit "Health, Seed" <> [] /\ has_no ")" "Health, Seed" = true
       /\ lit "SF" <> [] /\ no_newline "SF" = true
       /\ (e = pre ++ lit "SF" \/ e = pre ++ lit "SF" ++ ["010"%char])
       /\ (forallb isspace pre = true
           \/ exists ws, pre = ","%char :: ws /\ forallb isspace ws = true).
Proof.
  split; [reflexivity|].
  apply (match_listing_sound "PM, Acme (Health, Seed), SF"
           "PM" "Acme" "Health, Seed" "SF").
  reflexivity.
Defined.

(** What a successful parse went through. *)
Lemma parse_job_line_inv (v : variant) (line : str) (p : parsed) :
  parse_job_line_in v line = Some p ->
  exists g1 g2 g3 g4,
    match_listing (if strip_links v then sub_links (strip line)
                   else strip line) = Some (g1, g2, g3, g4)
    /\ min_length v <= length (strip line)
    /\ 2 <= length (strip g2) <= 100
    /\ length (strip g4) <= 100
    /\ existsb (fun w => str_in w (lower (strip g2))) (skip_words v) = false
    /\ p_company p = drop_while_end comma_or_space (strip g2)
    /\ details_fields p = parse_details (strip g3)
    /\ p_location p = strip (trim_slashes (strip g4))
    /\ p_job_title p
       = (if keeps_title v then Some (strip (strip g1)) else None).
Proof.
  unfold parse_job_line_in.
  destruct (negb (truthy (strip line))
            || (length (strip line) <? min_length v)%nat) eqn:E0;
    [discriminate|].
  apply orb_false_iff in E0 as [_ E0]. apply Nat.ltb_ge in E0.
  destruct (match_listing _) as [[[[g1 g2] g3] g4]|] eqn:Em; [|discriminate].
  destruct ((length (strip g2) <? 2)%nat || (100 <? length (strip g2))%nat)
    eqn:E1; [discriminate|].
  apply orb_false_iff in E1 as [E1 E1']. apply Nat.ltb_ge in E1, E1'.
  destruct (100 <? length (strip g4))%nat eqn:E2; [discriminate|].
  apply Nat.ltb_ge in E2.
  destruct (existsb _ (skip_words v)) eqn:E3; [discriminate|].
  destruct (parse_details (strip g3)) as [[ind stg] inv] eqn:Epd.
  intros H. injection H as <-.
  exists g1, g2, g3, g4. cbn. repeat split; auto.
Qed.

Lemma drop_while_suffix (q : ascii -> bool) (s : str) :
  exists pre, s = pre ++ drop_while q s.
Proof.
  induction s as [|c s [pre IH]]; [now exists []|].
  simpl. destruct (q c).
  - exists (c :: pre). simpl. now rewrite <- IH.
  - now exists [].
Qed.

Lemma drop_while_end_prefix (q : ascii -> bool) (s : str) :
  exists post, s = drop_while_end q s ++ post.
Proof.
  unfold drop_while_end.
  destruct (drop_while_suffix q (rev s)) as [pre H].
  exists (rev pre). rewrite <- rev_app_distr, <- H. symmetry.
  apply rev_involutive.
Qed.

Lemma drop_while_end_last_char (q : ascii -> bool) (s : str) (c : ascii) :
  last_char (drop_while_end q s) = Some c -> q c = false.
Proof.
  unfold last_char, drop_while_end. rewrite rev_involutive.
  pose proof (drop_while_head q (rev s)) as H.
  destruct (drop_while q (rev s)); simpl; [discriminate|].
  intros E. now injection E as <-.
Qed.

Lemma drop_while_first_char (q : ascii -> bool) (s : str) (c : ascii) :
  first_char (drop_while q s) = Some c -> q c = false.
Proof.
  unfold first_char. pose proof (drop_while_head q s) as H.
  destruct (drop_while q s); simpl; [discriminate|].
  intros E. now injection E as <-.
Qed.

Lemma comma_or_space_isspace (c : ascii) :
  comma_or_space c = false -> isspace c = false /\ c <> ","%char.
Proof.
  unfold comma_or_space. intros H. apply orb_false_iff in H as [H1 H2].
  split; [assumption|]. now apply Ascii.eqb_neq.
Qed.

Lemma slash_or_space_false (c : ascii) :
  slash_or_space c = false -> isspace c = false /\ c <> "/"%char.
Proof.
  unfold slash_or_space. intros H. apply orb_false_iff in H as [H1 H2].
  split; [assumption|]. now apply Ascii.eqb_neq.
Qed.

(** Trailing commas and whitespace removed from a trimmed text leave a
    trimmed text. *)
Lemma strip_drop_trailing_commas (x : str) :
  strip x = x ->
  strip (drop_while_end comma_or_space x) = drop_while_end comma_or_space x.
Proof.
  intros Hx.
  destruct (drop_while_end_prefix comma_or_space x) as [post Hp].
  pose proof (drop_while_end_last_char comma_or_space x) as Hl.
  destruct (drop_while_end comma_or_space x) as [|c y] eqn:Ey;
    [reflexivity|].
  assert (Hxne : x <> []) by (rewrite Hp; discriminate).
  destruct (stripped_ends x Hx Hxne) as [(c0 & r0 & E0 & H0) _].
  rewrite Hp in E0. injection E0 as <- _.
  unfold last_char in Hl.
  destruct (rev (c :: y)) as [|c1 r1] eqn:Er.
  - apply (f_equal (@rev ascii)) in Er. rewrite rev_involutive in Er.
    discriminate.
  - apply (strip_between (c :: y) y r1 c c1); auto.
    now destruct (comma_or_space_isspace c1 (Hl c1 eq_refl)).
Qed.

Lemma strip_trim_slashes (x : str) :
  strip (trim_slashes x) = trim_slashes x.
Proof.
  unfold trim_slashes.
  set (w := drop_while slash_or_space x).
  pose proof (drop_while_first_char slash_or_space x) as Hf. fold w in Hf.
  destruct (drop_while_end_prefix slash_or_space w) as [post Hp].
  pose proof (drop_while_end_last_char slash_or_space w) as Hl.
  destruct (drop_while_end slash_or_space w) as [|c y] eqn:Ey;
    [reflexivity|].
  unfold last_char in Hl.
  destruct (rev (c :: y)) as [|c1 r1] eqn:Er.
  - apply (f_equal (@rev ascii)) in Er. rewrite rev_involutive in Er.
    discriminate.
  - apply (strip_between (c :: y) y r1 c c1); auto.
    + rewrite Hp in Hf. now destruct (slash_or_space_false c (Hf c eq_refl)).
    + now destruct (slash_or_space_false c1 (Hl c1 eq_refl)).
Qed.

Lemma parse_details_stripped (details : str) :
  let '(i, s, inv) := parse_details details in
  strip i = i /\ strip s = s /\ strip inv = inv.
Proof.
  unfold parse_details.
  destruct (fold_left classify_part (tl (details_parts details)) ([], []))
    as [s inv].
  repeat split; apply strip_idem.
Qed.

(** X18.  Every field of a parsed record is trimmed; the company does not
    end with a comma, and the location neither starts nor ends with a
    slash. *)
Theorem parsed_fields_are_trimmed (v : variant) (line : str) (p : parsed) :
  parse_job_line_in v line = Some p ->
  strip (p_company p) = p_company p
  /\ strip (p_industry p) = p_industry p
  /\ strip (p_stage p) = p_stage p
  /\ strip (p_location p) = p_location p
  /\ strip (p_investors p) = p_investors p
  /\ (forall t, p_job_title p = Some t -> strip t = t)
  /\ last_char (p_company p) <> Some ","%char
  /\ first_char (p_location p) <> Some "/"%char
  /\ last_char (p_location p) <> Some "/"%char.
Proof.
  intros H. apply parse_job_line_inv in H
    as (g1 & g2 & g3 & g4 & _ & _ & _ & _ & _ & Hc & Hd & Hl & Ht).
  pose proof (parse_details_stripped (strip g3)) as Hs.
  rewrite <- Hd in Hs. unfold details_fields in Hs.
  destruct Hs as (Hs1 & Hs2 & Hs3).
  rewrite strip_trim_slashes in Hl.
  rewrite Hc, Hl.
  split; [apply strip_drop_trailing_commas, strip_idem|].
  split; [assumption|]. split; [assumption|].
  split; [apply strip_trim_slashes|]. split; [assumption|].
  split; [|split; [|split]].
  - intros t. rewrite Ht. destruct (keeps_title v); [|discriminate].
    intros E. injection E as <-. now rewrite !strip_idem.
  - intros E. apply drop_while_end_last_char in E.
    now destruct (comma_or_space_isspace _ E).
  - unfold trim_slashes. intros E.
    destruct (drop_while_end_prefix slash_or_space
                (drop_while slash_or_space (strip g4))) as [post Hp].
    assert (E' : first_char (drop_while slash_or_space (strip g4))
                 = Some "/"%char).
    { rewrite Hp. unfold first_char in *.
      destruct (drop_while_end slash_or_space _); [discriminate|exact E]. }
    apply drop_while_first_char in E'. discriminate.
  - unfold trim_slashes. intros E.
    apply drop_while_end_last_char in E. discriminate.
Qed.

Lemma parsed_fields_are_trimmed_witness :
  exists p,
    parse_job_line_in build_data "  PM ,  Acme Corp,, ( Health , Seed ) /SF/ "
    = Some p
    /\ p_company p = lit "Acme Corp"
    /\ p_location p = lit "SF"
    /\ strip (p_company p) = p_company p
    /\ strip (p_industry p) = p_industry p
    /\ strip (p_stage p) = p_stage p
    /\ strip (p_location p) = p_location p
    /\ strip (p_investors p) = p_investors p
    /\ (forall t, p_job_title p = Some t -> strip t = t)
    /\ last_char (p_company p) <> Some ","%char
    /\ first_char (p_location p) <> Some "/"%char
    /\ last_char (p_location p) <> Some "/"%char.
Proof.
  eexists. split; [reflexivity|]. split; [reflexivity|].
  split; [reflexivity|].
  apply (parsed_fields_are_trimmed build_data
           "  PM ,  Acme Corp,, ( Health , Seed ) /SF/ ").
  reflexivity.
Defined.

Lemma length_drop_while (q : ascii -> bool) (s : str) :
  length (drop_while q s) <= length s.
Proof.
  destruct (drop_while_suffix q s) as [pre H].
  rewrite H at 2. rewrite length_app. lia.
Qed.

Lemma length_drop_while_end (q : ascii -> bool) (s : str) :
  length (drop_while_end q s) <= length s.
Proof.
  destruct (drop_while_end_prefix q s) as [post H].
  rewrite H at 2. rewrite length_app. lia.
Qed.

Lemma length_strip (s : str) : length (strip s) <= length s.
Proof.
  unfold strip, lstrip, rstrip.
  pose proof (length_drop_while isspace s).
  pose proof (length_drop_while_end isspace (drop_while isspace s)). lia.
Qed.

Lemma str_in_prefix (w x post : str) :
  str_in w x = true -> str_in w (x ++ post) = true.
Proof.
  intros H. apply str_in_app in H as (a & b & ->).
  apply str_in_app. exists a, (b ++ post). now rewrite <- !app_assoc.
Qed.

(** X19.  A parsed record has a company and a location of at most 100
    characters, and its company holds none of the skip words, in any case
    of letters. *)
Theorem parsed_company_is_bounded (v : variant) (line : str) (p : parsed) :
  parse_job_line_in v line = Some p ->
  length (p_company p) <= 100
  /\ length (p_location p) <= 100
  /\ existsb (fun w => str_in w (lower (p_company p))) (skip_words v) = false.
Proof.
  intros H. apply parse_job_line_inv in H
    as (g1 & g2 & g3 & g4 & _ & _ & Hlen & Hll & Hskip & Hc & _ & Hl & _).
  rewrite Hc, Hl. split; [|split].
  - pose proof (length_drop_while_end comma_or_space (strip g2)). lia.
  - pose proof (length_strip (trim_slashes (strip g4))).
    unfold trim_slashes in *.
    pose proof (length_drop_while_end slash_or_space
                  (drop_while slash_or_space (strip g4))).
    pose proof (length_drop_while slash_or_space (strip g4)). lia.
  - destruct (existsb (fun w => str_in w (lower (drop_while_end
                          comma_or_space (strip g2)))) (skip_words v)) eqn:E;
      [|reflexivity].
    apply existsb_exists in E as [w [Hw Hin]].
    assert (Hf : existsb (fun w => str_in w (lower (strip g2)))
                         (skip_words v) = true).
    { apply existsb_exists. exists w. split; [assumption|].
      destruct (drop_while_end_prefix comma_or_space (strip g2)) as [post Hp].
      rewrite Hp. unfold lower. rewrite map_app.
      now apply str_in_prefix. }
    congruence.
Qed.

Lemma parsed_company_is_bounded_witness :
  exists p,
    parse_job_line_in scraper "Senior PM, Acme Health (Healthcare), SF"
    = Some p
    /\ length (p_company p) <= 100
    /\ length (p_location p) <= 100
    /\ existsb (fun w => str_in w (lower (p_company p))) (skip_words scraper)
       = false.
Proof.
  eexists. split; [reflexivity|].
  apply (parsed_company_is_bounded scraper
           "Senior PM, Acme Health (Healthcare), SF").
  reflexivity.
Defined.

Lemma has_no_In (c : ascii) (s : str) :
  has_no c s = true <-> ~ In c s.
Proof.
  unfold has_no. rewrite forallb_forall. split.
  - intros H Hin. specialize (H c Hin). now rewrite Ascii.eqb_refl in H.
  - intros H x Hx. apply negb_true_iff, Ascii.eqb_neq. intros ->. auto.
Qed.

Lemma has_no_incl (c : ascii) (s s' : str) :
  (forall x, In x s' -> In x s) -> has_no c s = true -> has_no c s' = true.
Proof. rewrite !has_no_In. auto. Qed.

Lemma In_strip (x : ascii) (s : str) : In x (strip s) -> In x s.
Proof.
  unfold strip, lstrip, rstrip. intros H.
  destruct (drop_while_end_prefix isspace (drop_while isspace s)) as [post Hp].
  destruct (drop_while_suffix isspace s) as [pre Hs].
  rewrite Hs, Hp. apply in_or_app. right. apply in_or_app. now left.
Qed.

Lemma split_parts (sep : ascii) (s part : str) :
  In part (split sep s) ->
  has_no sep part = true /\ (forall x, In x part -> In x s).
Proof.
  revert part. induction s as [|c s IH]; intros part; simpl.
  - intros [<-|[]]. split; [reflexivity|auto].
  - destruct (Ascii.eqb c sep) eqn:E.
    + intros [<-|H]; [split; [reflexivity|intros x []]|].
      destruct (IH _ H) as [H1 H2]. split; [assumption|]. auto.
    + destruct (split sep s) as [|p ps] eqn:Es.
      * intros [<-|[]]. split; [simpl; now rewrite E|].
        intros x [->|[]]. now left.
      * intros [<-|H].
        -- destruct (IH p (or_introl eq_refl)) as [H1 H2]. split.
           ++ simpl. now rewrite E.
           ++ intros x [->|Hx]; auto.
        -- destruct (IH part (or_intror H)) as [H1 H2]. split; auto.
Qed.

(** A property of all the parts of a details string, of the empty string
    and of every trimmed text, is a property of the three fields. *)
Lemma parse_details_fields (q : str -> Prop) (details : str) :
  (forall part, In part (details_parts details) -> q part) ->
  q [] ->
  (forall x, q x -> q (strip x)) ->
  let '(i, s, inv) := parse_details details in q i /\ q s /\ q inv.
Proof.
  intros Hparts Hnil Hstrip. unfold parse_details.
  rewrite classify_loop_last. cbn [fst snd].
  destruct (details_parts details) as [|p parts].
  - cbn. repeat split; exact Hnil.
  - cbn [tl]. split; [|split].
    + apply Hstrip, Hparts. now left.
    + destruct (last_such is_stage_part parts) as [x|] eqn:E.
      * apply last_such_In in E as [Hin _].
        apply Hstrip, Hstrip, Hparts. now right.
      * first [exact Hnil|apply Hstrip; exact Hnil].
    + destruct (last_such is_investors_part parts) as [x|] eqn:E.
      * apply last_such_In in E as [Hin _].
        apply Hstrip, Hstrip, Hparts. now right.
      * first [exact Hnil|apply Hstrip; exact Hnil].
Qed.

(** X20.  The industry, the stage and the investors of a parsed record hold
    no comma and no closing parenthesis; the job title, where it is kept,
    holds no comma. *)
Theorem parsed_details_have_no_separator
        (v : variant) (line : str) (p : parsed) :
  parse_job_line_in v line = Some p ->
  (forall f, In f [p_industry p; p_stage p; p_investors p] ->
             has_no "," f = true /\ has_no ")" f = true)
  /\ (forall t, p_job_title p = Some t -> has_no "," t = true).
Proof.
  intros H. apply parse_job_line_inv in H
    as (g1 & g2 & g3 & g4 & Hm & _ & _ & _ & _ & _ & Hd & _ & Ht).
  apply match_listing_groups in Hm
    as (t & e & pre & _ & _ & Hg1 & _ & _ & _ & _ & Hg3 & _).
  pose proof (parse_details_fields
                (fun f => has_no "," f = true /\ has_no ")" f = true)
                (strip g3)) as Hq.
  rewrite <- Hd in Hq. unfold details_fields in Hq.
  split.
  - assert (Hall : (has_no "," (p_industry p) = true
                    /\ has_no ")" (p_industry p) = true)
                   /\ (has_no "," (p_stage p) = true
                       /\ has_no ")" (p_stage p) = true)
                   /\ (has_no "," (p_investors p) = true
                       /\ has_no ")" (p_investors p) = true)).
    { apply Hq.
      - intros part Hin. unfold details_parts in Hin.
        apply in_map_iff in Hin as [raw [<- Hraw]].
        destruct (split_parts "," (strip g3) raw Hraw) as [H1 H2].
        split.
        + apply (has_no_incl "," raw); [intros y; apply In_strip|assumption].
        + apply (has_no_incl ")" g3); [|assumption].
          intros x Hx. exact (In_strip x g3 (H2 x (In_strip x raw Hx))).
      - split; reflexivity.
      - intros x [H1 H2]. split.
        + apply (has_no_incl "," x); [intros y; apply In_strip|assumption].
        + apply (has_no_incl ")" x); [intros y; apply In_strip|assumption]. }
    destruct Hall as (A & B & C).
    intros f [<-|[<-|[<-|[]]]]; assumption.
  - intros t0. rewrite Ht. destruct (keeps_title v); [|discriminate].
    intros E. injection E as <-.
    apply (has_no_incl "," g1); [|assumption].
    intros x Hx. exact (In_strip x g1 (In_strip x (strip g1) Hx)).
Qed.

Lemma parsed_details_have_no_separator_witness :
  exists p,
    BuildData.parse_job_line
      "Senior PM, Acme Health (Healthcare, Series B, YC backed), SF"
    = Some p
    /\ (forall f, In f [p_industry p; p_stage p; p_investors p] ->
                  has_no "," f = true /\ has_no ")" f = true)
    /\ (forall t, p_job_title p = Some t -> has_no "," t = true).
Proof.
  eexists. split; [reflexivity|].
  apply (parsed_details_have_no_separator build_data
           "Senior PM, Acme Health (Healthcare, Series B, YC backed), SF").
  reflexivity.
Defined.

(** ** The section tracker *)

Lemma heading_of_role (x h : str) :
  heading_of x = Some h -> In h role_headings.
Proof.
  unfold heading_of, role_headings.
  repeat match goal with
         | |- context [if ?b then _ else _] => destruct b
         end;
    intros H; try discriminate; injection H as <-; simpl; auto.
Qed.

Lemma scan_lines_tagged (e : Z) (d : str) (lines : list str)
      (cur : option str) (c : listing) :
  (forall h, cur = Some h -> In h role_headings) ->
  In c (scan_lines e d cur lines) ->
  c_edition c = e /\ c_date c = d
  /\ (forall h, c_role_category c = Some h -> In h role_headings).
Proof.
  revert cur. induction lines as [|line rest IH]; intros cur Hcur; simpl;
    [contradiction|].
  destruct (truthy (strip line)); cbn [negb]; [|now apply IH].
  destruct (heading_of (lower (strip line))) as [cat|] eqn:Eh.
  - apply IH. intros h E. injection E as <-. now apply heading_of_role in Eh.
  - destruct (BuildData.parse_job_line (strip line)) as [p|];
      [|now apply IH].
    intros [<-|H]; [|now apply (IH cur)].
    cbn. repeat split. exact Hcur.
Qed.

(** X21.  Every listing of an edition carries the edition number and the
    date that were passed in, and a role category that is either absent or
    one of "Chief of Staff", "BizOps" and "VC". *)
Theorem parse_edition_html_tags (html : str) (e : Z) (d : str) (c : listing) :
  In c (parse_edition_html html e d) ->
  c_edition c = e /\ c_date c = d
  /\ (forall h, c_role_category c = Some h -> In h role_headings).
Proof.
  apply scan_lines_tagged. discriminate.
Qed.

Lemma parse_edition_html_tags_witness :
  exists c,
    In c (parse_edition_html
            sample_html 12 "Mar 4, 2024")
    /\ c_edition c = 12%Z /\ c_date c = lit "Mar 4, 2024"
    /\ c_role_category c = Some (lit "BizOps")
    /\ (forall h, c_role_category c = Some h -> In h role_headings).
Proof.
  eexists. split; [left; reflexivity|].
  split; [reflexivity|]. split; [reflexivity|]. split; [reflexivity|].
  apply (parse_edition_html_tags
           sample_html 12 "Mar 4, 2024").
  left. reflexivity.
Defined.

Lemma scan_lines_app (e : Z) (d : str) (l1 l2 : list str) (cur : option str) :
  scan_lines e d cur (l1 ++ l2)
  = scan_lines e d cur l1 ++ scan_lines e d (category_after cur l1) l2.
Proof.
  revert cur. induction l1 as [|line rest IH]; intros cur; simpl;
    [reflexivity|].
  destruct (truthy (strip line)); cbn [negb]; [|apply IH].
  destruct (heading_of (lower (strip line))) as [cat|]; [apply IH|].
  destruct (BuildData.parse_job_line (strip line)) as [p|]; [|apply IH].
  simpl. now rewrite IH.
Qed.

Lemma scan_lines_no_heading (e : Z) (d : str) (lines : list str)
      (cur : option str) :
  forallb (fun l => negb (is_heading l)) lines = true ->
  Forall (fun c => c_role_category c = cur) (scan_lines e d cur lines).
Proof.
  induction lines as [|line rest IH]; simpl; [constructor|].
  intros H. apply andb_prop in H as [Hl Hr].
  unfold is_heading in Hl.
  destruct (truthy (strip line)); cbn [negb andb] in *; [|now apply IH].
  destruct (heading_of (lower (strip line))); [discriminate|].
  destruct (BuildData.parse_job_line (strip line)) as [p|]; [|now apply IH].
  constructor; [reflexivity|now apply IH].
Qed.

(** X22.  A heading rules the lines after it up to the next heading: the
    listings of the lines before it are what they are without it, and
    every listing of the lines that follow, when none of them is a
    heading, carries the category of the heading; the heading line itself
    gives no listing. *)
Theorem heading_scope (e : Z) (d : str) (cur : option str)
        (before after : list str) (heading : str) (category : str) :
  truthy (strip heading) = true ->
  heading_of (lower (strip heading)) = Some category ->
  forallb (fun l => negb (is_heading l)) after = true ->
  exists tagged,
    scan_lines e d cur (before ++ heading :: after)
    = scan_lines e d cur before ++ tagged
    /\ tagged = scan_lines e d (Some category) after
    /\ Forall (fun c => c_role_category c = Some category) tagged.
Proof.
  intros Ht Hh Ha. exists (scan_lines e d (Some category) after).
  split; [|split; [reflexivity|now apply scan_lines_no_heading]].
  rewrite scan_lines_app. f_equal. cbn [scan_lines].
  rewrite Ht, Hh. reflexivity.
Qed.

Lemma heading_scope_witness :
  exists tagged,
    scan_lines 12 "Mar 4, 2024" None
      (map lit ["PM, Acme Health (Healthcare), SF"; "VC Roles";
                "Partner, Beta Fund (Fintech, Seed), NYC"])
    = scan_lines 12 "Mar 4, 2024" None
        (map lit ["PM, Acme Health (Healthcare), SF"]) ++ tagged
    /\ tagged = scan_lines 12 "Mar 4, 2024" (Some (lit "VC"))
                  (map lit ["Partner, Beta Fund (Fintech, Seed), NYC"])
    /\ Forall (fun c => c_role_category c = Some (lit "VC")) tagged.
Proof.
  apply (heading_scope 12 "Mar 4, 2024" None
           (map lit ["PM, Acme Health (Healthcare), SF"])
           (map lit ["Partner, Beta Fund (Fintech, Seed), NYC"])
           "VC Roles" "VC"); reflexivity.
Defined.

(** X23.  From the raw edition files to the result: every edition of a
    record is the number of one of the files, and its role categories are
    among the three headings. *)
Theorem pipeline_editions_come_from_files
        (files : list (Z * str * str)) (r : company) :
  In r (deduplicate_companies (all_listings files)) ->
  (forall e, In e (editions r) -> exists f, In f files /\ fst (fst f) = e)
  /\ (forall h, In h (role_categories r) -> In h role_headings).
Proof.
  intros H. apply in_deduplicate_companies in H as [key Hk].
  assert (Hfile : forall c, In c (all_listings files) ->
                    exists f, In f files
                              /\ In c (parse_edition_html (snd (fst f))
                                         (fst (fst f)) (snd f))).
  { intros c Hc. unfold all_listings in Hc.
    apply in_flat_map in Hc as [f [Hf Hc]]. now exists f. }
  split.
  - intros e He.
    destruct (proj1 (build_map_editions (all_listings files) key e))
      as [c [Hc [_ Hed]]]; [now exists r|].
    destruct (Hfile c Hc) as [f [Hf Hin]].
    apply scan_lines_tagged in Hin as [Hn _]; [|discriminate].
    exists f. split; [assumption|congruence].
  - intros h Hh.
    destruct (build_map_categories _ _ _ Hk) as [_ Hcat].
    apply Hcat in Hh as [c [Hc [_ Hco]]].
    destruct (Hfile c Hc) as [f [Hf Hin]].
    apply scan_lines_tagged in Hin as (_ & _ & Hrole); [|discriminate].
    apply Hrole. unfold category_of in Hco.
    destruct (c_role_category c) as [x|]; [|discriminate].
    destruct (truthy x); [|discriminate]. now injection Hco as ->.
Qed.

Lemma pipeline_editions_come_from_files_witness :
  exists r,
    In r (deduplicate_companies
            (all_listings
               sample_files))
    /\ (forall e, In e (editions r) ->
          exists f, In f sample_files
                    /\ fst (fst f) = e)
    /\ (forall h, In h (role_categories r) -> In h role_headings).
Proof.
  eexists. split; [left; reflexivity|].
  apply (pipeline_editions_come_from_files
           sample_files).
  left. reflexivity.
Defined.

(** ** The filters *)

(** X24.  The filters bound the length: a valid company has at least 2
    characters, a valid industry from 2 to 50, a valid location from 2 to
    60. *)
Theorem valid_fields_are_bounded (s : str) :
  (is_valid_company s = true -> 2 <= length s)
  /\ (is_valid_industry s = true -> 2 <= length s <= 50)
  /\ (is_valid_location s = true -> 2 <= length s <= 60).
Proof.
  unfold is_valid_company, is_valid_industry, is_valid_location.
  split; [|split].
  - destruct (negb (truthy s) || (length s <? 2)%nat) eqn:E; [discriminate|].
    apply orb_false_iff in E as [_ E]. apply Nat.ltb_ge in E. auto.
  - destruct (negb (truthy s) || (length s <? 2)%nat) eqn:E; [discriminate|].
    apply orb_false_iff in E as [_ E]. apply Nat.ltb_ge in E.
    destruct (existsb _ _); [discriminate|].
    destruct (50 <? length s)%nat eqn:E2; [discriminate|].
    apply Nat.ltb_ge in E2. auto.
  - destruct (negb (truthy s) || (length s <? 2)%nat) eqn:E; [discriminate|].
    apply orb_false_iff in E as [_ E]. apply Nat.ltb_ge in E.
    destruct (negb (passes_patterns _ _)); [discriminate|].
    destruct (60 <? length s)%nat eqn:E2; [discriminate|].
    apply Nat.ltb_ge in E2. auto.
Qed.

Lemma valid_fields_are_bounded_witness :
  is_valid_company "Acme Health" = true
  /\ is_valid_industry "Healthcare" = true
  /\ is_valid_location "Palo Alto" = true
  /\ 2 <= length (lit "Acme Health")
  /\ 2 <= length (lit "Healthcare") <= 50
  /\ 2 <= length (lit "Palo Alto") <= 60.
Proof.
  split; [reflexivity|]. split; [reflexivity|]. split; [reflexivity|].
  split; [|split].
  - apply (proj1 (valid_fields_are_bounded "Acme Health")). reflexivity.
  - apply (proj1 (proj2 (valid_fields_are_bounded "Healthcare"))).
    reflexivity.
  - apply (proj2 (proj2 (valid_fields_are_bounded "Palo Alto"))).
    reflexivity.
Defined.

Lemma lower_char_not_I (c : ascii) : Ascii.eqb "I" (lower_char c) = false.
Proof. destruct c as [[] [] [] [] [] [] [] []]; reflexivity. Qed.

(** X25.  The reject pattern [^I (added|invest)] of [is_valid_industry]
    never matches: it starts with a capital letter and is tried on the
    lower-cased industry. *)
Theorem first_person_pattern_is_dead (industry : str) :
  In first_person_pattern industry_garbage_patterns
  /\ search false first_person_pattern (lower industry) = false.
Proof.
  split; [unfold industry_garbage_patterns; do 7 right; now left|].
  unfold search, first_person_pattern, starting, matches_here.
  cbn [from_start expr to_end].
  destruct industry as [|c l]; [reflexivity|].
  cbn [lower map word rests lit list_ascii_of_string].
  cbn [class_matches]. rewrite lower_char_not_I. reflexivity.
Qed.

(** An industry in the first person passes the filter. *)
Example first_person_industry_is_valid :
  is_valid_industry "I added this one" = true.
Proof. reflexivity. Qed.

(** ** The cleaning pass *)

Lemma clean_loop_counts (seen : list (str * Z)) (cs : list company) :
  length (cleaned_companies (clean_loop seen cs))
  + removed_invalid (clean_loop seen cs)
  + removed_duplicates (clean_loop seen cs)
  = length cs.
Proof.
  revert seen. induction cs as [|c cs IH]; intros seen; [reflexivity|].
  cbn [clean_loop].
  destruct (clean_record c) as [k|].
  - destruct (existsb (key_eqb (seen_key k)) seen); cbn.
    + specialize (IH seen). lia.
    + specialize (IH (seen_key k :: seen)). lia.
  - cbn. specialize (IH seen). lia.
Qed.

(** X26.  Every record goes one of three ways: the kept records, the
    records counted as invalid and the records counted as duplicates add
    up to the records read. *)
Theorem clean_companies_data_counts (cs : list company) :
  length (cleaned_companies (clean_companies_data cs))
  + removed_invalid (clean_companies_data cs)
  + removed_duplicates (clean_companies_data cs)
  = length cs.
Proof. apply clean_loop_counts. Qed.

Lemma clean_loop_kept (seen : list (str * Z)) (cs : list company)
      (k : company) :
  In k (cleaned_companies (clean_loop seen cs)) ->
  exists c, In c cs /\ clean_record c = Some k.
Proof.
  revert seen. induction cs as [|c cs IH]; intros seen; [contradiction|].
  cbn [clean_loop].
  destruct (clean_record c) as [k'|] eqn:E.
  - destruct (existsb (key_eqb (seen_key k')) seen); cbn.
    + intros H. destruct (IH _ H) as [c' [H1 H2]]. exists c'. auto.
    + intros [<-|H]; [exists c; auto|].
      destruct (IH _ H) as [c' [H1 H2]]. exists c'. auto.
  - cbn. intros H. destruct (IH _ H) as [c' [H1 H2]]. exists c'. auto.
Qed.

Lemma is_valid_location_truthy (s : str) :
  is_valid_location s = true -> s <> [].
Proof.
  intros H E. subst s. discriminate.
Qed.

(** X27.  A kept record is a record that was read, with its industry and
    its location normalized and everything else as it was: the company,
    the industry and the location passed their filters, the new industry
    is not empty, and the new location is a " / "-join of distinct tags of
    the closed vocabulary. *)
Theorem cleaned_record_is_normalized (cs : list company) (k : company) :
  In k (cleaned_companies (clean_companies_data cs)) ->
  exists c,
    In c cs
    /\ is_valid_company (company_name c) = true
    /\ is_valid_industry (industry c) = true
    /\ is_valid_location (location c) = true
    /\ normalize_industry (industry c) = Some (industry k)
    /\ industry k <> []
    /\ location k = normalize_location (location c)
    /\ (exists ts, ts <> [] /\ NoDup ts
                   /\ (forall t, In t ts -> In t location_tags)
                   /\ location k = join " / " ts)
    /\ company_name k = company_name c
    /\ stage k = stage c
    /\ investors k = investors c
    /\ editions k = editions c
    /\ latest_edition k = latest_edition c
    /\ latest_date k = latest_date c
    /\ role_categories k = role_categories c
    /\ description k = description c.
Proof.
  intros H. apply clean_loop_kept in H as [c [Hc Hk]].
  exists c. split; [assumption|].
  unfold clean_record in Hk.
  destruct (is_valid_company (company_name c)); [|discriminate].
  destruct (is_valid_industry (industry c)); [|discriminate].
  destruct (is_valid_location (location c)) eqn:El; [|discriminate].
  cbn [negb] in Hk.
  destruct (normalize_industry (industry c)) as [n|]; [|discriminate].
  destruct (truthy n) eqn:En; [|discriminate].
  injection Hk as <-. cbn.
  repeat split; try reflexivity.
  - intros E. subst n. discriminate.
  - apply normalize_location_shape. now apply is_valid_location_truthy.
Qed.

Lemma cleaned_record_is_normalized_witness :
  exists k,
    In k (cleaned_companies (clean_companies_data [raw_acme]))
    /\ industry k = lit "Healthcare"
    /\ location k = lit "SF / Remote"
    /\ exists c,
         In c [raw_acme]
         /\ is_valid_company (company_name c) = true
         /\ is_valid_industry (industry c) = true
         /\ is_valid_location (location c) = true
         /\ normalize_industry (industry c) = Some (industry k)
         /\ industry k <> []
         /\ location k = normalize_location (location c)
         /\ (exists ts, ts <> [] /\ NoDup ts
                        /\ (forall t, In t ts -> In t location_tags)
                        /\ location k = join " / " ts)
         /\ company_name k = company_name c
         /\ stage k = stage c
         /\ investors k = investors c
         /\ editions k = editions c
         /\ latest_edition k = latest_edition c
         /\ latest_date k = latest_date c
         /\ role_categories k = role_categories c
         /\ description k = description c.
Proof.
  eexists. split; [left; reflexivity|].
  split; [reflexivity|]. split; [reflexivity|].
  apply (cleaned_record_is_normalized [raw_acme]).
  left. reflexivity.
Defined.

Lemma key_eqb_eq (a b : str * Z) : key_eqb a b = true <-> a = b.
Proof.
  destruct a as [a1 a2], b as [b1 b2]. unfold key_eqb. cbn [fst snd].
  rewrite andb_true_iff, str_eqb_eq, Z.eqb_eq. split.
  - intros [-> ->]. reflexivity.
  - intros H. injection H as -> ->. auto.
Qed.

Lemma clean_loop_keys (seen : list (str * Z)) (cs : list company) :
  NoDup (map seen_key (cleaned_companies (clean_loop seen cs)))
  /\ (forall k, In k (cleaned_companies (clean_loop seen cs)) ->
                ~ In (seen_key k) seen).
Proof.
  revert seen. induction cs as [|c cs IH]; intros seen.
  - split; [constructor|intros k []].
  - cbn [clean_loop]. destruct (clean_record c) as [k'|]; [|apply IH].
    destruct (existsb (key_eqb (seen_key k')) seen) eqn:E; [apply IH|].
    cbn. destruct (IH (seen_key k' :: seen)) as [H1 H2]. split.
    + constructor; [|assumption].
      intros Hin. apply in_map_iff in Hin as [k [Hk Hin]].
      apply (H2 k Hin). left. now symmetry.
    + intros k [<-|H].
      * intros Hin.
        assert (Ht : existsb (key_eqb (seen_key k')) seen = true).
        { apply existsb_exists. exists (seen_key k').
          split; [assumption|now apply key_eqb_eq]. }
        congruence.
      * intros Hin. apply (H2 k H). now right.
Qed.

(** X28.  No two kept records share the company name, up to case, and
    the latest edition. *)
Theorem cleaned_keys_are_distinct (cs : list company) :
  NoDup (map seen_key (cleaned_companies (clean_companies_data cs))).
Proof. apply clean_loop_keys. Qed.

(** ** The cleaning pass after the merger *)

Lemma replace_merge_key_of_name (m : company_map) (key : str)
      (existing : company) (c : listing) :
  Forall (fun kv => fst kv = strip (lower (company_name (snd kv)))) m ->
  lookup key m = Some existing ->
  Forall (fun kv => fst kv = strip (lower (company_name (snd kv))))
         (replace key (merge existing c) m).
Proof.
  induction 1 as [|[k w] m Hk Hm IH]; simpl; [constructor|].
  destruct (str_eqb key k).
  - intros E. injection E as ->. constructor; [|assumption].
    cbn [fst snd] in *.
    destruct (merge_grows existing c) as [-> _]. exact Hk.
  - intros E. constructor; [assumption|now apply IH].
Qed.

(** The key of an entry is the key of the name its record carries. *)
Lemma build_map_key_of_name (cs : list listing) :
  Forall (fun kv => fst kv = strip (lower (company_name (snd kv))))
         (build_map cs).
Proof.
  induction cs as [|c cs IH] using rev_ind; [constructor|].
  rewrite build_map_snoc. unfold dedup_step.
  destruct (lookup (company_key c) (build_map cs)) as [existing|] eqn:E.
  - now apply replace_merge_key_of_name.
  - apply Forall_app. split; [assumption|].
    constructor; [reflexivity|constructor].
Qed.

Lemma NoDup_map_inv' {A B C : Type} (f : A -> B) (g : B -> C) (l : list A) :
  NoDup (map (fun x => g (f x)) l) -> NoDup (map f l).
Proof.
  rewrite <- (map_map f g). apply NoDup_map_inv.
Qed.

(** The records of the result have names that differ beyond case. *)
Lemma deduplicate_companies_names (cs : list listing) :
  NoDup (map (fun r => lower (company_name r)) (deduplicate_companies cs)).
Proof.
  apply (NoDup_map_inv' _ strip).
  apply (Permutation_NoDup
           (Permutation_map _ (Permutation_sym (deduplicate_companies_perm cs)))).
  rewrite map_map.
  replace (map (fun x => strip (lower (company_name (snd x)))) (build_map cs))
    with (map fst (build_map cs)).
  - apply build_map_keys_nodup.
  - pose proof (build_map_key_of_name cs) as H.
    induction H as [|kv m Hk Hm IH]; [reflexivity|].
    simpl. now rewrite Hk, IH.
Qed.

Lemma clean_record_key (c k : company) :
  clean_record c = Some k -> seen_key k = seen_key c.
Proof.
  unfold clean_record.
  repeat match goal with
         | |- context [if ?b then _ else _] => destruct b; try discriminate
         end.
  destruct (normalize_industry (industry c)) as [n|]; [|discriminate].
  destruct (truthy n); [|discriminate].
  intros H. now injection H as <-.
Qed.

Lemma clean_loop_no_duplicates (seen : list (str * Z)) (cs : list company) :
  NoDup (map (fun r => lower (company_name r)) cs) ->
  (forall c k, In c cs -> In k seen -> fst k <> lower (company_name c)) ->
  removed_duplicates (clean_loop seen cs) = 0.
Proof.
  revert seen. induction cs as [|c cs IH]; intros seen Hnd Hs; [reflexivity|].
  inversion Hnd as [|? ? Hc Hcs]; subst.
  cbn [clean_loop].
  destruct (clean_record c) as [k'|] eqn:E.
  - rewrite (clean_record_key c k' E).
    assert (Hex : existsb (key_eqb (seen_key c)) seen = false).
    { destruct (existsb (key_eqb (seen_key c)) seen) eqn:Ex; [|reflexivity].
      apply existsb_exists in Ex as [k [Hk He]].
      apply key_eqb_eq in He. exfalso.
      apply (Hs c k); [now left|assumption|]. now rewrite <- He. }
    rewrite Hex. cbn. apply IH; [assumption|].
    intros c' k Hc' [<-|Hk].
    + cbn. intros Heq. apply Hc. rewrite Heq.
      now apply (in_map (fun r => lower (company_name r))).
    + apply Hs; [now right|assumption].
  - cbn. apply IH; [assumption|].
    intros c' k Hc' Hk. apply Hs; [now right|assumption].
Qed.

(** X29.  The duplicate test of the cleaning pass never fires on a result
    of [deduplicate_companies]: the merger leaves one record per name, so
    every record the pass removes is removed as invalid. *)
Theorem no_duplicates_after_merge (cs : list listing) :
  removed_duplicates (clean_companies_data (deduplicate_companies cs)) = 0
  /\ length (cleaned_companies
               (clean_companies_data (deduplicate_companies cs)))
     + removed_invalid (clean_companies_data (deduplicate_companies cs))
     = length (deduplicate_companies cs).
Proof.
  assert (H : removed_duplicates
                (clean_companies_data (deduplicate_companies cs)) = 0).
  { apply clean_loop_no_duplicates.
    - apply deduplicate_companies_names.
    - intros c k _ []. }
  split; [exact H|].
  pose proof (clean_loop_counts [] (deduplicate_companies cs)) as Hc.
  unfold clean_companies_data in *. lia.
Qed.

Lemma normalize_industry_range_witness :
  normalize_industry "Custom b2b Widgets" = Some (lit "Custom B2B Widgets")
  /\ (In (lit "Custom B2B Widgets") industry_tags
      \/ lit "Custom b2b Widgets" = []
      \/ lit "Custom B2B Widgets"
         = sub_word "B2C" (sub_word "B2B" (sub_word "Web3"
             (sub_word "SaaS" (sub_word "AI" (strip "Custom b2b Widgets")))))).
Proof.
  split; [reflexivity|].
  apply (normalize_industry_range "Custom b2b Widgets" "Custom B2B Widgets").
  reflexivity.
Defined.

(** No key of [mappings] is written twice, so the first entry of a key is
    its only one. *)
Lemma mappings_keys_distinct :
  distinct_first (map fst mappings) = map fst mappings.
Proof. vm_compute. reflexivity. Qed.

(** ** The line parser: a part with a stage keyword and "backed" *)

Lemma last_such_app (q : str -> bool) (a b : list str) :
  last_such q (a ++ b)
  = match last_such q b with
    | Some y => Some y
    | None => last_such q a
    end.
Proof.
  induction a as [|x a IH]; simpl.
  - now destruct (last_such q b).
  - rewrite IH. now destruct (last_such q b).
Qed.

Lemma last_such_none (q : str -> bool) (l : list str) :
  forallb (fun x => negb (q x)) l = true -> last_such q l = None.
Proof.
  induction l as [|x l IH]; simpl; [reflexivity|].
  intros H. apply andb_prop in H as [Hx Hl].
  apply negb_true_iff in Hx. now rewrite (IH Hl), Hx.
Qed.

(** The fields of a details string: the first part, the last part after
    it that is taken for the stage, the last that is taken for the
    investors. *)
Lemma parse_details_last (details : str) :
  parse_details details =
    (hd [] (details_parts details),
     or_empty (last_such is_stage_part (tl (details_parts details))),
     or_empty (last_such is_investors_part (tl (details_parts details)))).
Proof.
  unfold parse_details.
  pose proof (details_parts_stripped details) as Hs.
  destruct (details_parts details) as [|p parts]; [reflexivity|].
  cbn [tl hd]. rewrite classify_loop_last. cbn [fst snd].
  assert (Hp : strip p = p) by (apply Hs; now left).
  assert (Ht : forall q (x : str),
             last_such q parts = Some x -> strip (strip x) = x).
  { intros q x Hx. apply last_such_In in Hx as [Hin _].
    rewrite strip_idem. apply Hs. now right. }
  rewrite Hp.
  destruct (last_such is_stage_part parts) as [x|] eqn:Ex;
    destruct (last_such is_investors_part parts) as [y|] eqn:Ey;
    cbn [or_empty]; rewrite ?strip_nil;
    try rewrite (Ht _ _ Ex); try rewrite (Ht _ _ Ey); reflexivity.
Qed.

Lemma is_stage_part_truthy (part : str) :
  is_stage_part part = true -> part <> [].
Proof. intros H E. subst part. discriminate. Qed.

(** C9.  Let a line be parsed, and let a part of its details after the
    first hold both a funding or stage keyword and "backed".  Then the part
    is taken for the stage: the stage of the record is this part, unless a
    later part with a stage keyword takes its place, and is not empty.  It
    is never taken for the investors: the investors of the record are what
    the other parts alone give, and differ from the part, even when it is
    the last part that holds "backed". *)
Theorem C9_stage_before_investors
        (v : variant) (line : str) (p : parsed) (g1 g2 g3 g4 : str)
        (before after : list str) (part : str) :
  parse_job_line_in v line = Some p ->
  match_listing (if strip_links v then sub_links (strip line)
                 else strip line) = Some (g1, g2, g3, g4) ->
  tl (details_parts (strip g3)) = before ++ part :: after ->
  has_stage_keyword (lower part) = true ->
  has_backed (lower part) = true ->
  p_stage p = match last_such is_stage_part after with
              | Some later => later
              | None => part
              end
  /\ p_stage p <> []
  /\ p_investors p
     = or_empty (last_such is_investors_part (before ++ after))
  /\ p_investors p <> part
  /\ (forallb (fun q => negb (has_backed (lower q))) after = true ->
      last_such (fun q => has_backed (lower q)) (before ++ part :: after)
      = Some part).
Proof.
  intros Hp Hm Hparts Hstage Hbacked.
  apply parse_job_line_inv in Hp
    as (g1' & g2' & g3' & g4' & Hm' & _ & _ & _ & _ & _ & Hd & _).
  rewrite Hm in Hm'. injection Hm' as <- <- <- <-.
  rewrite parse_details_last, Hparts in Hd.
  unfold details_fields in Hd. injection Hd as _ Hs Hi.
  assert (Hsp : is_stage_part part = true) by exact Hstage.
  assert (Hip : is_investors_part part = false).
  { unfold is_investors_part. now rewrite Hstage. }
  assert (Hne : part <> []) by now apply is_stage_part_truthy.
  assert (Es : last_such is_stage_part (before ++ part :: after)
               = Some (match last_such is_stage_part after with
                       | Some later => later
                       | None => part
                       end)).
  { rewrite last_such_app. cbn [last_such].
    destruct (last_such is_stage_part after); [reflexivity|].
    now rewrite Hsp. }
  assert (Ei : last_such is_investors_part (before ++ part :: after)
               = last_such is_investors_part (before ++ after)).
  { rewrite !last_such_app. cbn [last_such].
    destruct (last_such is_investors_part after); [reflexivity|].
    now rewrite Hip. }
  rewrite Es in Hs. rewrite Ei in Hi. cbn [or_empty] in Hs.
  split; [exact Hs|]. split; [|split; [exact Hi|split]].
  - rewrite Hs. destruct (last_such is_stage_part after) as [later|] eqn:El;
      [|assumption].
    apply last_such_In in El as [_ El]. now apply is_stage_part_truthy.
  - rewrite Hi.
    destruct (last_such is_investors_part (before ++ after)) as [y|] eqn:Ey;
      cbn [or_empty].
    + apply last_such_In in Ey as [_ Ey]. intros ->. congruence.
    + intros E. now apply Hne.
  - intros Hafter. rewrite last_such_app. cbn [last_such].
    rewrite (last_such_none _ after Hafter). now rewrite Hbacked.
Qed.

Lemma C9_witness :
  exists p,
    parse_job_line_in build_data
      "Senior PM, Acme Health (Healthcare, a16z backed, YC-backed Seed, Angel backed), SF"
    = Some p
    /\ p_stage p = lit "YC-backed Seed"
    /\ p_investors p = lit "Angel backed"
    /\ p_stage p = match last_such is_stage_part [lit "Angel backed"] with
                   | Some later => later
                   | None => lit "YC-backed Seed"
                   end
    /\ p_stage p <> []
    /\ p_investors p
       = or_empty (last_such is_investors_part
                     ([lit "a16z backed"] ++ [lit "Angel backed"]))
    /\ p_investors p <> lit "YC-backed Seed"
    /\ (forallb (fun q => negb (has_backed (lower q))) [lit "Angel backed"]
        = true ->
        last_such (fun q => has_backed (lower q))
                  ([lit "a16z backed"] ++ lit "YC-backed Seed"
                     :: [lit "Angel backed"])
        = Some (lit "YC-backed Seed")).
Proof.
  eexists. split; [reflexivity|]. split; [reflexivity|].
  split; [reflexivity|].
  apply (C9_stage_before_investors build_data
           "Senior PM, Acme Health (Healthcare, a16z backed, YC-backed Seed, Angel backed), SF"
           _ "Senior PM" "Acme Health"
           "Healthcare, a16z backed, YC-backed Seed, Angel backed" "SF"
           [lit "a16z backed"] [lit "Angel backed"] "YC-backed Seed");
    reflexivity.
Defined.
